(** * VEGAS adaptive Monte-Carlo integration: a verified model

    Shallow embedding of the [Vegas] class of the notebook (the Cython helper
    [_get_selected_region] and the methods [__init__], [resize_grid],
    [get_next_index], [get_selected_subregion], [prepare_grid] and
    [integrate]) and of the integrands of its test cells ([rnd], [grow]).

    Conventions of the embedding.
    - Python [int]s are [Z]; [range(k)] runs [Z.to_nat k] times.
    - The numbers held in numpy arrays are exact rationals ([Q], compared
      with [==]): rounding of the stored values is not modelled, so "equal up
      to floating tolerance" reads as [==].  Division by zero, which numpy
      answers with inf or nan, has no counterpart in [Q] ([/ 0] is [0]); the
      theorems that need it show the divisors are non-zero.
    - Overflow and underflow have no counterpart in [Q] either.  Where they
      decide what the code does (the weights and edges of [resize_grid], and
      with them the grid [prepare_grid] commits), the computation is embedded
      once more on binary64 numbers, bit for bit ([Float64]); where the two
      models part, [Float64] is the code.
    - One float computation decides control flow rather than a stored value:
      [np.arange] sizes its result as [ceil((stop - start) / step)] in
      binary64.  That computation is embedded bit for bit ([Binary64]).
    - A two-dimensional array is the list of its columns; [bins[i, d]] is
      entry [i] of column [d].  A [2 x Dim] array (the region, a selected
      zone) is a list of [Dim] pairs [(row 0, row 1)].
    - [self.rand] is a position in the sequence of vectors the generator
      returns; [self.func] is a pure function. *)

From Stdlib Require Import String ZArith QArith Qabs Qround List Bool Lia Lqa.
From Stdlib Require Import Floats.SpecFloat.
Import ListNotations.

(** ** Exceptions and results *)

Inductive exn : Type :=
| Exception (msg : string)        (* [raise Exception(msg)] *)
| AttributeError (attr : string)  (* reading an attribute that was never set *)
| ZeroDivisionError
| ValueError
| IndexError
| MemoryError.

Inductive res (A : Type) : Type :=
| Ok (a : A)
| Raise (e : exn).

Arguments Ok {A} a.
Arguments Raise {A} e.

(** ** binary64 arithmetic for the length of [np.arange] *)

Module Binary64.

Definition prec : Z := 53.
Definition emax : Z := 1024.

(** An integer as the nearest binary64 number (exact below [2^53]). *)
Definition of_int (n : Z) : spec_float := binary_normalize prec emax n 0 false.

Definition add := SFadd prec emax.
Definition sub := SFsub prec emax.
Definition div := SFdiv prec emax.

(** [ceil] of a finite binary64 number; [None] for inf and nan. *)
Definition ceil (x : spec_float) : option Z :=
  match x with
  | S754_zero _ => Some 0%Z
  | S754_finite s m e =>
      let v := if s then Z.neg m else Z.pos m in
      Some (if (0 <=? e)%Z then (v * 2 ^ e)%Z else (- ((- v) / 2 ^ (- e)))%Z)
  | _ => None
  end.

(** Number of elements of [np.arange(start, stop, step)]. *)
Definition arange_length (start stop step : spec_float) : option Z :=
  ceil (div (sub stop start) step).

(** The call of [prepare_grid]: [np.arange(1/n, 1 + 1/n, 1/n)]. *)
Definition uniform_edges_length (bin_num : Z) : option Z :=
  let step := div (of_int 1) (of_int bin_num) in
  arange_length step (add (of_int 1) step) step.

End Binary64.

(** ** IndexEnumerator: [Vegas.get_next_index] *)

Open Scope Z_scope.

(** [for i in range(len(indices)): indices[i] = (indices[i]+1) % limit;
    if indices[i]: return].  Python's [%] with a positive divisor is
    [Z.modulo].  Neither caller reaches the loop body with [limit = 0]. *)
Fixpoint get_next_index (indices : list Z) (limit : Z) : list Z :=
  match indices with
  | [] => []
  | x :: rest =>
      let x' := (x + 1) mod limit in
      if x' =? 0 then x' :: get_next_index rest limit else x' :: rest
  end.

(** [np.zeros(dimensions, dtype=int)] *)
Definition np_zeros_int (dimensions : nat) : list Z := repeat 0 dimensions.

(** [k] successive calls of [get_next_index]. *)
Definition advance (limit : Z) (k : nat) (indices : list Z) : list Z :=
  Nat.iter k (fun v => get_next_index v limit) indices.

(** The index vectors of [[0, limit)^dims]. *)
Definition valid_index (limit : Z) (dims : nat) (v : list Z) : Prop :=
  length v = dims /\ Forall (fun x => 0 <= x < limit) v.

(** The number a vector denotes, component 0 least significant. *)
Fixpoint index_value (limit : Z) (v : list Z) : Z :=
  match v with
  | [] => 0
  | x :: rest => x + limit * index_value limit rest
  end.

(** The vectors held after calls number [1 .. count]. *)
Definition visited (limit : Z) (dims count : nat) : list (list Z) :=
  map (fun k => advance limit k (np_zeros_int dims)) (seq 1 count).

(** ** numpy helpers *)

Open Scope Q_scope.

Definition table : Type := list (list Q).

(** Element-wise operation on two arrays of one shape. *)
Fixpoint map2 {A B C : Type} (f : A -> B -> C) (l1 : list A) (l2 : list B) : list C :=
  match l1, l2 with
  | a :: l1', b :: l2' => f a b :: map2 f l1' l2'
  | _, _ => []
  end.

Definition np_sum (l : list Q) : Q := fold_right Qplus 0 l.

Definition np_prod (l : list Q) : Q := fold_right Qmult 1 l.

Definition np_mean (l : list Q) : Q := np_sum l / inject_Z (Z.of_nat (length l)).

(** [np.var(l, ddof)]: the squared deviations are summed and divided by
    [len(l) - ddof]. *)
Definition np_var_ddof (ddof : Z) (l : list Q) : Q :=
  let arrmean := np_mean l in
  let x := map (fun a => a - arrmean) l in
  np_sum (map (fun a => a * a) x) / inject_Z (Z.of_nat (length l) - ddof).

(** [np.var(l)]: [ddof] defaults to 0. *)
Definition np_var (l : list Q) : Q := np_var_ddof 0 l.

(** The position an index denotes in an array of [len] entries: a negative
    index counts from the end. *)
Definition py_index (len : nat) (i : Z) : nat :=
  if (i <? 0)%Z then Z.to_nat (Z.of_nat len + i) else Z.to_nat i.

(** [l[i]].  Out of range (an IndexError in numpy, undefined in the Cython
    helper, which switches bounds checks off) reads as 0 here; the callers
    below stay in range. *)
Definition py_get (l : list Q) (i : Z) : Q := nth (py_index (length l) i) l 0.

Fixpoint list_set {A : Type} (l : list A) (i : nat) (v : A) : list A :=
  match l, i with
  | [], _ => []
  | _ :: t, O => v :: t
  | h :: t, S j => h :: list_set t j v
  end.

(** [l[i] = v] *)
Definition py_set (l : list Q) (i : Z) (v : Q) : list Q :=
  list_set l (py_index (length l) i) v.

(** [t[i, d]] *)
Definition at2 (t : table) (i : nat) (d : nat) : Q := nth i (nth d t []) 0.

(** [t.shape[0]]: the number of rows. *)
Definition shape0 (t : table) : nat := length (hd [] t).

(** ** RegionMapper: [_get_selected_region] *)

Definition _get_selected_region (total_region : list (Q * Q)) (bins : table)
    (indices : list Z) : list (Q * Q) :=
  let max_index := (Z.of_nat (shape0 bins) - 1)%Z in
  map (fun dim =>
         let region_dim := nth dim total_region (0, 0) in
         let tot_range := snd region_dim - fst region_dim in
         let index := nth dim indices 0%Z in
         let lower_index := if (index =? 0)%Z then max_index else (index - 1)%Z in
         let bins_dim := nth dim bins [] in
         (fst region_dim + py_get bins_dim lower_index * tot_range,
          fst region_dim + py_get bins_dim index * tot_range))
      (seq 0 (length indices)).

Definition cython_get_selected_region := _get_selected_region.

(** ** GridModel: [Vegas.resize_grid]

    In exact arithmetic; [Float64.resize_grid] below is the same function
    on binary64 numbers. *)

(** [mean[mean==0] = 1] *)
Definition guard_mean (mean : Q) : Q := if Qeq_bool mean 0 then 1 else mean.

(** The divisor of [rel_weights = 1/(alpha*mean+subintegrals)]. *)
Definition rel_divisor (alpha mean s : Q) : Q := alpha * mean + s.

(** One column of [rel_weights], before and after
    [rel_weights = rel_weights/np.sum(rel_weights, axis=0)]. *)
Definition rel_weights_raw (alpha : Q) (subintegrals : list Q) : list Q :=
  let mean := guard_mean (np_mean subintegrals) in
  map (fun s => 1 / rel_divisor alpha mean s) subintegrals.

Definition rel_weights (alpha : Q) (subintegrals : list Q) : list Q :=
  let rel := rel_weights_raw alpha subintegrals in
  map (fun r => r / np_sum rel) rel.

(** One column of [combined_weights], before and after its normalisation. *)
Definition combined_weights_raw (alpha : Q) (old_weights subintegrals : list Q) : list Q :=
  map2 Qmult old_weights (rel_weights alpha subintegrals).

Definition combined_weights (alpha : Q) (old_weights subintegrals : list Q) : list Q :=
  let combined := combined_weights_raw alpha old_weights subintegrals in
  map (fun c => c / np_sum combined) combined.

(** [for i, w in enumerate(combined_weights[:,dim]): grid[i,dim] = grid[i-1,dim] + w]
    on one column, from row [i] on.  The column is updated in place, so a
    row reads the row written just before it, and row 0 reads row [-1]. *)
Fixpoint resize_bins (i : nat) (ws : list Q) (grid_dim : list Q) : list Q :=
  match ws with
  | [] => grid_dim
  | w :: ws' =>
      resize_bins (S i) ws'
        (py_set grid_dim (Z.of_nat i) (py_get grid_dim (Z.of_nat i - 1) + w))
  end.

(** [for dim in range(dimensions)]: a weight column longer than the grid
    writes out of range, a missing weight column cannot be read.  The rows a
    raising call has already written are not kept: the caller loses the grid
    with the exception. *)
Fixpoint resize_columns (grid combined : table) : res table :=
  match grid with
  | [] => Ok []
  | grid_dim :: grid' =>
      match combined with
      | [] => Raise IndexError
      | ws :: combined' =>
          if (length ws <=? length grid_dim)%nat then
            match resize_columns grid' combined' with
            | Ok rest => Ok (resize_bins 0 ws grid_dim :: rest)
            | Raise e => Raise e
            end
          else Raise IndexError
      end
  end.

(** [old_weights] and [subintegrals] have one shape ([bin_num x Dim]). *)
Definition resize_grid (grid old_weights subintegrals : table) (alpha : Q)
  : res (table * table) :=
  if (0 <? length grid)%nat && (shape0 grid =? 0)%nat
  then Raise IndexError (* [grid[0,:]] of an array without rows *)
  else
    let combined := map2 (combined_weights alpha) old_weights subintegrals in
    match resize_columns grid combined with
    | Ok grid' => Ok (grid', combined)
    | Raise e => Raise e
    end.

(** ** The model object *)

Record Vegas : Type := mkVegas {
  region : list (Q * Q);      (* [self.region], one pair (lower, upper) per dimension *)
  dimensions : nat;           (* [self.dimensions] *)
  rand : nat;                 (* vectors drawn from [self.rand] so far *)
  bin_num : option Z;         (* [self.bin_num], unset before training *)
  bins : option table         (* [self.bins], unset before training *)
}.

(** [Vegas.__init__] *)
Definition init (region : list (Q * Q)) (rand : nat) : Vegas :=
  mkVegas region (length region) rand None None.

Definition get_selected_subregion (self : Vegas) (bins : table) (indices : list Z)
  : list (Q * Q) :=
  cython_get_selected_region (region self) bins indices.

(** [np.finfo(float).eps] *)
Definition eps : Q := 1 / inject_Z (2 ^ 52).

(** [np.arange((1/bin_num), 1 + (1/bin_num), 1/bin_num)]: as many entries as
    the binary64 computation says, entry [i] being [start + i * step]. *)
Definition uniform_edges (bin_num : Z) : res (list Q) :=
  let step := 1 / inject_Z bin_num in
  match Binary64.uniform_edges_length bin_num with
  | Some len =>
      Ok (map (fun i => step + inject_Z (Z.of_nat i) * step) (seq 0 (Z.to_nat len)))
  | None => Raise ValueError
  end.

(** [calls_per_bin] of the two phases. *)
Definition train_calls_per_bin (calls_per_epoch total_bins : Z) : Z :=
  Z.min (calls_per_epoch / total_bins) 2.

Definition integrate_calls_per_bin (number_of_calls total_bins : Z) : Z :=
  Z.max (number_of_calls / total_bins) 2.

Section Sampling.

(** [self.func] *)
Variable func : list Q -> Q.
(** [rand_rand k d]: the vector the [k]-th call [self.rand.rand(d)] returns. *)
Variable rand_rand : nat -> nat -> list Q.
(** [x ** 0.5] *)
Variable pow_half : Q -> Q.

(** [selected_zone[0,:] + rand_point*(selected_zone[1,:]-selected_zone[0,:])] *)
Definition sample_point (selected_zone : list (Q * Q)) (rand_point : list Q) : list Q :=
  map2 (fun z r => fst z + r * (snd z - fst z)) selected_zone rand_point.

(** [for step in range(calls_per_bin)], with [steps] iterations left;
    [post] is [np.abs] in training and the identity in integration. *)
Fixpoint sample_loop (post : Q -> Q) (dims : nat) (selected_zone : list (Q * Q))
    (volume : Q) (calls_per_bin : Z) (steps : nat) (acc : Q) (pos : nat) : Q * nat :=
  match steps with
  | O => (acc, pos)
  | S steps' =>
      let rand_point := rand_rand pos dims in
      let call_res := func (sample_point selected_zone rand_point) in
      sample_loop post dims selected_zone volume calls_per_bin steps'
        (acc + volume * post call_res / inject_Z calls_per_bin) (S pos)
  end.

(** [for i, j in zip(selected_bins, range(dimensions)): distrib[i,j] += mean_importance] *)
Fixpoint add_importance (distrib : table) (selected_bins : list Z) (mean_importance : Q)
  : table :=
  match distrib, selected_bins with
  | column :: distrib', i :: rest =>
      py_set column i (py_get column i + mean_importance)
      :: add_importance distrib' rest mean_importance
  | _, _ => distrib
  end.

Section Phases.

Variable self : Vegas.
Variable bins_ : table.
Variable bin_num_ : Z.
Variable dims : nat.
Variable calls_per_bin : Z.

Definition zone_volume (selected_zone : list (Q * Q)) : Q :=
  np_prod (map (fun z => snd z - fst z) selected_zone).

(** Body of [for _ in range(total_bins)] in [prepare_grid]. *)
Definition train_bin (st : table * list Z * nat) : table * list Z * nat :=
  let '(distrib, selected_bins, pos) := st in
  let selected_zone := get_selected_subregion self bins_ selected_bins in
  let volume := zone_volume selected_zone in
  let '(mean_importance, pos') :=
    sample_loop Qabs dims selected_zone volume calls_per_bin
      (Z.to_nat calls_per_bin) 0 pos in
  (add_importance distrib selected_bins mean_importance,
   get_next_index selected_bins bin_num_, pos').

(** Body of [for _ in range(total_bins)] in [integrate]. *)
Definition integrate_bin (st : Q * list Z * nat) : Q * list Z * nat :=
  let '(integral, selected_bins, pos) := st in
  let selected_zone := get_selected_subregion self bins_ selected_bins in
  let volume := zone_volume selected_zone in
  let '(little_integral, pos') :=
    sample_loop (fun call_res => call_res) dims selected_zone volume calls_per_bin
      (Z.to_nat calls_per_bin) 0 pos in
  (integral + little_integral, get_next_index selected_bins bin_num_, pos').

(** One pass of [for _ in range(times)]: one evaluation of the integral. *)
Definition evaluation (total_bins : Z) (pos : nat) : Q * nat :=
  let '(integral, _, pos') :=
    Nat.iter (Z.to_nat total_bins) integrate_bin (0, np_zeros_int dims, pos) in
  (integral, pos').

Fixpoint evaluations_loop (total_bins : Z) (times : nat) (evaluations : list Q)
    (pos : nat) : list Q * nat :=
  match times with
  | O => (evaluations, pos)
  | S times' =>
      let '(integral, pos') := evaluation total_bins pos in
      evaluations_loop total_bins times' (evaluations ++ [integral]) pos'
  end.

End Phases.

(** One pass of [for epoch in range(epochs)]. *)
Definition train_epoch (self : Vegas) (bin_num : Z) (dims : nat)
    (total_bins calls_per_bin : Z) (alpha : Q) (bins weights : table) (pos : nat)
  : res (table * table) * nat :=
  let selected_bins := np_zeros_int dims in
  let distrib := repeat (repeat 0 (Z.to_nat bin_num)) dims in
  let '(distrib, _, pos') :=
    Nat.iter (Z.to_nat total_bins) (train_bin self bins bin_num dims calls_per_bin)
      (distrib, selected_bins, pos) in
  (resize_grid bins weights distrib alpha, pos').

Fixpoint train_epochs (self : Vegas) (bin_num : Z) (dims : nat)
    (total_bins calls_per_bin : Z) (alpha : Q) (epochs : nat) (bins weights : table)
    (pos : nat) : res (table * table) * nat :=
  match epochs with
  | O => (Ok (bins, weights), pos)
  | S epochs' =>
      match train_epoch self bin_num dims total_bins calls_per_bin alpha bins weights pos with
      | (Ok (bins', weights'), pos') =>
          train_epochs self bin_num dims total_bins calls_per_bin alpha epochs'
            bins' weights' pos'
      | (Raise e, pos') => (Raise e, pos')
      end
  end.

Definition set_rand (self : Vegas) (pos : nat) : Vegas :=
  mkVegas (region self) (dimensions self) pos (bin_num self) (bins self).

(** The tables [prepare_grid] starts from: [vals] with the appended 0 in
    every column of [bins], [ws] in every column of [weights].  The column
    assignment [bins[:, dim] = vals] needs [vals] to have [bin_num + 1]
    entries (a one-entry [vals] would be broadcast, which takes an empty
    [np.arange]; it never is, as [stop > start] and [step > 0]). *)
Definition initial_tables (bin_num : Z) (dims : nat) : res (table * table) :=
  match uniform_edges bin_num with
  | Raise e => Raise e
  | Ok vals =>
      let vals := vals ++ [0] in
      let ws := repeat (1 / inject_Z bin_num) (Z.to_nat bin_num) in
      if (0 <? dims)%nat && negb (length vals =? Z.to_nat (bin_num + 1))%nat
      then Raise ValueError
      else Ok (repeat vals dims, repeat ws dims)
  end.

(** [Vegas.prepare_grid].  The result pairs the outcome with the object
    as the call leaves it.  A table of [2^53] rows or more cannot be
    allocated ([np.empty] for at least one dimension, [np.arange] always);
    whatever numpy raises there is shown as MemoryError.  Below that bound
    [bin_num] is a binary64 number, which [Binary64.of_int] relies on. *)
Definition prepare_grid (self : Vegas) (bins_per_dimension epochs calls_per_epoch : Z)
    (alpha : Q) : res unit * Vegas :=
  if Qle_bool alpha eps then (Raise (Exception "To low alpha"), self)
  else
    let bin_num := bins_per_dimension in
    let dims := length (region self) in
    if (bin_num <? 0)%Z then (Raise ValueError, self)        (* [np.empty], negative size *)
    else if (2 ^ 53 <=? bin_num)%Z then (Raise MemoryError, self) (* [np.empty], [np.arange] *)
    else if (bin_num =? 0)%Z then (Raise ZeroDivisionError, self) (* [1/bin_num] *)
    else
      match initial_tables bin_num dims with
      | Raise e => (Raise e, self)
      | Ok (bins, weights) =>
          let total_bins := (bin_num ^ Z.of_nat dims)%Z in
          let calls_per_bin := train_calls_per_bin calls_per_epoch total_bins in
          match train_epochs self bin_num dims total_bins calls_per_bin alpha
                  (Z.to_nat epochs) bins weights (rand self) with
          | (Raise e, pos) => (Raise e, set_rand self pos)
          | (Ok (bins, _), pos) =>
              (Ok tt, mkVegas (region self) dims pos (Some bin_num) (Some bins))
          end
      end.

(** [Vegas.integrate] *)
Definition integrate (self : Vegas) (times number_of_calls : Z)
  : res (Q * Q) * Vegas :=
  if (times <=? 0)%Z || (number_of_calls <=? 0)%Z
  then (Raise (Exception "Incorrect params"), self)
  else
    match bins self with
    | None => (Raise (AttributeError "bins"), self)
    | Some bins =>
        match bin_num self with
        | None => (Raise (AttributeError "bin_num"), self)
        | Some bin_num =>
            let dims := dimensions self in
            let total_bins := (bin_num ^ Z.of_nat dims)%Z in
            if (total_bins =? 0)%Z then (Raise ZeroDivisionError, self)
            else
              let calls_per_bin := integrate_calls_per_bin number_of_calls total_bins in
              let '(evaluations, pos) :=
                evaluations_loop self bins bin_num dims calls_per_bin total_bins
                  (Z.to_nat times) [] (rand self) in
              (Ok (np_mean evaluations, pow_half (np_var evaluations)),
               set_rand self pos)
        end
    end.

End Sampling.

(** ** Shapes and invariants the properties are stated with *)

(** A column of cumulative edges for [n] bins: [n] edges and the extra last
    row, which holds bin 0's lower edge. *)
Definition sentinel_zero (n : nat) (column : list Q) : Prop :=
  length column = S n /\ nth n column 0 == 0.

Definition edges_monotone (n : nat) (column : list Q) : Prop :=
  forall i j, (i <= j < n)%nat -> nth i column 0 <= nth j column 0.

Definition last_edge_one (n : nat) (column : list Q) : Prop :=
  nth (n - 1) column 0 == 1.

(** Edges as [get_selected_subregion] needs them. *)
Definition edges_in_unit (n : nat) (column : list Q) : Prop :=
  sentinel_zero n column
  /\ edges_monotone n column
  /\ (forall i, (i < n)%nat -> 0 <= nth i column 0 <= 1)
  /\ last_edge_one n column.

(** Edges as training leaves them. *)
Definition edges_trained (n : nat) (column : list Q) : Prop :=
  edges_monotone n column
  /\ (forall i, (i < n)%nat -> 0 < nth i column 0 <= 1)
  /\ last_edge_one n column.

(** A column of weights: positive, summing to 1. *)
Definition weights_ok (n : nat) (column : list Q) : Prop :=
  length column = n /\ Forall (fun w => 0 < w) column /\ np_sum column == 1.

(** The working state of training between two epochs. *)
Definition column_inv (n : nat) (column : list Q) : Prop :=
  length column = S n /\ nth n column 0 = 0 /\ edges_trained n column.

Definition tables_inv (n dims : nat) (bins weights : table) : Prop :=
  length bins = dims /\ length weights = dims
  /\ Forall (column_inv n) bins /\ Forall (weights_ok n) weights.

(** A number is a non-negative multiple of [p]. *)
Definition scaled (p x : Q) : Prop := exists c, 0 <= c /\ x == c * p.

(** The importance table inside an epoch: [n] rows per dimension, every
    entry a non-negative multiple of the region's volume. *)
Definition distrib_inv (self : Vegas) (n : nat) (distrib : table) : Prop :=
  length distrib = length (region self)
  /\ Forall (fun column =>
               length column = n
               /\ Forall (scaled (zone_volume (region self))) column)
            distrib.

(** ** The evaluation of [integrate] as a sum over the bins *)

(** The estimate of one bin: [calls_per_bin] points, drawn from position
    [pos] on, each weighing [volume * f(point) / calls_per_bin]. *)
Definition bin_estimate (func : list Q -> Q) (rand_rand : nat -> nat -> list Q)
    (self : Vegas) (bins : table) (dims : nat) (calls_per_bin : Z)
    (indices : list Z) (pos : nat) : Q :=
  let zone := get_selected_subregion self bins indices in
  np_sum (map (fun s =>
                 zone_volume zone
                 * func (sample_point zone (rand_rand (pos + s)%nat dims))
                 / inject_Z calls_per_bin)
              (seq 0 (Z.to_nat calls_per_bin))).

(** The sum of the estimates of all bins, bin [k] being the [k]-th index
    vector of the enumeration and drawing after the bins before it. *)
Definition evaluation_sum (func : list Q -> Q) (rand_rand : nat -> nat -> list Q)
    (self : Vegas) (bins : table) (bin_num : Z) (dims : nat) (calls_per_bin : Z)
    (total_bins : Z) (pos : nat) : Q :=
  np_sum (map (fun k =>
                 bin_estimate func rand_rand self bins dims calls_per_bin
                   (advance bin_num k (np_zeros_int dims))
                   (pos + k * Z.to_nat calls_per_bin)%nat)
              (seq 0 (Z.to_nat total_bins))).

(** The tables of a grid that is still uniform: every weight is
    [1 / bin_num], edge [k] is [(k + 1) / bin_num]. *)
Definition uniform_tables (bin_num : Z) (dims : nat) (bins weights : table) : Prop :=
  tables_inv (Z.to_nat bin_num) dims bins weights
  /\ Forall (Forall (fun x => x == 1 / inject_Z bin_num)) weights
  /\ Forall (fun column =>
               forall k, (k < Z.to_nat bin_num)%nat ->
                 nth k column 0 == inject_Z (Z.of_nat k + 1) / inject_Z bin_num)
            bins.

(** The side of bin [i] along dimension [d]: the difference of its two
    edges (the lower one of bin 0 being the last row) times the region's
    extent. *)
Definition bin_side (self : Vegas) (bins : table) (n d i : nat) : Q :=
  (nth i (nth d bins []) 0 - nth (match i with O => n | S j => j end) (nth d bins []) 0)
  * (snd (nth d (region self) (0, 0)) - fst (nth d (region self) (0, 0))).

(** ** Bin counts for which the start of training has the right size *)

(** The binary64 length of the start's [np.arange] is [bin_num]. *)
Definition start_length_ok (bin_num : Z) : bool :=
  match Binary64.uniform_edges_length bin_num with
  | Some len => (len =? bin_num)%Z
  | None => false
  end.

(** The bin counts up to 300 for which it is not. *)
Definition short_of_300 : list Z := [49; 103; 196; 206; 214; 237; 239; 249; 253]%Z.

(** ** The objects of the notebook's test cells *)

(** [grow(vect)]: [np.sum(vect)/4] *)
Definition grow (vect : list Q) : Q := np_sum vect / 4.

(** [rnd(vect)]: 1 when [np.sum((vect-1)*(vect-1)) < 1], else 0. *)
Definition rnd (vect : list Q) : Q :=
  if Qle_bool 1 (np_sum (map (fun v => (v - 1) * (v - 1)) vect)) then 0 else 1.

(** A generator that returns the centre of the unit cube at every call. *)
Definition centre_rand (k d : nat) : list Q := repeat (1 # 2) d.

(** Three Heron steps from 1: a rational stand-in for [x ** 0.5]. *)
Definition heron (x : Q) : Q :=
  let step := fun g => (g + x / g) / 2 in step (step (step 1)).

(** The object of the notebook's two-dimensional run, on [[0,2] x [0,2]],
    and its one-dimensional analogue. *)
Definition model2 : Vegas := init [(0, 2); (0, 2)] 0.
Definition model1 : Vegas := init [(0, 2)] 0.

(** [model1] with a two-bin uniform grid committed. *)
Definition trained1 : Vegas := mkVegas [(0, 2)] 1 0 (Some 2%Z) (Some [[1 # 2; 1; 0]]).

(** ** The grid computation in binary64

    [resize_grid], the region mapper and the training loop of
    [prepare_grid] once more, on binary64 numbers as numpy computes with
    them: every operation rounds to nearest, ties to even; a result too
    large is inf, one too small a subnormal or 0; a division by zero gives
    inf or nan and the call goes on (numpy warns, it does not raise).
    Python [int]s that meet a float ([bin_num], [calls_per_bin], the
    literals 0 and 1) are converted first, which is exact below [2^53].
    The integrand returns a float. *)

Module Float64.

Definition float : Type := spec_float.
Definition ftable : Type := list (list float).

Definition add : float -> float -> float := Binary64.add.
Definition sub : float -> float -> float := Binary64.sub.
Definition mul : float -> float -> float := SFmul Binary64.prec Binary64.emax.
Definition div : float -> float -> float := Binary64.div.
Definition abs : float -> float := SFabs.

(** [x == y], [x < y], [x <= y]: false as soon as one side is nan. *)
Definition eqb : float -> float -> bool := SFeqb.
Definition ltb : float -> float -> bool := SFltb.
Definition leb : float -> float -> bool := SFleb.

Definition of_int : Z -> float := Binary64.of_int.

(** [m * 2.0**e], rounded to binary64. *)
Definition of_pow2 (m e : Z) : float :=
  binary_normalize Binary64.prec Binary64.emax m e false.

Definition zero : float := S754_zero false.
Definition one : float := of_int 1.
Definition nan : float := S754_nan.

(** [np.sum] and [np.prod] of a column: the entries are taken in order,
    onto the first.  (numpy adds long columns in blocks; columns of one or
    two entries, the only ones evaluated below, leave no choice.) *)
Definition np_sum (l : list float) : float :=
  match l with
  | [] => zero
  | x :: rest => fold_left add rest x
  end.

Definition np_prod (l : list float) : float :=
  match l with
  | [] => one
  | x :: rest => fold_left mul rest x
  end.

(** [np.mean]: the sum divided by the number of entries. *)
Definition np_mean (l : list float) : float :=
  div (np_sum l) (of_int (Z.of_nat (length l))).

Definition py_get (l : list float) (i : Z) : float := nth (py_index (length l) i) l zero.

Definition py_set (l : list float) (i : Z) (v : float) : list float :=
  list_set l (py_index (length l) i) v.

Definition shape0 (t : ftable) : nat := length (hd [] t).

(** [_get_selected_region]: a product, then a sum, each rounded. *)
Definition _get_selected_region (total_region : list (float * float)) (bins : ftable)
    (indices : list Z) : list (float * float) :=
  let max_index := (Z.of_nat (shape0 bins) - 1)%Z in
  map (fun dim =>
         let region_dim := nth dim total_region (zero, zero) in
         let tot_range := sub (snd region_dim) (fst region_dim) in
         let index := nth dim indices 0%Z in
         let lower_index := if (index =? 0)%Z then max_index else (index - 1)%Z in
         let bins_dim := nth dim bins [] in
         (add (fst region_dim) (mul (py_get bins_dim lower_index) tot_range),
          add (fst region_dim) (mul (py_get bins_dim index) tot_range)))
      (seq 0 (length indices)).

(** [mean[mean==0] = 1]: only a mean that compares equal to 0 is replaced. *)
Definition guard_mean (mean : float) : float := if eqb mean zero then one else mean.

(** [rel_weights = 1/(alpha*mean+subintegrals)], one column. *)
Definition rel_weights_raw (alpha : float) (subintegrals : list float) : list float :=
  let mean := guard_mean (np_mean subintegrals) in
  map (fun s => div one (add (mul alpha mean) s)) subintegrals.

(** [rel_weights = rel_weights/np.sum(rel_weights, axis=0)] *)
Definition rel_weights (alpha : float) (subintegrals : list float) : list float :=
  let rel := rel_weights_raw alpha subintegrals in
  map (fun r => div r (np_sum rel)) rel.

(** [combined_weights = old_weights * rel_weights] *)
Definition combined_weights_raw (alpha : float) (old_weights subintegrals : list float)
  : list float :=
  map2 mul old_weights (rel_weights alpha subintegrals).

(** [combined_weights = combined_weights / np.sum(combined_weights, axis=0)] *)
Definition combined_weights (alpha : float) (old_weights subintegrals : list float)
  : list float :=
  let combined := combined_weights_raw alpha old_weights subintegrals in
  map (fun c => div c (np_sum combined)) combined.

(** [for i, w in enumerate(combined_weights[:,dim]): grid[i,dim] = grid[i-1,dim] + w] *)
Fixpoint resize_bins (i : nat) (ws : list float) (grid_dim : list float) : list float :=
  match ws with
  | [] => grid_dim
  | w :: ws' =>
      resize_bins (S i) ws'
        (py_set grid_dim (Z.of_nat i) (add (py_get grid_dim (Z.of_nat i - 1)) w))
  end.

Fixpoint resize_columns (grid combined : ftable) : res ftable :=
  match grid with
  | [] => Ok []
  | grid_dim :: grid' =>
      match combined with
      | [] => Raise IndexError
      | ws :: combined' =>
          if (length ws <=? length grid_dim)%nat then
            match resize_columns grid' combined' with
            | Ok rest => Ok (resize_bins 0 ws grid_dim :: rest)
            | Raise e => Raise e
            end
          else Raise IndexError
      end
  end.

(** [Vegas.resize_grid] *)
Definition resize_grid (grid old_weights subintegrals : ftable) (alpha : float)
  : res (ftable * ftable) :=
  if (0 <? length grid)%nat && (shape0 grid =? 0)%nat
  then Raise IndexError
  else
    let combined := map2 (combined_weights alpha) old_weights subintegrals in
    match resize_columns grid combined with
    | Ok grid' => Ok (grid', combined)
    | Raise e => Raise e
    end.

(** [np.finfo(float).eps] *)
Definition eps : float := of_pow2 1 (-52).

(** [np.arange(start, stop, step)]: entry 0 is [start], entry 1 is
    [start + step], and entry [i] from 2 on is [start + i*delta] with
    [delta = (start + step) - start]. *)
Definition arange (start stop step : float) : res (list float) :=
  match Binary64.arange_length start stop step with
  | Some len =>
      let next := add start step in
      let delta := sub next start in
      Ok (map (fun i =>
                 match i with
                 | O => start
                 | S O => next
                 | _ => add start (mul (of_int (Z.of_nat i)) delta)
                 end)
              (seq 0 (Z.to_nat len)))
  | None => Raise ValueError
  end.

(** [np.arange((1/bin_num), 1 + (1/bin_num), 1/bin_num)] *)
Definition uniform_edges (bin_num : Z) : res (list float) :=
  let step := div (of_int 1) (of_int bin_num) in
  arange step (add (of_int 1) step) step.

Definition initial_tables (bin_num : Z) (dims : nat) : res (ftable * ftable) :=
  match uniform_edges bin_num with
  | Raise e => Raise e
  | Ok vals =>
      let vals := vals ++ [zero] in
      let ws := repeat (div one (of_int bin_num)) (Z.to_nat bin_num) in
      if (0 <? dims)%nat && negb (length vals =? Z.to_nat (bin_num + 1))%nat
      then Raise ValueError
      else Ok (repeat vals dims, repeat ws dims)
  end.

Section Training.

(** [self.func], [self.rand.rand] and [self.region] *)
Variable func : list float -> float.
Variable rand_rand : nat -> nat -> list float.
Variable region : list (float * float).

Definition sample_point (selected_zone : list (float * float)) (rand_point : list float)
  : list float :=
  map2 (fun z r => add (fst z) (mul r (sub (snd z) (fst z)))) selected_zone rand_point.

Definition zone_volume (selected_zone : list (float * float)) : float :=
  np_prod (map (fun z => sub (snd z) (fst z)) selected_zone).

(** [mean_importance += volume * np.abs(call_res) / calls_per_bin] *)
Fixpoint sample_loop (dims : nat) (selected_zone : list (float * float))
    (volume : float) (calls_per_bin : Z) (steps : nat) (acc : float) (pos : nat)
  : float * nat :=
  match steps with
  | O => (acc, pos)
  | S steps' =>
      let rand_point := rand_rand pos dims in
      let call_res := func (sample_point selected_zone rand_point) in
      sample_loop dims selected_zone volume calls_per_bin steps'
        (add acc (div (mul volume (abs call_res)) (of_int calls_per_bin))) (S pos)
  end.

Fixpoint add_importance (distrib : ftable) (selected_bins : list Z)
    (mean_importance : float) : ftable :=
  match distrib, selected_bins with
  | column :: distrib', i :: rest =>
      py_set column i (add (py_get column i) mean_importance)
      :: add_importance distrib' rest mean_importance
  | _, _ => distrib
  end.

Definition train_bin (bins : ftable) (bin_num : Z) (dims : nat) (calls_per_bin : Z)
    (st : ftable * list Z * nat) : ftable * list Z * nat :=
  let '(distrib, selected_bins, pos) := st in
  let selected_zone := _get_selected_region region bins selected_bins in
  let volume := zone_volume selected_zone in
  let '(mean_importance, pos') :=
    sample_loop dims selected_zone volume calls_per_bin (Z.to_nat calls_per_bin) zero pos in
  (add_importance distrib selected_bins mean_importance,
   get_next_index selected_bins bin_num, pos').

Definition train_epoch (bin_num : Z) (dims : nat) (total_bins calls_per_bin : Z)
    (alpha : float) (bins weights : ftable) (pos : nat) : res (ftable * ftable) * nat :=
  let selected_bins := np_zeros_int dims in
  let distrib := repeat (repeat zero (Z.to_nat bin_num)) dims in
  let '(distrib, _, pos') :=
    Nat.iter (Z.to_nat total_bins) (train_bin bins bin_num dims calls_per_bin)
      (distrib, selected_bins, pos) in
  (resize_grid bins weights distrib alpha, pos').

Fixpoint train_epochs (bin_num : Z) (dims : nat) (total_bins calls_per_bin : Z)
    (alpha : float) (epochs : nat) (bins weights : ftable) (pos : nat)
  : res (ftable * ftable) * nat :=
  match epochs with
  | O => (Ok (bins, weights), pos)
  | S epochs' =>
      match train_epoch bin_num dims total_bins calls_per_bin alpha bins weights pos with
      | (Ok (bins', weights'), pos') =>
          train_epochs bin_num dims total_bins calls_per_bin alpha epochs' bins' weights' pos'
      | (Raise e, pos') => (Raise e, pos')
      end
  end.

(** [Vegas.prepare_grid] from generator position [pos]: the outcome, with
    the table the call leaves in [self.bins], and the position after it. *)
Definition prepare_grid (pos : nat) (bins_per_dimension epochs calls_per_epoch : Z)
    (alpha : float) : res ftable * nat :=
  if leb alpha eps then (Raise (Exception "To low alpha"), pos)
  else
    let bin_num := bins_per_dimension in
    let dims := length region in
    if (bin_num <? 0)%Z then (Raise ValueError, pos)
    else if (2 ^ 53 <=? bin_num)%Z then (Raise MemoryError, pos)
    else if (bin_num =? 0)%Z then (Raise ZeroDivisionError, pos)
    else
      match initial_tables bin_num dims with
      | Raise e => (Raise e, pos)
      | Ok (bins, weights) =>
          let total_bins := (bin_num ^ Z.of_nat dims)%Z in
          let calls_per_bin := Z.min (calls_per_epoch / total_bins) 2 in
          match train_epochs bin_num dims total_bins calls_per_bin alpha
                  (Z.to_nat epochs) bins weights pos with
          | (Raise e, pos') => (Raise e, pos')
          | (Ok (bins, _), pos') => (Ok bins, pos')
          end
      end.

End Training.

(** [abs(x - y) <= tol] *)
Definition close (tol x y : float) : bool := leb (abs (sub x y)) tol.

Fixpoint non_decreasing (l : list float) : bool :=
  match l with
  | x :: (y :: _) as rest => leb x y && non_decreasing rest
  | _ => true
  end.

(** The [n] edges of a column are positive, non-decreasing and at most 1,
    and the last one is 1, all within [tol]. *)
Definition edges_ok (tol : float) (n : nat) (column : list float) : bool :=
  let edges := firstn n column in
  forallb (fun e => ltb zero e) edges
  && non_decreasing edges
  && forallb (fun e => leb e (add one tol)) edges
  && close tol (nth (n - 1) column zero) one.

(** A column of weights sums to 1 within [tol]. *)
Definition sums_to_one (tol : float) (column : list float) : bool :=
  close tol (np_sum column) one.

(** [lambda v: 1.0 if v[0] < 1 else 0.0] *)
Definition step_integrand (vect : list float) : float :=
  if ltb (nth 0 vect zero) one then one else zero.

(** A generator that returns the centre of the unit cube at every call. *)
Definition centre_rand (k d : nat) : list float := repeat (of_pow2 1 (-1)) d.

End Float64.

(** * Properties *)

(** ** IndexEnumerator *)

Open Scope Z_scope.

Section IndexEnumerator.

Variable limit : Z.
Hypothesis limit_pos : 1 <= limit.

Lemma valid_index_cons x v dims :
  valid_index limit (S dims) (x :: v) <-> 0 <= x < limit /\ valid_index limit dims v.
Proof.
  unfold valid_index; simpl; split.
  - intros [Hl Hf]. inversion Hf; subst. repeat split; auto; lia.
  - intros [Hx [Hl Hf]]. split; [ lia | constructor; auto ].
Qed.

Lemma valid_index_zeros dims : valid_index limit dims (np_zeros_int dims).
Proof.
  unfold valid_index, np_zeros_int. split.
  - apply repeat_length.
  - apply Forall_forall. intros x Hx. apply repeat_spec in Hx. lia.
Qed.

Lemma index_value_zeros dims : index_value limit (np_zeros_int dims) = 0.
Proof.
  unfold np_zeros_int. induction dims as [|d IH]; simpl; [ reflexivity | ].
  rewrite IH. lia.
Qed.

Lemma index_value_bound dims v :
  valid_index limit dims v -> 0 <= index_value limit v < limit ^ Z.of_nat dims.
Proof.
  revert v. induction dims as [|d IH]; intros v Hv.
  - destruct Hv as [Hl _]. destruct v; [ simpl; lia | discriminate ].
  - destruct v as [|x v]; [ destruct Hv; discriminate | ].
    apply valid_index_cons in Hv. destruct Hv as [Hx Hv].
    specialize (IH v Hv). simpl index_value.
    rewrite Nat2Z.inj_succ, Z.pow_succ_r by lia. nia.
Qed.

Lemma index_value_inj dims v w :
  valid_index limit dims v -> valid_index limit dims w ->
  index_value limit v = index_value limit w -> v = w.
Proof.
  revert v w. induction dims as [|d IH]; intros v w Hv Hw E.
  - destruct Hv as [Hv _], Hw as [Hw _].
    destruct v, w; try discriminate; reflexivity.
  - destruct v as [|x v]; [ destruct Hv; discriminate | ].
    destruct w as [|y w]; [ destruct Hw; discriminate | ].
    apply valid_index_cons in Hv. apply valid_index_cons in Hw.
    destruct Hv as [Hx Hv], Hw as [Hy Hw]. simpl in E.
    assert (index_value limit v = index_value limit w) as E'.
    { destruct (Z.lt_total (index_value limit v) (index_value limit w)) as [L|[L|L]];
        [ nia | exact L | nia ]. }
    rewrite E' in E. f_equal; [ lia | eapply IH; eauto ].
Qed.

Lemma get_next_index_valid dims v :
  valid_index limit dims v -> valid_index limit dims (get_next_index v limit).
Proof.
  revert v. induction dims as [|d IH]; intros v Hv.
  - destruct Hv as [Hl Hf]. destruct v; [ split; auto | discriminate ].
  - destruct v as [|x v]; [ destruct Hv; discriminate | ].
    apply valid_index_cons in Hv. destruct Hv as [Hx Hv]. simpl.
    pose proof (Z.mod_pos_bound (x + 1) limit ltac:(lia)) as Hm.
    destruct ((x + 1) mod limit =? 0); apply valid_index_cons; split; auto.
Qed.

(** One call adds one to the denoted number, modulo [limit ^ dims]. *)
Lemma get_next_index_value dims v :
  valid_index limit dims v ->
  index_value limit (get_next_index v limit)
  = (index_value limit v + 1) mod limit ^ Z.of_nat dims.
Proof.
  revert v. induction dims as [|d IH]; intros v Hv.
  - destruct Hv as [Hl _]. destruct v; [ reflexivity | discriminate ].
  - destruct v as [|x v]; [ destruct Hv; discriminate | ].
    apply valid_index_cons in Hv. destruct Hv as [Hx Hv].
    pose proof (index_value_bound d v Hv) as Hb.
    rewrite Nat2Z.inj_succ, Z.pow_succ_r by lia. simpl.
    destruct (Z.eq_dec (x + 1) limit) as [E|NE].
    + replace ((x + 1) mod limit) with 0 by (rewrite E, Z.mod_same; lia).
      simpl. rewrite (IH v Hv).
      replace (x + limit * index_value limit v + 1)
        with (limit * (index_value limit v + 1)) by lia.
      rewrite Z.mul_mod_distr_l by lia. lia.
    + rewrite (Z.mod_small (x + 1) limit) by lia.
      destruct (x + 1 =? 0) eqn:E0; [ lia | ]. simpl.
      rewrite Z.mod_small; [ lia | nia ].
Qed.

Lemma advance_succ k v :
  advance limit (S k) v = get_next_index (advance limit k v) limit.
Proof. reflexivity. Qed.

Lemma advance_valid dims k :
  valid_index limit dims (advance limit k (np_zeros_int dims)).
Proof.
  induction k as [|k IH].
  - apply valid_index_zeros.
  - rewrite advance_succ. apply get_next_index_valid, IH.
Qed.

Lemma advance_value dims k :
  index_value limit (advance limit k (np_zeros_int dims))
  = Z.of_nat k mod limit ^ Z.of_nat dims.
Proof.
  assert (0 < limit ^ Z.of_nat dims) as Hp by (apply Z.pow_pos_nonneg; lia).
  induction k as [|k IH].
  - simpl. rewrite index_value_zeros, Z.mod_0_l; lia.
  - rewrite advance_succ, (get_next_index_value _ _ (advance_valid dims k)), IH.
    rewrite Nat2Z.inj_succ, Z.add_mod_idemp_l by lia. f_equal; lia.
Qed.

End IndexEnumerator.

Lemma advance_inj limit dims j k :
  1 <= limit ->
  (j < Z.to_nat (limit ^ Z.of_nat dims))%nat ->
  (k < Z.to_nat (limit ^ Z.of_nat dims))%nat ->
  advance limit j (np_zeros_int dims) = advance limit k (np_zeros_int dims) ->
  j = k.
Proof.
  intros Hl Hj Hk E.
  assert (0 < limit ^ Z.of_nat dims) as Hp by (apply Z.pow_pos_nonneg; lia).
  apply (f_equal (index_value limit)) in E.
  rewrite !advance_value in E by assumption.
  rewrite !Z.mod_small in E by lia. lia.
Qed.

Lemma NoDup_map_on {A B : Type} (f : A -> B) (l : list A) :
  (forall x y, In x l -> In y l -> f x = f y -> x = y) ->
  NoDup l -> NoDup (map f l).
Proof.
  intros Hinj Hnd. induction Hnd as [|a l Hnot Hnd IH]; simpl.
  - constructor.
  - constructor.
    + intros Hin. apply in_map_iff in Hin. destruct Hin as [b [E Hb]].
      assert (b = a) by (apply Hinj; simpl; auto). subst b. contradiction.
    + apply IH. intros x y Hx Hy. apply Hinj; simpl; auto.
Qed.

(** C3.  From the all-zero vector, [limit ^ dims] calls of [get_next_index]
    come back to the all-zero vector, and no smaller positive number of calls
    does; the vectors held after those calls are pairwise different and are
    exactly the vectors of [[0, limit)^dims]; no two of the first
    [limit ^ dims] states coincide; and a call is the little-endian
    mixed-radix increment: component 0 is incremented modulo [limit], the
    carry goes on to the next component only when it wrapped to 0, so the
    denoted number grows by one modulo [limit ^ dims]. *)
Theorem get_next_index_cycle (limit : Z) (dims : nat) :
  1 <= limit ->
  let total := Z.to_nat (limit ^ Z.of_nat dims) in
  let zero := np_zeros_int dims in
  advance limit total zero = zero
  /\ (forall k, (0 < k < total)%nat -> advance limit k zero <> zero)
  /\ NoDup (visited limit dims total)
  /\ (forall v, In v (visited limit dims total) <-> valid_index limit dims v)
  /\ (forall j k, (j < k < total)%nat -> advance limit j zero <> advance limit k zero)
  /\ (forall x rest,
        get_next_index (x :: rest) limit
        = if (x + 1) mod limit =? 0
          then 0 :: get_next_index rest limit
          else (x + 1) mod limit :: rest)
  /\ (forall v, valid_index limit dims v ->
        index_value limit (get_next_index v limit)
        = (index_value limit v + 1) mod limit ^ Z.of_nat dims).
Proof.
  intros Hl total zero.
  assert (0 < limit ^ Z.of_nat dims) as Hp by (apply Z.pow_pos_nonneg; lia).
  assert (Z.of_nat total = limit ^ Z.of_nat dims) as Ht by (unfold total; lia).
  assert (advance limit total zero = zero) as Hcycle.
  { apply (index_value_inj limit Hl dims); auto.
    - apply advance_valid; auto.
    - apply valid_index_zeros; auto.
    - unfold zero. rewrite advance_value, index_value_zeros by assumption.
      rewrite Ht. apply Z.mod_same. lia. }
  assert (forall k, (0 < k < total)%nat -> advance limit k zero <> zero) as Hfirst.
  { intros k Hk E. apply (f_equal (index_value limit)) in E. unfold zero in E.
    rewrite advance_value, index_value_zeros in E by assumption.
    rewrite Z.mod_small in E by lia. lia. }
  split; [ exact Hcycle | ]. split; [ exact Hfirst | ].
  split; [ | split; [ | split; [ | split ] ] ].
  - unfold visited. apply NoDup_map_on; [ | apply seq_NoDup ].
    intros x y Hx Hy E. apply in_seq in Hx. apply in_seq in Hy.
    destruct (Nat.eq_dec x total) as [Ex|Nx]; destruct (Nat.eq_dec y total) as [Ey|Ny];
      try lia.
    + subst x. fold zero in E. rewrite Hcycle in E.
      exfalso. apply (Hfirst y); [ lia | auto ].
    + subst y. fold zero in E. rewrite Hcycle in E.
      exfalso. apply (Hfirst x); [ lia | auto ].
    + apply (advance_inj limit dims _ _ Hl); auto; fold total; lia.
  - intros v. unfold visited. split.
    + intros Hin. apply in_map_iff in Hin.
      destruct Hin as [k [E _]]. subst v. apply advance_valid; auto.
    + intros Hv. apply in_map_iff.
      pose proof (index_value_bound limit Hl dims v Hv) as Hb.
      destruct (Z.eq_dec (index_value limit v) 0) as [E0|N0].
      * exists total. split; [ | apply in_seq; lia ].
        fold zero. rewrite Hcycle.
        apply (index_value_inj limit Hl dims); auto.
        -- apply valid_index_zeros; auto.
        -- unfold zero. rewrite index_value_zeros; auto.
      * exists (Z.to_nat (index_value limit v)). split; [ | apply in_seq; lia ].
        apply (index_value_inj limit Hl dims); auto.
        -- apply advance_valid; auto.
        -- rewrite advance_value by assumption. rewrite Z.mod_small; lia.
  - intros j k Hjk E. apply (advance_inj limit dims _ _ Hl) in E; fold total; lia.
  - intros x rest. simpl. destruct ((x + 1) mod limit =? 0) eqn:E; [ | reflexivity ].
    apply Z.eqb_eq in E. rewrite E. reflexivity.
  - intros v Hv. apply get_next_index_value; auto.
Qed.

Lemma get_next_index_cycle_witness :
  1 <= 3 /\ advance 3 (Z.to_nat (3 ^ Z.of_nat 2)) (np_zeros_int 2) = np_zeros_int 2.
Proof.
  split; [ lia | ].
  exact (proj1 (get_next_index_cycle 3 2 ltac:(lia))).
Defined.

(** ** How many vectors the two phases draw *)

Section Draws.

Variable func : list Q -> Q.
Variable rand_rand : nat -> nat -> list Q.

Lemma sample_loop_pos post dims zone volume cpb steps acc pos :
  snd (sample_loop func rand_rand post dims zone volume cpb steps acc pos)
  = (pos + steps)%nat.
Proof.
  revert acc pos. induction steps as [|n IH]; intros acc pos; simpl.
  - lia.
  - rewrite IH. lia.
Qed.

Lemma train_bin_pos self bins bin_num dims cpb st :
  snd (train_bin func rand_rand self bins bin_num dims cpb st)
  = (snd st + Z.to_nat cpb)%nat.
Proof.
  destruct st as [[distrib selected] pos]. unfold train_bin.
  match goal with
  | |- context [sample_loop ?f ?r ?p ?d ?z ?v ?c ?s ?a ?q] =>
      pose proof (sample_loop_pos p d z v c s a q) as H;
      destruct (sample_loop f r p d z v c s a q) as [mi pos']
  end.
  simpl in *. exact H.
Qed.

Lemma integrate_bin_pos self bins bin_num dims cpb st :
  snd (integrate_bin func rand_rand self bins bin_num dims cpb st)
  = (snd st + Z.to_nat cpb)%nat.
Proof.
  destruct st as [[integral selected] pos]. unfold integrate_bin.
  match goal with
  | |- context [sample_loop ?f ?r ?p ?d ?z ?v ?c ?s ?a ?q] =>
      pose proof (sample_loop_pos p d z v c s a q) as H;
      destruct (sample_loop f r p d z v c s a q) as [li pos']
  end.
  simpl in *. exact H.
Qed.

Lemma iter_pos {S : Type} (step : S * nat -> S * nat) (c : nat) :
  (forall st, snd (step st) = (snd st + c)%nat) ->
  forall n st, snd (Nat.iter n step st) = (snd st + n * c)%nat.
Proof.
  intros Hstep n st. induction n as [|n IH]; simpl.
  - lia.
  - rewrite Hstep, IH. lia.
Qed.

Lemma train_epoch_pos self bin_num dims total_bins cpb alpha bins weights pos :
  snd (train_epoch func rand_rand self bin_num dims total_bins cpb alpha bins weights pos)
  = (pos + Z.to_nat total_bins * Z.to_nat cpb)%nat.
Proof.
  unfold train_epoch.
  match goal with
  | |- context [Nat.iter ?n ?f ?s] =>
      pose proof (iter_pos f (Z.to_nat cpb)
                    (train_bin_pos self bins bin_num dims cpb) n s) as H;
      destruct (Nat.iter n f s) as [[distrib selected] pos']
  end.
  simpl in *. exact H.
Qed.

Lemma train_epochs_pos self bin_num dims total_bins cpb alpha epochs :
  forall bins weights pos r pos',
    train_epochs func rand_rand self bin_num dims total_bins cpb alpha epochs
      bins weights pos = (Ok r, pos') ->
    pos' = (pos + epochs * (Z.to_nat total_bins * Z.to_nat cpb))%nat.
Proof.
  induction epochs as [|n IH]; intros bins weights pos r pos' E; simpl in E.
  - inversion E. lia.
  - pose proof (train_epoch_pos self bin_num dims total_bins cpb alpha bins weights pos) as Hp.
    destruct (train_epoch func rand_rand self bin_num dims total_bins cpb alpha
                bins weights pos) as [[[b w]|e] p]; [ | discriminate ].
    simpl in Hp. apply IH in E. lia.
Qed.

Lemma evaluation_pos self bins bin_num dims cpb total_bins pos :
  snd (evaluation func rand_rand self bins bin_num dims cpb total_bins pos)
  = (pos + Z.to_nat total_bins * Z.to_nat cpb)%nat.
Proof.
  unfold evaluation.
  match goal with
  | |- context [Nat.iter ?n ?f ?s] =>
      pose proof (iter_pos f (Z.to_nat cpb)
                    (integrate_bin_pos self bins bin_num dims cpb) n s) as H;
      destruct (Nat.iter n f s) as [[integral selected] pos']
  end.
  simpl in *. exact H.
Qed.

Lemma evaluations_loop_spec self bins bin_num dims cpb total_bins times :
  forall evaluations pos,
    let r := evaluations_loop func rand_rand self bins bin_num dims cpb total_bins
               times evaluations pos in
    length (fst r) = (length evaluations + times)%nat
    /\ snd r = (pos + times * (Z.to_nat total_bins * Z.to_nat cpb))%nat.
Proof.
  induction times as [|n IH]; intros evaluations pos; simpl.
  - split; lia.
  - pose proof (evaluation_pos self bins bin_num dims cpb total_bins pos) as Hp.
    destruct (evaluation func rand_rand self bins bin_num dims cpb total_bins pos)
      as [integral p]. simpl in Hp.
    specialize (IH (evaluations ++ [integral]) p). simpl in IH.
    rewrite length_app in IH. simpl in IH. destruct IH as [IH1 IH2].
    split; lia.
Qed.

End Draws.

(** ** What a completed call went through *)

Open Scope Q_scope.

Lemma prepare_grid_ok_inv func rand_rand self n epochs cpe alpha :
  fst (prepare_grid func rand_rand self n epochs cpe alpha) = Ok tt ->
  eps < alpha /\ (1 <= n < 2 ^ 53)%Z /\
  exists b0 w0 b w pos,
    initial_tables n (length (region self)) = Ok (b0, w0)
    /\ train_epochs func rand_rand self n (length (region self))
         (n ^ Z.of_nat (length (region self)))
         (train_calls_per_bin cpe (n ^ Z.of_nat (length (region self)))) alpha
         (Z.to_nat epochs) b0 w0 (rand self) = (Ok (b, w), pos)
    /\ snd (prepare_grid func rand_rand self n epochs cpe alpha)
       = mkVegas (region self) (length (region self)) pos (Some n) (Some b).
Proof.
  unfold prepare_grid.
  destruct (Qle_bool alpha eps) eqn:Ea; [ discriminate | ].
  destruct (n <? 0)%Z eqn:En; [ discriminate | ].
  destruct (2 ^ 53 <=? n)%Z eqn:Em; [ discriminate | ].
  destruct (n =? 0)%Z eqn:Ez; [ discriminate | ].
  destruct (initial_tables n (length (region self))) as [[b0 w0]|e]; [ | discriminate ].
  destruct (train_epochs _ _ _ _ _ _ _ _ _ _ _ _) as [[[b w]|e] pos] eqn:Et;
    [ | discriminate ].
  intros _. split; [ | split ].
  - apply Qnot_le_lt. intros Hle. apply Qle_bool_iff in Hle. congruence.
  - lia.
  - exists b0, w0, b, w, pos. auto.
Qed.

Lemma integrate_ok_inv func rand_rand pow_half self times num r :
  fst (integrate func rand_rand pow_half self times num) = Ok r ->
  (0 < times)%Z /\ (0 < num)%Z /\
  exists b bn,
    bins self = Some b /\ bin_num self = Some bn
    /\ (bn ^ Z.of_nat (dimensions self) <> 0)%Z
    /\ let total_bins := (bn ^ Z.of_nat (dimensions self))%Z in
       let cpb := integrate_calls_per_bin num total_bins in
       let loop := evaluations_loop func rand_rand self b bn (dimensions self) cpb
                     total_bins (Z.to_nat times) [] (rand self) in
       r = (np_mean (fst loop), pow_half (np_var (fst loop)))
       /\ snd (integrate func rand_rand pow_half self times num)
          = set_rand self (snd loop).
Proof.
  unfold integrate.
  destruct ((times <=? 0)%Z || (num <=? 0)%Z) eqn:Ep; [ discriminate | ].
  apply orb_false_iff in Ep. destruct Ep as [Et En].
  destruct (bins self) as [b|]; [ | discriminate ].
  destruct (bin_num self) as [bn|]; [ | discriminate ].
  destruct (bn ^ Z.of_nat (dimensions self) =? 0)%Z eqn:Ez; [ discriminate | ].
  destruct (evaluations_loop _ _ _ _ _ _ _ _ _ _ _) as [evaluations pos] eqn:El.
  simpl. intros E. inversion E; subst r.
  split; [ lia | ]. split; [ lia | ].
  exists b, bn. split; [ reflexivity | ]. split; [ reflexivity | ].
  split; [ lia | ]. simpl. rewrite El. simpl. split; reflexivity.
Qed.

(** ** Validation and preconditions *)

Lemma prepare_grid_low_alpha func rand_rand self n epochs cpe alpha :
  alpha <= eps ->
  prepare_grid func rand_rand self n epochs cpe alpha
  = (Raise (Exception "To low alpha"), self).
Proof.
  intros Ha. unfold prepare_grid. apply Qle_bool_iff in Ha. rewrite Ha. reflexivity.
Qed.

Lemma integrate_invalid_params func rand_rand pow_half self times num :
  (times <= 0 \/ num <= 0)%Z ->
  integrate func rand_rand pow_half self times num
  = (Raise (Exception "Incorrect params"), self).
Proof.
  intros H. unfold integrate.
  replace ((times <=? 0)%Z || (num <=? 0)%Z) with true; [ reflexivity | ].
  symmetry. apply orb_true_iff. destruct H; [ left | right ]; apply Z.leb_le; auto.
Qed.

(** C7.  A call of [prepare_grid] with [alpha <= eps], and a call of
    [integrate] with [times <= 0] or [number_of_calls <= 0], raises the
    exception of the parameter check and leaves the object, the position in
    the random sequence included, exactly as it was. *)
Theorem validation_is_atomic func rand_rand pow_half :
  (forall self n epochs cpe alpha,
      alpha <= eps ->
      prepare_grid func rand_rand self n epochs cpe alpha
      = (Raise (Exception "To low alpha"), self))
  /\ (forall self times num,
        (times <= 0 \/ num <= 0)%Z ->
        integrate func rand_rand pow_half self times num
        = (Raise (Exception "Incorrect params"), self)).
Proof.
  split.
  - intros. apply prepare_grid_low_alpha; assumption.
  - intros. apply integrate_invalid_params; assumption.
Qed.

(** C8.  On an object whose [bins] attribute was never set, [integrate] with
    positive parameters raises when it reads [self.bins], returns nothing and
    leaves the object as it was; with a non-positive parameter the parameter
    check raises first.  A fresh object has no [bins], and a call of
    [prepare_grid] that raises sets none. *)
Theorem integrate_before_training func rand_rand pow_half :
  (forall self times num,
      bins self = None -> (0 < times)%Z -> (0 < num)%Z ->
      integrate func rand_rand pow_half self times num
      = (Raise (AttributeError "bins"), self))
  /\ (forall self times num,
        bins self = None -> (times <= 0 \/ num <= 0)%Z ->
        integrate func rand_rand pow_half self times num
        = (Raise (Exception "Incorrect params"), self))
  /\ (forall total_region pos, bins (init total_region pos) = None)
  /\ (forall self n epochs cpe alpha e,
        fst (prepare_grid func rand_rand self n epochs cpe alpha) = Raise e ->
        bins (snd (prepare_grid func rand_rand self n epochs cpe alpha)) = bins self).
Proof.
  split; [ | split; [ | split ] ].
  - intros self times num Hb Ht Hn. unfold integrate.
    replace ((times <=? 0)%Z || (num <=? 0)%Z) with false.
    + rewrite Hb. reflexivity.
    + symmetry. apply orb_false_iff. split; apply Z.leb_gt; auto.
  - intros self times num _ H.
    apply integrate_invalid_params; assumption.
  - reflexivity.
  - intros self n epochs cpe alpha e. unfold prepare_grid.
    destruct (Qle_bool alpha eps); [ reflexivity | ].
    destruct (n <? 0)%Z; [ reflexivity | ].
    destruct (2 ^ 53 <=? n)%Z; [ reflexivity | ].
    destruct (n =? 0)%Z; [ reflexivity | ].
    destruct (initial_tables n (length (region self))) as [[b0 w0]|e0]; [ | reflexivity ].
    destruct (train_epochs _ _ _ _ _ _ _ _ _ _ _ _) as [[[b w]|e1] pos];
      [ discriminate | reflexivity ].
Qed.

Lemma validation_is_atomic_witness :
  prepare_grid grow centre_rand model2 50 100 2500 0
  = (Raise (Exception "To low alpha"), model2).
Proof.
  apply (proj1 (validation_is_atomic grow centre_rand heron)).
  unfold Qle. vm_compute. discriminate.
Defined.

Lemma integrate_before_training_witness :
  integrate grow centre_rand heron model2 20 10000
  = (Raise (AttributeError "bins"), model2).
Proof.
  apply (proj1 (integrate_before_training grow centre_rand heron));
    [ reflexivity | lia | lia ].
Defined.

(** ** Draws per bin *)

(** C5.  A completed [prepare_grid] with [calls_per_epoch >= 0] draws
    exactly [min(calls_per_epoch // total_bins, 2)] vectors in every bin, a
    number between 0 and 2, hence [epochs * total_bins] times that many in
    all; a completed [integrate] draws exactly
    [max(number_of_calls // total_bins, 2)] vectors in every bin, a number
    of at least 2, hence [times * total_bins] times that many in all. *)
Theorem calls_per_bin_asymmetry func rand_rand pow_half :
  (forall self n epochs cpe alpha,
      (0 <= cpe)%Z ->
      fst (prepare_grid func rand_rand self n epochs cpe alpha) = Ok tt ->
      let dims := length (region self) in
      let total_bins := (n ^ Z.of_nat dims)%Z in
      let calls_per_bin := Z.min (cpe / total_bins) 2 in
      (0 <= calls_per_bin <= 2)%Z
      /\ (forall bins st,
            (Z.of_nat (snd (train_bin func rand_rand self bins n dims calls_per_bin st))
             = Z.of_nat (snd st) + calls_per_bin)%Z)
      /\ (Z.of_nat (rand (snd (prepare_grid func rand_rand self n epochs cpe alpha)))
          = Z.of_nat (rand self) + Z.max 0 epochs * (total_bins * calls_per_bin))%Z)
  /\ (forall self times num r,
        fst (integrate func rand_rand pow_half self times num) = Ok r ->
        exists bn,
          bin_num self = Some bn /\
          let dims := dimensions self in
          let total_bins := (bn ^ Z.of_nat dims)%Z in
          let calls_per_bin := Z.max (num / total_bins) 2 in
          (2 <= calls_per_bin)%Z
          /\ (forall bins st,
                (Z.of_nat (snd (integrate_bin func rand_rand self bins bn dims
                                  calls_per_bin st))
                 = Z.of_nat (snd st) + calls_per_bin)%Z)
          /\ (Z.of_nat (rand (snd (integrate func rand_rand pow_half self times num)))
              = Z.of_nat (rand self)
                + times * (Z.max 0 total_bins * calls_per_bin))%Z).
Proof.
  split.
  - intros self n epochs cpe alpha Hcpe Hok dims total_bins calls_per_bin.
    destruct (prepare_grid_ok_inv _ _ _ _ _ _ _ Hok)
      as [Ha [Hn [b0 [w0 [b [w [pos [Hi [Ht Hs]]]]]]]]].
    assert (0 < total_bins)%Z as Htb by (apply Z.pow_pos_nonneg; lia).
    assert (0 <= cpe / total_bins)%Z as Hq by (apply Z.div_pos; lia).
    assert (0 <= calls_per_bin <= 2)%Z as Hc by (unfold calls_per_bin; lia).
    split; [ exact Hc | ]. split.
    + intros bins st. rewrite train_bin_pos. lia.
    + rewrite Hs. simpl. apply train_epochs_pos in Ht.
      unfold train_calls_per_bin in Ht. fold dims total_bins calls_per_bin in Ht.
      rewrite Ht. nia.
  - intros self times num r Hok.
    destruct (integrate_ok_inv _ _ _ _ _ _ _ Hok)
      as [Ht [Hn [b [bn [Hb [Hbn [Hz [Hr Hs]]]]]]]].
    exists bn. split; [ exact Hbn | ].
    intros dims total_bins calls_per_bin.
    assert (2 <= calls_per_bin)%Z as Hc by (unfold calls_per_bin; lia).
    split; [ exact Hc | ]. split.
    + intros bins st. rewrite integrate_bin_pos. lia.
    + cbv zeta in Hs. rewrite Hs. unfold set_rand. cbn [rand].
      match goal with
      | |- context [evaluations_loop ?f ?r ?s ?b ?n ?d ?c ?t ?k ?e ?p] =>
          destruct (evaluations_loop_spec f r s b n d c t k e p) as [_ Hp]
      end.
      unfold integrate_calls_per_bin in *. subst dims total_bins calls_per_bin.
      rewrite Hp. nia.
Qed.

Lemma calls_per_bin_asymmetry_witness :
  (Z.of_nat (rand (snd (prepare_grid grow centre_rand model1 2 1 8 1)))
   = Z.of_nat (rand model1)
     + Z.max 0 1 * (2 ^ Z.of_nat (length (region model1))
                    * Z.min (8 / 2 ^ Z.of_nat (length (region model1))) 2))%Z.
Proof.
  refine (proj2 (proj2 (proj1 (calls_per_bin_asymmetry grow centre_rand heron)
                          model1 2%Z 1%Z 8%Z 1 _ _))).
  - lia.
  - vm_compute. reflexivity.
Defined.

(** ** Lists, sums and normalisation *)

Lemma length_list_set {A : Type} (l : list A) i v :
  length (list_set l i v) = length l.
Proof.
  revert i. induction l as [|h t IH]; intros [|i]; simpl; auto.
Qed.

Lemma nth_list_set_eq {A : Type} (l : list A) i v d :
  (i < length l)%nat -> nth i (list_set l i v) d = v.
Proof.
  revert i. induction l as [|h t IH]; intros [|i] H; simpl in *; try lia; auto.
  apply IH. lia.
Qed.

Lemma nth_list_set_neq {A : Type} (l : list A) i j v d :
  i <> j -> nth j (list_set l i v) d = nth j l d.
Proof.
  revert i j. induction l as [|h t IH]; intros [|i] [|j] H; simpl; auto; try lia.
Qed.

Lemma py_index_nat len i : py_index len (Z.of_nat i) = i.
Proof.
  unfold py_index. destruct (Z.ltb_spec (Z.of_nat i) 0); lia.
Qed.

Lemma py_index_pred len i : py_index len (Z.of_nat (S i) - 1) = i.
Proof.
  unfold py_index. destruct (Z.ltb_spec (Z.of_nat (S i) - 1) 0); lia.
Qed.

Lemma py_index_last len : py_index len (-1) = (len - 1)%nat.
Proof. unfold py_index. simpl. lia. Qed.

Lemma length_map2 {A B C : Type} (f : A -> B -> C) l1 l2 :
  length l1 = length l2 -> length (map2 f l1 l2) = length l1.
Proof.
  revert l2. induction l1 as [|a l1 IH]; intros [|b l2] H; simpl in *; try lia.
  rewrite IH; lia.
Qed.

Lemma np_sum_app l1 l2 : np_sum (l1 ++ l2) == np_sum l1 + np_sum l2.
Proof.
  induction l1 as [|a l1 IH]; simpl.
  - lra.
  - fold (np_sum (l1 ++ l2)) (np_sum l1). lra.
Qed.

Lemma np_sum_cons a l : np_sum (a :: l) = a + np_sum l.
Proof. reflexivity. Qed.

Lemma np_sum_singleton a : np_sum [a] == a.
Proof. unfold np_sum. simpl. ring. Qed.

Lemma np_sum_map_div l s :
  np_sum (map (fun r => r / s) l) == np_sum l / s.
Proof.
  induction l as [|a l IH]; simpl map; rewrite ?np_sum_cons.
  - unfold np_sum. simpl. unfold Qdiv. lra.
  - rewrite IH. unfold Qdiv. lra.
Qed.

Lemma np_sum_pos l : l <> [] -> Forall (fun x => 0 < x) l -> 0 < np_sum l.
Proof.
  intros Hne Hall. induction Hall as [|a l Ha Hall IH]; [ congruence | ].
  rewrite np_sum_cons. destruct l as [|b l].
  - unfold np_sum. simpl. lra.
  - assert (0 < np_sum (b :: l)) by (apply IH; discriminate). lra.
Qed.

Lemma np_sum_neg l : l <> [] -> Forall (fun x => x < 0) l -> np_sum l < 0.
Proof.
  intros Hne Hall. induction Hall as [|a l Ha Hall IH]; [ congruence | ].
  rewrite np_sum_cons. destruct l as [|b l].
  - unfold np_sum. simpl. lra.
  - assert (np_sum (b :: l) < 0) by (apply IH; discriminate). lra.
Qed.

Lemma np_sum_nonneg l : Forall (fun x => 0 <= x) l -> 0 <= np_sum l.
Proof.
  intros Hall. induction Hall as [|a l Ha Hall IH].
  - unfold np_sum. simpl. lra.
  - rewrite np_sum_cons. lra.
Qed.

Lemma np_sum_nonpos l : Forall (fun x => x <= 0) l -> np_sum l <= 0.
Proof.
  intros Hall. induction Hall as [|a l Ha Hall IH].
  - unfold np_sum. simpl. lra.
  - rewrite np_sum_cons. lra.
Qed.

(** Entries of one sign that sum to 0 are all 0. *)
Lemma np_sum_nonpos_zero l :
  Forall (fun x => x <= 0) l -> np_sum l == 0 -> Forall (fun x => x == 0) l.
Proof.
  intros Hall. induction Hall as [|a l Ha Hall IH]; intros Hs.
  - constructor.
  - rewrite np_sum_cons in Hs. pose proof (np_sum_nonpos l Hall).
    constructor; [ lra | apply IH; lra ].
Qed.

Lemma Qdiv_pos a b : 0 < a -> 0 < b -> 0 < a / b.
Proof.
  intros Ha Hb. unfold Qdiv. apply Qmult_lt_0_compat; auto.
  apply Qinv_lt_0_compat; auto.
Qed.

Lemma Qinv_neg b : b < 0 -> / b < 0.
Proof.
  intros Hb.
  assert (0 < / (- b)) as H by (apply Qinv_lt_0_compat; lra).
  assert (/ (- b) == - / b) as E by (field; lra).
  lra.
Qed.

Lemma Qdiv_neg_neg a b : a < 0 -> b < 0 -> 0 < a / b.
Proof.
  intros Ha Hb.
  assert (a / b == (- a) / (- b)) as E by (field; lra).
  rewrite E. apply Qdiv_pos; lra.
Qed.

(** Dividing a non-empty column of entries of one strict sign by its sum
    gives positive entries that sum to 1. *)
Lemma normalise_ok l :
  l <> [] ->
  Forall (fun x => 0 < x) l \/ Forall (fun x => x < 0) l ->
  ~ np_sum l == 0
  /\ Forall (fun x => 0 < x) (map (fun r => r / np_sum l) l)
  /\ np_sum (map (fun r => r / np_sum l) l) == 1.
Proof.
  intros Hne Hsign.
  assert (0 < np_sum l \/ np_sum l < 0) as Hs.
  { destruct Hsign; [ left; apply np_sum_pos | right; apply np_sum_neg ]; auto. }
  assert (~ np_sum l == 0) as Hnz by (destruct Hs; lra).
  split; [ exact Hnz | ]. split.
  - apply Forall_forall. intros y Hy. apply in_map_iff in Hy.
    destruct Hy as [x [E Hx]]. subst y.
    destruct Hsign as [Hp|Hn].
    + apply Qdiv_pos.
      * exact (proj1 (Forall_forall _ _) Hp x Hx).
      * apply np_sum_pos; auto.
    + apply Qdiv_neg_neg.
      * exact (proj1 (Forall_forall _ _) Hn x Hx).
      * apply np_sum_neg; auto.
  - rewrite np_sum_map_div. field. exact Hnz.
Qed.

(** ** The weights of [resize_grid] *)

Lemma np_mean_sign_nonneg s : Forall (fun x => 0 <= x) s -> 0 <= np_mean s.
Proof.
  intros H. unfold np_mean, Qdiv. apply Qmult_le_0_compat.
  - apply np_sum_nonneg; auto.
  - apply Qinv_le_0_compat. change 0 with (inject_Z 0). rewrite <- Zle_Qle. lia.
Qed.

Lemma np_mean_sign_nonpos s : Forall (fun x => x <= 0) s -> np_mean s <= 0.
Proof.
  intros H. unfold np_mean, Qdiv.
  assert (0 <= / inject_Z (Z.of_nat (length s))) as Hi.
  { apply Qinv_le_0_compat. change 0 with (inject_Z 0). rewrite <- Zle_Qle. lia. }
  pose proof (np_sum_nonpos s H) as Hs.
  assert (0 <= (- np_sum s) * / inject_Z (Z.of_nat (length s))) as Hm
      by (apply Qmult_le_0_compat; lra).
  lra.
Qed.

Lemma np_mean_zero_sum s : s <> [] -> np_mean s == 0 -> np_sum s == 0.
Proof.
  intros Hne Hm. unfold np_mean in Hm.
  assert (0 < inject_Z (Z.of_nat (length s))) as Hl.
  { change 0 with (inject_Z 0). rewrite <- Zlt_Qlt. destruct s; [ congruence | simpl; lia ]. }
  assert (np_sum s == np_sum s / inject_Z (Z.of_nat (length s))
                       * inject_Z (Z.of_nat (length s))) as E by (field; lra).
  rewrite E, Hm. lra.
Qed.

Lemma guard_mean_cases m :
  (m == 0 /\ guard_mean m = 1) \/ (~ m == 0 /\ guard_mean m = m).
Proof.
  unfold guard_mean. destruct (Qeq_bool m 0) eqn:E.
  - left. split; [ apply Qeq_bool_iff; auto | reflexivity ].
  - right. split; [ | reflexivity ]. intros H. apply Qeq_bool_iff in H. congruence.
Qed.

(** With [alpha > 0] and subintegrals of one sign, the divisors
    [alpha*mean+subintegrals] are all positive or all negative. *)
Lemma rel_divisor_sign alpha s :
  0 < alpha -> s <> [] ->
  Forall (fun x => 0 <= x) s \/ Forall (fun x => x <= 0) s ->
  let mean := guard_mean (np_mean s) in
  Forall (fun x => 0 < rel_divisor alpha mean x) s
  \/ Forall (fun x => rel_divisor alpha mean x < 0) s.
Proof.
  intros Ha Hne Hsign mean. unfold rel_divisor.
  destruct (guard_mean_cases (np_mean s)) as [[Hz Hg]|[Hnz Hg]];
    unfold mean; rewrite Hg.
  - left. destruct Hsign as [Hp|Hn].
    + apply Forall_forall. intros x Hx.
      pose proof (proj1 (Forall_forall _ _) Hp x Hx). simpl in *. lra.
    + pose proof (np_sum_nonpos_zero s Hn (np_mean_zero_sum s Hne Hz)) as Hall.
      apply Forall_forall. intros x Hx.
      pose proof (proj1 (Forall_forall _ _) Hall x Hx). simpl in *. lra.
  - destruct Hsign as [Hp|Hn].
    + left. pose proof (np_mean_sign_nonneg s Hp) as Hm.
      assert (0 < alpha * np_mean s) by (apply Qmult_lt_0_compat; lra).
      apply Forall_forall. intros x Hx.
      pose proof (proj1 (Forall_forall _ _) Hp x Hx). simpl in *. lra.
    + right. pose proof (np_mean_sign_nonpos s Hn) as Hm.
      assert (0 < alpha * (- np_mean s)) by (apply Qmult_lt_0_compat; lra).
      apply Forall_forall. intros x Hx.
      pose proof (proj1 (Forall_forall _ _) Hn x Hx). simpl in *. lra.
Qed.

Lemma rel_weights_raw_sign alpha s :
  0 < alpha -> s <> [] ->
  Forall (fun x => 0 <= x) s \/ Forall (fun x => x <= 0) s ->
  Forall (fun x => 0 < x) (rel_weights_raw alpha s)
  \/ Forall (fun x => x < 0) (rel_weights_raw alpha s).
Proof.
  intros Ha Hne Hsign. unfold rel_weights_raw.
  destruct (rel_divisor_sign alpha s Ha Hne Hsign) as [Hp|Hn]; [ left | right ];
    apply Forall_forall; intros y Hy; apply in_map_iff in Hy;
    destruct Hy as [x [E Hx]]; subst y.
  - pose proof (proj1 (Forall_forall _ _) Hp x Hx) as Hd. simpl in Hd.
    apply Qdiv_pos; [ lra | exact Hd ].
  - pose proof (proj1 (Forall_forall _ _) Hn x Hx) as Hd. simpl in Hd.
    unfold Qdiv. rewrite Qmult_1_l. apply Qinv_neg. exact Hd.
Qed.

Lemma Forall_map2_pos l1 l2 :
  Forall (fun x => 0 < x) l1 -> Forall (fun x => 0 < x) l2 ->
  Forall (fun x => 0 < x) (map2 Qmult l1 l2).
Proof.
  intros H1. revert l2. induction H1 as [|a l1 Ha H1 IH]; intros l2 H2; simpl.
  - constructor.
  - destruct H2 as [|b l2 Hb H2]; constructor.
    + apply Qmult_lt_0_compat; auto.
    + apply IH; auto.
Qed.

(** One column of the new weights: every divisor met on the way is non-zero,
    the column has positive entries and sums to 1. *)
Lemma combined_weights_ok alpha n w s :
  0 < alpha -> weights_ok n w -> length s = n ->
  Forall (fun x => 0 <= x) s \/ Forall (fun x => x <= 0) s ->
  Forall (fun x => ~ rel_divisor alpha (guard_mean (np_mean s)) x == 0) s
  /\ ~ np_sum (rel_weights_raw alpha s) == 0
  /\ ~ np_sum (combined_weights_raw alpha w s) == 0
  /\ weights_ok n (combined_weights alpha w s).
Proof.
  intros Ha [Hlw [Hpw Hsw]] Hls Hsign.
  assert (s <> []) as Hne.
  { intros E. subst s. simpl in Hls. subst n. destruct w; [ | discriminate ].
    unfold np_sum in Hsw. simpl in Hsw. lra. }
  assert (rel_weights_raw alpha s <> []) as Hne_raw.
  { unfold rel_weights_raw. destruct s; [ congruence | discriminate ]. }
  pose proof (rel_weights_raw_sign alpha s Ha Hne Hsign) as Hraw.
  destruct (normalise_ok _ Hne_raw Hraw) as [Hnz1 [Hrel_pos Hrel_sum]].
  fold (rel_weights alpha s) in Hrel_pos, Hrel_sum.
  assert (length (rel_weights alpha s) = n) as Hlrel.
  { unfold rel_weights, rel_weights_raw. rewrite !length_map. exact Hls. }
  assert (length (combined_weights_raw alpha w s) = n) as Hlc.
  { unfold combined_weights_raw. rewrite length_map2; congruence. }
  assert (combined_weights_raw alpha w s <> []) as Hne_c.
  { intros E. rewrite E in Hlc. simpl in Hlc. destruct s; [ congruence | simpl in Hls; lia ]. }
  assert (Forall (fun x => 0 < x) (combined_weights_raw alpha w s)) as Hc_pos
      by (apply Forall_map2_pos; auto).
  destruct (normalise_ok _ Hne_c (or_introl Hc_pos)) as [Hnz2 [Hcomb_pos Hcomb_sum]].
  split; [ | split; [ exact Hnz1 | split; [ exact Hnz2 | ] ] ].
  - destruct (rel_divisor_sign alpha s Ha Hne Hsign) as [Hp|Hn];
      apply Forall_forall; intros x Hx.
    + pose proof (proj1 (Forall_forall _ _) Hp x Hx) as Hd. simpl in Hd. lra.
    + pose proof (proj1 (Forall_forall _ _) Hn x Hx) as Hd. simpl in Hd. lra.
  - unfold weights_ok, combined_weights. rewrite length_map. auto.
Qed.

Lemma resize_grid_weights grid old_weights subintegrals alpha g' w' :
  resize_grid grid old_weights subintegrals alpha = Ok (g', w') ->
  w' = map2 (combined_weights alpha) old_weights subintegrals
  /\ resize_columns grid w' = Ok g'.
Proof.
  unfold resize_grid.
  destruct ((0 <? length grid)%nat && (shape0 grid =? 0)%nat); [ discriminate | ].
  destruct (resize_columns grid _) as [g|e] eqn:E; [ | discriminate ].
  intros H. inversion H; subst. auto.
Qed.

(** The weights in exact arithmetic.  When [alpha > 0], the subintegrals
    are non-negative and every column of [old_weights] is positive and sums
    to 1, a call of [resize_grid] that returns gives a weights table with as
    many columns, each summing to 1, and no division on the way has a zero
    divisor: a column mean equal to 0 is replaced by 1, after which every
    [alpha*mean+subintegrals] is non-zero, and so are the two column sums the
    weights are divided by.  The code agrees with this for as long as none
    of its intermediate results overflows or underflows; the section on
    overflow and underflow below has calls where one does. *)
Lemma resize_grid_weights_exact grid old_weights subintegrals alpha g' w' :
  0 < alpha ->
  Forall2 (fun w s =>
             length w = length s /\ Forall (fun x => 0 < x) w /\ np_sum w == 1
             /\ Forall (fun x => 0 <= x) s)
          old_weights subintegrals ->
  resize_grid grid old_weights subintegrals alpha = Ok (g', w') ->
  length w' = length old_weights
  /\ Forall (fun column => np_sum column == 1) w'
  /\ Forall (fun s =>
               (np_mean s == 0 -> guard_mean (np_mean s) = 1)
               /\ Forall (fun x => ~ rel_divisor alpha (guard_mean (np_mean s)) x == 0) s
               /\ ~ np_sum (rel_weights_raw alpha s) == 0)
            subintegrals
  /\ Forall2 (fun w s => ~ np_sum (combined_weights_raw alpha w s) == 0)
             old_weights subintegrals.
Proof.
  intros Ha Hall Hres.
  destruct (resize_grid_weights _ _ _ _ _ _ Hres) as [Hw _]. subst w'. clear Hres.
  induction Hall as [|w s ws ss [Hl [Hp [Hs Hn]]] Hall IH]; simpl.
  - repeat split; constructor.
  - destruct IH as [IHl [IHs [IHd IHc]]].
    destruct (combined_weights_ok alpha (length w) w s Ha) as [Hd [Hr [Hc [_ [_ Hsum]]]]];
      [ repeat split; auto | auto | left; auto | ].
    split; [ simpl; congruence | ].
    split; [ constructor; auto | ].
    split; [ constructor; auto | constructor; auto ].
    split; [ | split; auto ].
    intros Hz. destruct (guard_mean_cases (np_mean s)) as [[_ E]|[N _]];
      [ exact E | contradiction ].
Qed.

(** ** The edges of [resize_grid] *)

Lemma py_set_nat g i v : py_set g (Z.of_nat i) v = list_set g i v.
Proof. unfold py_set. rewrite py_index_nat. reflexivity. Qed.

Lemma resize_bins_from ws :
  forall i g,
    (1 <= i)%nat -> (i + length ws <= length g)%nat ->
    length (resize_bins i ws g) = length g
    /\ (forall k, (k < length ws)%nat ->
          nth (i + k) (resize_bins i ws g) 0
          == nth (i - 1) g 0 + np_sum (firstn (S k) ws))
    /\ (forall j, (j < i \/ i + length ws <= j)%nat ->
          nth j (resize_bins i ws g) 0 = nth j g 0).
Proof.
  induction ws as [|w ws IH]; intros i g Hi Hlen.
  - simpl. repeat split; auto. intros k Hk. simpl in Hk. lia.
  - simpl in Hlen. cbn [resize_bins].
    destruct i as [|i']; [ lia | ].
    rewrite py_set_nat. unfold py_get. rewrite py_index_pred.
    set (g1 := list_set g (S i') (nth i' g 0 + w)).
    assert (length g1 = length g) as Hl1 by apply length_list_set.
    destruct (IH (S (S i')) g1 ltac:(lia) ltac:(lia)) as [IHl [IHk IHj]].
    assert (nth (S i') g1 0 = nth i' g 0 + w) as Hg1
        by (apply nth_list_set_eq; lia).
    split; [ congruence | ]. split.
    + intros k Hk. replace (S i' - 1)%nat with i' by lia.
      destruct k as [|k'].
      * rewrite Nat.add_0_r, IHj by lia. rewrite Hg1.
        cbn [firstn]. rewrite np_sum_cons. unfold np_sum. simpl fold_right. lra.
      * replace (S i' + S k')%nat with (S (S i') + k')%nat by lia.
        rewrite IHk by (simpl in Hk; lia).
        replace (S (S i') - 1)%nat with (S i') by lia. rewrite Hg1.
        change (firstn (S (S k')) (w :: ws)) with (w :: firstn (S k') ws).
        rewrite np_sum_cons. lra.
    + intros j Hj. simpl length in Hj. rewrite IHj by lia.
      unfold g1. apply nth_list_set_neq. lia.
Qed.

(** The column after the loop: row [k] holds the old last row plus the
    first [k + 1] weights; rows past the weights are untouched. *)
Lemma resize_bins_spec ws g :
  (length ws <= length g)%nat ->
  length (resize_bins 0 ws g) = length g
  /\ (forall k, (k < length ws)%nat ->
        nth k (resize_bins 0 ws g) 0
        == nth (length g - 1) g 0 + np_sum (firstn (S k) ws))
  /\ (forall j, (length ws <= j)%nat -> nth j (resize_bins 0 ws g) 0 = nth j g 0).
Proof.
  destruct ws as [|w ws]; intros Hlen.
  - simpl. repeat split; auto. intros k Hk. simpl in Hk. lia.
  - simpl in Hlen. cbn [resize_bins].
    change (Z.of_nat 0 - 1)%Z with (-1)%Z. change (Z.of_nat 0) with 0%Z.
    unfold py_set, py_get. rewrite py_index_last.
    change (py_index (length g) 0) with 0%nat.
    set (g1 := list_set g 0 (nth (length g - 1) g 0 + w)).
    assert (length g1 = length g) as Hl1 by apply length_list_set.
    destruct (resize_bins_from ws 1 g1 ltac:(lia) ltac:(lia)) as [Hl [Hk Hj]].
    assert (nth 0 g1 0 = nth (length g - 1) g 0 + w) as Hg1
        by (apply nth_list_set_eq; lia).
    split; [ congruence | ]. split.
    + intros k Hk'. destruct k as [|k'].
      * rewrite Hj by lia. rewrite Hg1.
        cbn [firstn]. rewrite np_sum_cons. unfold np_sum. simpl fold_right. lra.
      * change (S k') with (1 + k')%nat at 1.
        rewrite Hk by (simpl in Hk'; lia).
        change (1 - 1)%nat with 0%nat. rewrite Hg1.
        change (firstn (S (S k')) (w :: ws)) with (w :: firstn (S k') ws).
        rewrite np_sum_cons. lra.
    + intros j Hj'. simpl length in Hj'. rewrite Hj by lia.
      unfold g1. apply nth_list_set_neq. lia.
Qed.

Lemma prefix_sum_nonneg ws :
  Forall (fun x => 0 < x) ws -> forall a, 0 <= np_sum (firstn a ws).
Proof.
  intros Hall. induction Hall as [|w ws Hw Hall IH]; intros a.
  - rewrite firstn_nil. unfold np_sum. simpl. lra.
  - destruct a as [|a']; cbn [firstn].
    + unfold np_sum. simpl. lra.
    + rewrite np_sum_cons. specialize (IH a'). lra.
Qed.

Lemma prefix_sum_le ws :
  Forall (fun x => 0 < x) ws ->
  forall a b, (a <= b)%nat -> np_sum (firstn a ws) <= np_sum (firstn b ws).
Proof.
  intros Hall. induction Hall as [|w ws Hw Hall IH]; intros a b Hab.
  - rewrite !firstn_nil. lra.
  - destruct a as [|a'].
    + pose proof (prefix_sum_nonneg (w :: ws) (Forall_cons _ Hw Hall) b) as H.
      cbn [firstn]. unfold np_sum at 1. simpl fold_right. exact H.
    + destruct b as [|b']; [ lia | ].
      cbn [firstn]. rewrite !np_sum_cons.
      specialize (IH a' b' ltac:(lia)). lra.
Qed.

Lemma prefix_sum_pos ws a :
  Forall (fun x => 0 < x) ws -> ws <> [] -> 0 < np_sum (firstn (S a) ws).
Proof.
  intros Hall Hne. destruct Hall as [|w ws Hw Hall]; [ congruence | ].
  cbn [firstn]. rewrite np_sum_cons.
  pose proof (prefix_sum_nonneg ws Hall a). lra.
Qed.

(** Positive weights summing to 1, accumulated from a last row equal to 0,
    give edges as training leaves them. *)
Lemma resize_bins_column_inv n ws g :
  weights_ok n ws -> length g = S n -> nth n g 0 = 0 ->
  column_inv n (resize_bins 0 ws g).
Proof.
  intros [Hlw [Hpos Hsum]] Hlg Hsent.
  destruct (resize_bins_spec ws g ltac:(lia)) as [Hl [Hk Hj]].
  assert (ws <> []) as Hne.
  { intros E. subst ws. unfold np_sum in Hsum. simpl in Hsum. lra. }
  assert (forall k, (k < n)%nat ->
            nth k (resize_bins 0 ws g) 0 == np_sum (firstn (S k) ws)) as Hedge.
  { intros k Hk'. rewrite Hk by lia. rewrite Hlg.
    replace (S n - 1)%nat with n by lia. rewrite Hsent. lra. }
  assert (forall k, (k < n)%nat -> np_sum (firstn (S k) ws) <= 1) as Hle1.
  { intros k Hk'. rewrite <- Hsum. rewrite <- (firstn_all ws) at 2.
    apply prefix_sum_le; auto. lia. }
  split; [ congruence | ]. split; [ rewrite Hj by lia; exact Hsent | ].
  split; [ | split ].
  - intros i j Hij. rewrite !Hedge by lia. apply prefix_sum_le; auto. lia.
  - intros i Hi. rewrite Hedge by lia. split.
    + apply prefix_sum_pos; auto.
    + apply Hle1; auto.
  - unfold last_edge_one. assert (1 <= n)%nat as Hn by (destruct ws; [ congruence | simpl in Hlw; lia ]).
    rewrite Hedge by lia. replace (S (n - 1)) with (length ws) by lia.
    rewrite firstn_all. exact Hsum.
Qed.

Lemma resize_columns_inv n alpha :
  0 < alpha ->
  forall bins weights distrib,
    Forall (column_inv n) bins -> Forall (weights_ok n) weights ->
    Forall (fun s => length s = n
                     /\ (Forall (fun x => 0 <= x) s \/ Forall (fun x => x <= 0) s))
           distrib ->
    length weights = length bins -> length distrib = length bins ->
    let combined := map2 (combined_weights alpha) weights distrib in
    exists bins',
      resize_columns bins combined = Ok bins'
      /\ length bins' = length bins /\ length combined = length bins
      /\ Forall (column_inv n) bins' /\ Forall (weights_ok n) combined.
Proof.
  intros Ha bins.
  induction bins as [|g bins IH]; intros weights distrib Hb Hw Hd Hlw Hld combined.
  - destruct weights; [ | discriminate ]. exists []. simpl. repeat split; constructor.
  - destruct weights as [|w weights]; [ discriminate | ].
    destruct distrib as [|s distrib]; [ discriminate | ].
    inversion Hb as [|? ? Hg Hb']; subst. inversion Hw as [|? ? Hw1 Hw']; subst.
    inversion Hd as [|? ? [Hls Hsign] Hd']; subst.
    simpl in Hlw, Hld.
    destruct (IH weights distrib Hb' Hw' Hd' ltac:(lia) ltac:(lia))
      as [bins' [Hres [Hlb [Hlc [Hinv Hwok]]]]].
    destruct (combined_weights_ok alpha (length s) w s Ha Hw1 eq_refl Hsign)
      as [_ [_ [_ Hcw]]].
    destruct Hg as [Hlg [Hsent Hedges]].
    unfold combined. cbn [map2 resize_columns].
    assert (length (combined_weights alpha w s) = length s) as Hlcw by (apply Hcw).
    replace (length (combined_weights alpha w s) <=? length g)%nat with true
      by (symmetry; apply Nat.leb_le; lia).
    rewrite Hres.
    exists (resize_bins 0 (combined_weights alpha w s) g :: bins').
    split; [ reflexivity | ].
    split; [ simpl; lia | ]. split; [ simpl; lia | ].
    split; constructor; auto.
    apply resize_bins_column_inv; auto.
Qed.

(** [resize_grid] keeps the working state of training well formed. *)
Lemma resize_grid_inv n dims alpha bins weights distrib :
  0 < alpha -> tables_inv n dims bins weights ->
  length distrib = dims ->
  Forall (fun s => length s = n
                   /\ (Forall (fun x => 0 <= x) s \/ Forall (fun x => x <= 0) s))
         distrib ->
  exists bins' weights',
    resize_grid bins weights distrib alpha = Ok (bins', weights')
    /\ tables_inv n dims bins' weights'.
Proof.
  intros Ha [Hlb [Hlw [Hb Hw]]] Hld Hd.
  destruct (resize_columns_inv n alpha Ha bins weights distrib Hb Hw Hd
              ltac:(lia) ltac:(lia)) as [bins' [Hres [Hlb' [Hlc [Hinv Hwok]]]]].
  exists bins', (map2 (combined_weights alpha) weights distrib).
  split.
  - unfold resize_grid.
    replace ((0 <? length bins)%nat && (shape0 bins =? 0)%nat) with false.
    + rewrite Hres. reflexivity.
    + symmetry. destruct bins as [|g bins0]; [ reflexivity | ].
      inversion Hb as [|? ? [Hlg _] _]; subst.
      unfold shape0. simpl hd. rewrite Hlg. reflexivity.
  - unfold tables_inv. repeat split; auto; lia.
Qed.

(** ** RegionMapper *)

Lemma nth_map_seq {A : Type} (f : nat -> A) n d def :
  (d < n)%nat -> nth d (map f (seq 0 n)) def = f d.
Proof.
  intros H. rewrite (nth_indep _ def (f 0%nat)) by (rewrite length_map, length_seq; lia).
  rewrite map_nth, seq_nth by lia. reflexivity.
Qed.

Lemma selected_region_length region bins indices :
  length (_get_selected_region region bins indices) = length indices.
Proof. unfold _get_selected_region. rewrite length_map, length_seq. reflexivity. Qed.

(** The interval of dimension [d]: from the edge below bin [i] (the last row
    for bin 0) to edge [i], scaled into the region. *)
Lemma selected_region_dim region bins indices n d :
  (d < length indices)%nat -> shape0 bins = S n -> length (nth d bins []) = S n ->
  (0 <= nth d indices 0%Z < Z.of_nat n)%Z ->
  let i := Z.to_nat (nth d indices 0%Z) in
  let column := nth d bins [] in
  let r := nth d region (0, 0) in
  nth d (_get_selected_region region bins indices) (0, 0)
  = (fst r + nth (match i with O => n | S j => j end) column 0 * (snd r - fst r),
     fst r + nth i column 0 * (snd r - fst r)).
Proof.
  intros Hd Hshape Hlen Hidx i column r.
  unfold _get_selected_region. rewrite nth_map_seq by exact Hd.
  fold r column. rewrite Hshape.
  assert (nth d indices 0%Z = Z.of_nat i) as Ei by (unfold i; lia).
  rewrite Ei. unfold py_get. rewrite py_index_nat.
  destruct i as [|j].
  - change (Z.of_nat 0 =? 0)%Z with true. cbv iota.
    replace (Z.of_nat (S n) - 1)%Z with (Z.of_nat n) by lia.
    rewrite py_index_nat. reflexivity.
  - replace (Z.of_nat (S j) =? 0)%Z with false by (symmetry; apply Z.eqb_neq; lia).
    rewrite py_index_pred. reflexivity.
Qed.

Lemma valid_index_nth limit dims v d :
  valid_index limit dims v -> (d < dims)%nat -> (0 <= nth d v 0%Z < limit)%Z.
Proof.
  intros [Hl Hf] Hd. apply (proj1 (Forall_forall _ _) Hf).
  apply nth_In. lia.
Qed.

Lemma interval_facts n column T i :
  edges_in_unit n column -> (i < n)%nat -> 0 <= T ->
  let lo := nth (match i with O => n | S j => j end) column 0 in
  let hi := nth i column 0 in
  0 <= lo * T /\ lo * T <= hi * T /\ hi * T <= T
  /\ (i = 0%nat -> lo * T == 0) /\ (i = (n - 1)%nat -> hi * T == T).
Proof.
  intros [[Hlen Hsent] [Hmono [Hunit Hlast]]] Hi HT lo hi.
  assert (0 <= lo /\ lo <= hi /\ hi <= 1) as [Hlo [Hlh Hh]].
  { unfold lo, hi. destruct i as [|j].
    - pose proof (Hunit 0%nat Hi). rewrite Hsent. lra.
    - pose proof (Hunit j ltac:(lia)). pose proof (Hunit (S j) Hi).
      pose proof (Hmono j (S j) ltac:(lia)). lra. }
  split; [ apply Qmult_le_0_compat; auto | ].
  split; [ apply Qmult_le_compat_r; auto | ].
  split.
  - assert (hi * T <= 1 * T) by (apply Qmult_le_compat_r; auto). lra.
  - split.
    + intros E. subst i. unfold lo. rewrite Hsent. lra.
    + intros E. subst i. unfold hi. unfold last_edge_one in Hlast.
      rewrite Hlast. lra.
Qed.

(** C4.  On a grid whose columns are non-decreasing edges in [[0, 1]] that
    end in 1, with the last row 0, and a region with [lower <= upper], the
    box of a valid index vector lies inside the region, and along every
    dimension the intervals tile the region's extent: the interval of bin 0
    starts at the region's lower bound, the interval of bin [n - 1] ends at
    its upper bound, the interval of bin [i + 1] starts where that of bin [i]
    ends, and the interval depends on that dimension's index only. *)
Theorem selected_subregion_tiles self bins n :
  let dims := length (region self) in
  (1 <= n)%nat -> length bins = dims ->
  (forall d, (d < dims)%nat -> edges_in_unit n (nth d bins [])) ->
  Forall (fun r => fst r <= snd r) (region self) ->
  forall indices,
    valid_index (Z.of_nat n) dims indices ->
    let box := get_selected_subregion self bins indices in
    length box = dims
    /\ forall d, (d < dims)%nat ->
         let r := nth d (region self) (0, 0) in
         let b := nth d box (0, 0) in
         fst r <= fst b /\ fst b <= snd b /\ snd b <= snd r
         /\ (nth d indices 0%Z = 0%Z -> fst b == fst r)
         /\ (nth d indices 0%Z = (Z.of_nat n - 1)%Z -> snd b == snd r)
         /\ (forall indices',
               valid_index (Z.of_nat n) dims indices' ->
               nth d indices' 0%Z = (nth d indices 0%Z + 1)%Z ->
               fst (nth d (get_selected_subregion self bins indices') (0, 0)) = snd b)
         /\ (forall indices',
               valid_index (Z.of_nat n) dims indices' ->
               nth d indices' 0%Z = nth d indices 0%Z ->
               nth d (get_selected_subregion self bins indices') (0, 0) = b).
Proof.
  intros dims Hn Hlb Hedges Hreg indices Hv box.
  split.
  { unfold box, get_selected_subregion, cython_get_selected_region.
    rewrite selected_region_length. apply Hv. }
  intros d Hd r b.
  assert (shape0 bins = S n) as Hshape.
  { unfold shape0. destruct bins as [|g bins0]; [ simpl in Hlb; lia | ].
    exact (proj1 (proj1 (Hedges 0%nat ltac:(lia)))). }
  pose proof (Hedges d Hd) as Hcol.
  assert (length (nth d bins []) = S n) as Hlen by apply Hcol.
  assert (forall v, valid_index (Z.of_nat n) dims v ->
            nth d (_get_selected_region (region self) bins v) (0, 0)
            = (fst r + nth (match Z.to_nat (nth d v 0%Z) with O => n | S j => j end)
                           (nth d bins []) 0 * (snd r - fst r),
               fst r + nth (Z.to_nat (nth d v 0%Z)) (nth d bins []) 0 * (snd r - fst r)))
    as Hbox.
  { intros v Hvv. apply selected_region_dim; auto.
    - destruct Hvv as [Hl _]. lia.
    - apply (valid_index_nth _ dims); auto. }
  pose proof (valid_index_nth _ _ _ d Hv Hd) as Hidx.
  assert (0 <= snd r - fst r) as HT.
  { assert (fst r <= snd r); [ | lra ].
    apply (proj1 (Forall_forall _ _) Hreg). apply nth_In. exact Hd. }
  destruct (interval_facts n (nth d bins []) (snd r - fst r)
              (Z.to_nat (nth d indices 0%Z)) Hcol ltac:(lia) HT)
    as [H0 [Hle [H1 [Hfirst Hlast]]]].
  unfold b, box, get_selected_subregion, cython_get_selected_region.
  rewrite (Hbox indices Hv). cbn [fst snd].
  split; [ lra | ]. split; [ lra | ]. split; [ lra | ].
  split; [ | split; [ | split ] ].
  - intros E. rewrite Hfirst by (rewrite E; reflexivity). lra.
  - intros E. rewrite Hlast by (rewrite E; lia). lra.
  - intros v Hvv E. rewrite (Hbox v Hvv). cbn [fst].
    replace (Z.to_nat (nth d v 0%Z)) with (S (Z.to_nat (nth d indices 0%Z))) by lia.
    reflexivity.
  - intros v Hvv E. rewrite (Hbox v Hvv), E. reflexivity.
Qed.

Lemma edges_in_unit_example : edges_in_unit 2 [1 # 2; 1; 0].
Proof.
  split; [ split; reflexivity | ]. split; [ | split ].
  - intros i j Hij.
    destruct i as [|[|i]]; destruct j as [|[|j]]; try lia; simpl;
      unfold Qle; simpl; lia.
  - intros i Hi. destruct i as [|[|i]]; try lia; simpl; unfold Qle; simpl; lia.
  - reflexivity.
Qed.

Lemma selected_subregion_tiles_witness :
  length (get_selected_subregion model1 [[1 # 2; 1; 0]] [0%Z]) = 1%nat.
Proof.
  refine (proj1 (selected_subregion_tiles model1 [[1 # 2; 1; 0]] 2 _ _ _ _ [0%Z] _)).
  - lia.
  - reflexivity.
  - intros d Hd. simpl in Hd. destruct d as [|d]; [ | lia ].
    exact edges_in_unit_example.
  - repeat constructor. simpl. unfold Qle. simpl. lia.
  - split; [ reflexivity | ]. repeat constructor; lia.
Defined.

(** ** The tables training starts from *)

Lemma inject_Z_pos n : (1 <= n)%Z -> 0 < inject_Z n.
Proof. intros H. change 0 with (inject_Z 0). rewrite <- Zlt_Qlt. lia. Qed.

Lemma Qpos_nonzero x : 0 < x -> ~ x == 0.
Proof. intros H E. rewrite E in H. exact (Qlt_irrefl 0 H). Qed.

Lemma uniform_value n i :
  (1 <= n)%Z ->
  1 / inject_Z n + inject_Z (Z.of_nat i) * (1 / inject_Z n)
  == inject_Z (Z.of_nat i + 1) / inject_Z n.
Proof.
  intros Hn. pose proof (inject_Z_pos n Hn). rewrite inject_Z_plus.
  change (inject_Z 1) with 1. field. apply Qpos_nonzero; assumption.
Qed.

Lemma np_sum_repeat x k : np_sum (repeat x k) == inject_Z (Z.of_nat k) * x.
Proof.
  induction k as [|k IH].
  - change (np_sum (repeat x 0)) with 0. change (inject_Z (Z.of_nat 0)) with 0. ring.
  - cbn [repeat]. rewrite np_sum_cons, IH.
    rewrite Nat2Z.inj_succ. unfold Z.succ. rewrite inject_Z_plus.
    change (inject_Z 1) with 1. lra.
Qed.

Lemma uniform_weights_ok n :
  (1 <= n)%Z -> weights_ok (Z.to_nat n) (repeat (1 / inject_Z n) (Z.to_nat n)).
Proof.
  intros Hn. pose proof (inject_Z_pos n Hn) as Hq.
  split; [ apply repeat_length | ]. split.
  - apply Forall_forall. intros x Hx. apply repeat_spec in Hx. subst x.
    apply Qdiv_pos; [ reflexivity | assumption ].
  - rewrite np_sum_repeat. rewrite Z2Nat.id by lia. field. apply Qpos_nonzero; assumption.
Qed.

(** The column [vals] of a completed start: [n] edges [(i + 1) / n] and the
    appended 0. *)
Lemma uniform_column_inv n vals :
  (1 <= n)%Z ->
  vals = map (fun i => 1 / inject_Z n + inject_Z (Z.of_nat i) * (1 / inject_Z n))
             (seq 0 (Z.to_nat n)) ->
  column_inv (Z.to_nat n) (vals ++ [0])
  /\ forall i, (i < Z.to_nat n)%nat ->
       nth i (vals ++ [0]) 0 == inject_Z (Z.of_nat i + 1) / inject_Z n.
Proof.
  intros Hn Hvals. pose proof (inject_Z_pos n Hn) as Hq.
  assert (length vals = Z.to_nat n) as Hlen
      by (subst vals; rewrite length_map, length_seq; reflexivity).
  assert (forall i, (i < Z.to_nat n)%nat ->
            nth i (vals ++ [0]) 0 == inject_Z (Z.of_nat i + 1) / inject_Z n) as Hval.
  { intros i Hi. rewrite app_nth1 by lia. subst vals.
    rewrite nth_map_seq by exact Hi. apply uniform_value. exact Hn. }
  split; [ | exact Hval ].
  split; [ rewrite length_app; simpl; lia | ].
  split; [ rewrite app_nth2 by lia; rewrite Hlen, Nat.sub_diag; reflexivity | ].
  split; [ | split ].
  - intros i j Hij. rewrite !Hval by lia. unfold Qdiv.
    apply Qmult_le_compat_r.
    + rewrite <- Zle_Qle. lia.
    + apply Qlt_le_weak, Qinv_lt_0_compat. exact Hq.
  - intros i Hi. rewrite Hval by lia. split.
    + apply Qdiv_pos; [ apply inject_Z_pos; lia | exact Hq ].
    + apply Qle_shift_div_r; [ exact Hq | ]. rewrite Qmult_1_l.
      rewrite <- Zle_Qle. lia.
  - unfold last_edge_one. rewrite Hval by lia.
    replace (Z.of_nat (Z.to_nat n - 1) + 1)%Z with n by lia. field. apply Qpos_nonzero; assumption.
Qed.

Lemma initial_tables_inv n dims b0 w0 :
  (1 <= n)%Z -> initial_tables n dims = Ok (b0, w0) ->
  tables_inv (Z.to_nat n) dims b0 w0
  /\ forall d i, (d < dims)%nat -> (i < Z.to_nat n)%nat ->
       at2 b0 i d == inject_Z (Z.of_nat i + 1) / inject_Z n
       /\ at2 w0 i d = 1 / inject_Z n.
Proof.
  intros Hn. unfold initial_tables, uniform_edges.
  destruct (Binary64.uniform_edges_length n) as [len|]; [ | discriminate ].
  set (vals := map _ (seq 0 (Z.to_nat len))).
  destruct ((0 <? dims)%nat && negb (length (vals ++ [0%Q]) =? Z.to_nat (n + 1))%nat) eqn:E;
    [ discriminate | ].
  intros H. inversion H; subst b0 w0. clear H.
  destruct dims as [|dims'].
  { split; [ repeat split; constructor | intros d i Hd; lia ]. }
  simpl in E. apply negb_false_iff, Nat.eqb_eq in E.
  rewrite length_app in E. simpl in E.
  assert (Z.to_nat len = Z.to_nat n) as Hlen.
  { unfold vals in E. rewrite length_map, length_seq in E. lia. }
  assert (vals = map (fun i => 1 / inject_Z n + inject_Z (Z.of_nat i) * (1 / inject_Z n))
                     (seq 0 (Z.to_nat n))) as Hvals
      by (unfold vals; rewrite Hlen; reflexivity).
  destruct (uniform_column_inv n vals Hn Hvals) as [Hinv Hval].
  split.
  - split; [ apply repeat_length | ]. split; [ apply repeat_length | ].
    split; apply Forall_forall; intros x Hx; apply repeat_spec in Hx; subst x.
    + exact Hinv.
    + apply uniform_weights_ok; exact Hn.
  - intros d i Hd Hi. unfold at2.
    rewrite !(nth_indep _ [] (vals ++ [0])) by (rewrite repeat_length; exact Hd).
    rewrite nth_repeat.
    rewrite (nth_indep (repeat (repeat _ _) _) (vals ++ [0]) (repeat (1 / inject_Z n) (Z.to_nat n)))
      by (rewrite repeat_length; exact Hd).
    rewrite nth_repeat. split; [ apply Hval; exact Hi | ].
    rewrite (nth_indep _ 0 (1 / inject_Z n)) by (rewrite repeat_length; exact Hi).
    apply nth_repeat.
Qed.

(** ** Importance has the sign of the region's volume *)

Lemma scaled_zero p : scaled p 0.
Proof. exists 0. split; [ lra | ring ]. Qed.

Lemma scaled_add p x y : scaled p x -> scaled p y -> scaled p (x + y).
Proof.
  intros [c [Hc Hx]] [e [He Hy]]. exists (c + e). split; [ lra | ].
  rewrite Hx, Hy. ring.
Qed.

Lemma scaled_mult p k x : 0 <= k -> scaled p x -> scaled p (k * x).
Proof.
  intros Hk [c [Hc Hx]]. exists (k * c). split.
  - apply Qmult_le_0_compat; auto.
  - rewrite Hx. ring.
Qed.

Lemma scaled_eq p x y : x == y -> scaled p x -> scaled p y.
Proof. intros E [c [Hc Hx]]. exists c. split; [ auto | rewrite <- E; auto ]. Qed.

Lemma scaled_sign p l :
  Forall (scaled p) l -> Forall (fun x => 0 <= x) l \/ Forall (fun x => x <= 0) l.
Proof.
  intros H. destruct (Qlt_le_dec p 0) as [Hneg|Hpos]; [ right | left ];
    apply Forall_forall; intros x Hx;
    destruct (proj1 (Forall_forall _ _) H x Hx) as [c [Hc E]]; rewrite E.
  - assert (0 <= c * (- p)) by (apply Qmult_le_0_compat; lra). lra.
  - apply Qmult_le_0_compat; auto.
Qed.

Lemma scaled_nth p l k : Forall (scaled p) l -> scaled p (nth k l 0).
Proof.
  intros H. destruct (Nat.lt_ge_cases k (length l)) as [Hk|Hk].
  - apply (proj1 (Forall_forall _ _) H). apply nth_In. exact Hk.
  - rewrite nth_overflow by exact Hk. apply scaled_zero.
Qed.

Lemma Forall_list_set {A : Type} (P : A -> Prop) l i v :
  Forall P l -> P v -> Forall P (list_set l i v).
Proof.
  intros H Hv. revert i. induction H as [|a l Ha H IH]; intros [|i]; simpl;
    constructor; auto.
Qed.

Lemma nth_map_in {A B : Type} (f : A -> B) l d da db :
  (d < length l)%nat -> nth d (map f l) db = f (nth d l da).
Proof.
  intros H. rewrite (nth_indep _ db (f da)) by (rewrite length_map; exact H).
  apply map_nth.
Qed.

Lemma Forall2_of_nth {A B : Type} (R : A -> B -> Prop) da db :
  forall l1 l2,
    length l1 = length l2 ->
    (forall i, (i < length l1)%nat -> R (nth i l1 da) (nth i l2 db)) ->
    Forall2 R l1 l2.
Proof.
  induction l1 as [|a l1 IH]; intros [|b l2] Hl H; try discriminate; constructor.
  - apply (H 0%nat). simpl. lia.
  - apply IH; [ simpl in Hl; lia | ]. intros i Hi. apply (H (S i)). simpl. lia.
Qed.

(** A product of non-negative multiples is a non-negative multiple of the
    product. *)
Lemma np_prod_scaled xs ts :
  Forall2 (fun x t => scaled t x) xs ts -> scaled (np_prod ts) (np_prod xs).
Proof.
  intros H. induction H as [|x t xs ts [c [Hc Hx]] H [e [He IH]]].
  - exists 1. split; [ lra | unfold np_prod; simpl; ring ].
  - exists (c * e). split; [ apply Qmult_le_0_compat; auto | ].
    unfold np_prod in *. simpl fold_right. rewrite Hx, IH. ring.
Qed.

Lemma column_inv_edges_in_unit n column :
  column_inv n column -> edges_in_unit n column.
Proof.
  intros [Hl [Hs [Hm [Hu Hlast]]]].
  split; [ split; [ exact Hl | rewrite Hs; reflexivity ] | ].
  split; [ exact Hm | ]. split; [ | exact Hlast ].
  intros i Hi. destruct (Hu i Hi). split; lra.
Qed.

Lemma edges_step n column i :
  edges_in_unit n column -> (i < n)%nat ->
  nth (match i with O => n | S j => j end) column 0 <= nth i column 0.
Proof.
  intros [[Hlen Hsent] [Hmono [Hunit Hlast]]] Hi. destruct i as [|j].
  - pose proof (Hunit 0%nat Hi). rewrite Hsent. lra.
  - apply Hmono. lia.
Qed.

Section Importance.

Variable func : list Q -> Q.
Variable rand_rand : nat -> nat -> list Q.
Variable self : Vegas.
Variable n : nat.
Variable bins_ : table.

Let dims := length (region self).
Let volume := zone_volume (region self).

Hypothesis bins_columns : Forall (column_inv n) bins_.
Hypothesis bins_length : length bins_ = dims.

(** The volume of a bin is a non-negative multiple of the region's. *)
Lemma zone_volume_scaled indices :
  valid_index (Z.of_nat n) dims indices ->
  scaled volume (zone_volume (get_selected_subregion self bins_ indices)).
Proof.
  intros Hv. unfold volume, zone_volume. apply np_prod_scaled.
  unfold get_selected_subregion, cython_get_selected_region.
  apply (Forall2_of_nth _ 0 0).
  - rewrite !length_map, selected_region_length. apply Hv.
  - intros d Hd. rewrite length_map, selected_region_length in Hd.
    assert (d < dims)%nat as Hd' by (destruct Hv; lia).
    assert (forall k, (k < dims)%nat -> column_inv n (nth k bins_ [])) as Hcol.
    { intros k Hk. apply (proj1 (Forall_forall _ _) bins_columns).
      apply nth_In. lia. }
    assert (shape0 bins_ = S n) as Hshape.
    { unfold shape0. destruct bins_ as [|g rest] eqn:E; [ simpl in bins_length; lia | ].
      exact (proj1 (Hcol 0%nat ltac:(lia))). }
    rewrite (nth_map_in _ (_get_selected_region _ _ _) d (0, 0))
      by (rewrite selected_region_length; destruct Hv; lia).
    rewrite (nth_map_in _ (region self) d (0, 0)) by exact Hd'.
    rewrite (selected_region_dim (region self) bins_ indices n d);
      [ | destruct Hv; lia | exact Hshape | apply (Hcol d Hd')
        | apply (valid_index_nth _ dims); auto ].
    cbn [fst snd].
    pose proof (edges_step n (nth d bins_ []) (Z.to_nat (nth d indices 0%Z))
                  (column_inv_edges_in_unit _ _ (Hcol d Hd'))) as Hstep.
    pose proof (valid_index_nth _ _ _ d Hv Hd') as Hidx.
    specialize (Hstep ltac:(lia)).
    match goal with
    | |- scaled ?t (?a + ?hi * ?t' - (?a + ?lo * ?t')) =>
        exists (hi - lo); split; [ lra | ring ]
    end.
Qed.

Lemma sample_loop_scaled dims' zone vol cpb steps :
  (0 <= cpb)%Z -> scaled volume vol ->
  forall acc pos,
    scaled volume acc ->
    scaled volume
      (fst (sample_loop func rand_rand Qabs dims' zone vol cpb steps acc pos)).
Proof.
  intros Hc Hvol. induction steps as [|k IH]; intros acc pos Hacc; simpl.
  - exact Hacc.
  - apply IH. apply scaled_add; [ exact Hacc | ].
    match goal with
    | |- scaled _ (vol * Qabs ?r / ?c) =>
        apply (scaled_eq volume (Qabs r / c * vol)); [ unfold Qdiv; ring | ];
        apply scaled_mult; [ | exact Hvol ]
    end.
    unfold Qdiv. apply Qmult_le_0_compat; [ apply Qabs_nonneg | ].
    apply Qinv_le_0_compat. change 0 with (inject_Z 0). rewrite <- Zle_Qle. exact Hc.
Qed.

Lemma add_importance_inv mi :
  scaled volume mi ->
  forall distrib selected,
    Forall (fun column => length column = n /\ Forall (scaled volume) column) distrib ->
    length (add_importance distrib selected mi) = length distrib
    /\ Forall (fun column => length column = n /\ Forall (scaled volume) column)
              (add_importance distrib selected mi).
Proof.
  intros Hmi distrib. induction distrib as [|column distrib IH]; intros selected H.
  - simpl. split; [ reflexivity | constructor ].
  - destruct selected as [|i rest]; [ simpl; auto | ].
    inversion H as [|? ? [Hl Hc] H']; subst. cbn [add_importance].
    destruct (IH rest H') as [IHl IHf].
    split; [ simpl; lia | ]. constructor; [ | exact IHf ].
    unfold py_set. split; [ rewrite length_list_set; reflexivity | ].
    apply Forall_list_set; [ exact Hc | ].
    apply scaled_add; [ apply scaled_nth; exact Hc | exact Hmi ].
Qed.

Lemma train_bin_inv cpb st :
  distrib_inv self n (fst (fst st)) -> valid_index (Z.of_nat n) dims (snd (fst st)) ->
  (1 <= Z.of_nat n)%Z ->
  let st' := train_bin func rand_rand self bins_ (Z.of_nat n) dims cpb st in
  distrib_inv self n (fst (fst st')) /\ valid_index (Z.of_nat n) dims (snd (fst st')).
Proof.
  destruct st as [[distrib selected] pos]. cbn [fst snd].
  intros [Hld Hd] Hv Hn. unfold train_bin.
  set (zone := get_selected_subregion self bins_ selected).
  assert (scaled volume
            (fst (sample_loop func rand_rand Qabs dims zone (zone_volume zone) cpb
                    (Z.to_nat cpb) 0 pos))) as Hmi.
  { destruct (Z.le_gt_cases 0 cpb) as [Hc|Hc].
    - apply sample_loop_scaled; [ exact Hc | apply zone_volume_scaled; exact Hv
                                 | apply scaled_zero ].
    - replace (Z.to_nat cpb) with 0%nat by lia. simpl. apply scaled_zero. }
  destruct (sample_loop _ _ _ _ _ _ _ _ _ _) as [mi pos']. cbn [fst snd] in *.
  destruct (add_importance_inv mi Hmi distrib selected Hd) as [Hl' Hd'].
  split; [ split; [ lia | exact Hd' ] | ].
  apply get_next_index_valid; auto.
Qed.

Lemma train_loop_inv cpb k st :
  distrib_inv self n (fst (fst st)) -> valid_index (Z.of_nat n) dims (snd (fst st)) ->
  (1 <= Z.of_nat n)%Z ->
  let st' := Nat.iter k (train_bin func rand_rand self bins_ (Z.of_nat n) dims cpb) st in
  distrib_inv self n (fst (fst st')) /\ valid_index (Z.of_nat n) dims (snd (fst st')).
Proof.
  intros Hd Hv Hn. induction k as [|k [IHd IHv]]; simpl.
  - auto.
  - apply train_bin_inv; auto.
Qed.

End Importance.

(** ** Training keeps the tables well formed *)

Lemma train_epoch_inv func rand_rand self bin_num total_bins cpb alpha bins weights pos :
  0 < alpha -> (1 <= bin_num)%Z ->
  tables_inv (Z.to_nat bin_num) (length (region self)) bins weights ->
  exists bins' weights',
    fst (train_epoch func rand_rand self bin_num (length (region self)) total_bins cpb
           alpha bins weights pos) = Ok (bins', weights')
    /\ tables_inv (Z.to_nat bin_num) (length (region self)) bins' weights'.
Proof.
  intros Ha Hn Hinv. unfold train_epoch.
  set (n := Z.to_nat bin_num) in *.
  assert (bin_num = Z.of_nat n) as En by (unfold n; lia).
  set (st0 := (repeat (repeat 0 n) (length (region self)),
               np_zeros_int (length (region self)), pos)).
  assert (distrib_inv self n (fst (fst st0))) as H0.
  { unfold st0. cbn [fst]. split; [ apply repeat_length | ].
    apply Forall_forall. intros c Hc. apply repeat_spec in Hc. subst c.
    split; [ apply repeat_length | ].
    apply Forall_forall. intros x Hx. apply repeat_spec in Hx. subst x.
    apply scaled_zero. }
  assert (valid_index (Z.of_nat n) (length (region self)) (snd (fst st0))) as Hv0.
  { unfold st0. cbn [fst snd]. apply valid_index_zeros. lia. }
  destruct Hinv as [Hlb [Hlw [Hb Hw]]].
  pose proof (train_loop_inv func rand_rand self n bins Hb Hlb cpb
                (Z.to_nat total_bins) st0 H0 Hv0 ltac:(lia)) as [[Hld Hd] _].
  rewrite <- En in Hld, Hd.
  match type of Hld with
  | context [Nat.iter ?k ?f ?s] => destruct (Nat.iter k f s) as [[distrib selected] pos']
  end.
  cbn [fst snd] in *.
  apply (resize_grid_inv n (length (region self)) alpha bins weights distrib Ha).
  - repeat split; auto.
  - exact Hld.
  - apply Forall_forall. intros c Hc.
    destruct (proj1 (Forall_forall _ _) Hd c Hc) as [Hl Hs].
    split; [ exact Hl | apply (scaled_sign _ _ Hs) ].
Qed.

(** Training never raises once it has started, and its tables stay well
    formed after every epoch. *)
Lemma train_epochs_inv func rand_rand self bin_num total_bins cpb alpha epochs :
  0 < alpha -> (1 <= bin_num)%Z ->
  forall bins weights pos,
    tables_inv (Z.to_nat bin_num) (length (region self)) bins weights ->
    exists bins' weights' pos',
      train_epochs func rand_rand self bin_num (length (region self)) total_bins cpb
        alpha epochs bins weights pos = (Ok (bins', weights'), pos')
      /\ tables_inv (Z.to_nat bin_num) (length (region self)) bins' weights'.
Proof.
  intros Ha Hn. induction epochs as [|k IH]; intros bins weights pos Hinv.
  - exists bins, weights, pos. split; [ reflexivity | exact Hinv ].
  - cbn [train_epochs].
    destruct (train_epoch_inv func rand_rand self bin_num total_bins cpb alpha
                bins weights pos Ha Hn Hinv) as [b [w [E Hinv']]].
    destruct (train_epoch _ _ _ _ _ _ _ _ _ _ _) as [r p]. cbn [fst] in E. subst r.
    apply IH. exact Hinv'.
Qed.

(** The grid a completed [prepare_grid] commits. *)
Lemma prepare_grid_commits func rand_rand self n epochs cpe alpha :
  fst (prepare_grid func rand_rand self n epochs cpe alpha) = Ok tt ->
  (1 <= n)%Z /\
  exists b pos,
    snd (prepare_grid func rand_rand self n epochs cpe alpha)
    = mkVegas (region self) (length (region self)) pos (Some n) (Some b)
    /\ length b = length (region self)
    /\ Forall (column_inv (Z.to_nat n)) b.
Proof.
  intros Hok.
  destruct (prepare_grid_ok_inv _ _ _ _ _ _ _ Hok)
    as [Ha [Hn [b0 [w0 [b [w [pos [Hi [Ht Hs]]]]]]]]].
  assert (0 < alpha) as Hpos.
  { assert (0 <= eps) by (unfold Qle; vm_compute; discriminate). lra. }
  destruct (initial_tables_inv n _ b0 w0 ltac:(lia) Hi) as [Hinv0 _].
  destruct (train_epochs_inv func rand_rand self n
              (n ^ Z.of_nat (length (region self)))
              (train_calls_per_bin cpe (n ^ Z.of_nat (length (region self))))
              alpha (Z.to_nat epochs) Hpos ltac:(lia) b0 w0 (rand self) Hinv0)
    as [b' [w' [pos' [Ht' [Hlb [_ [Hb _]]]]]]].
  rewrite Ht in Ht'. inversion Ht'; subst b' w' pos'.
  split; [ lia | ]. exists b, pos. auto.
Qed.

Lemma resize_columns_nth grid :
  forall combined g',
    resize_columns grid combined = Ok g' ->
    length g' = length grid
    /\ forall d, (d < length grid)%nat ->
         nth d g' [] = resize_bins 0 (nth d combined []) (nth d grid [])
         /\ (length (nth d combined []) <= length (nth d grid []))%nat.
Proof.
  induction grid as [|g grid IH]; intros combined g' H; simpl in H.
  - inversion H; subst. split; [ reflexivity | intros d Hd; simpl in Hd; lia ].
  - destruct combined as [|ws combined]; [ discriminate | ].
    destruct (length ws <=? length g)%nat eqn:E; [ | discriminate ].
    destruct (resize_columns grid combined) as [rest|e] eqn:Er; [ | discriminate ].
    inversion H; subst g'. destruct (IH combined rest Er) as [Hl Hd].
    split; [ simpl; lia | ].
    intros d Hd'. destruct d as [|d]; simpl.
    + split; [ reflexivity | apply Nat.leb_le; exact E ].
    + apply Hd. simpl in Hd'. lia.
Qed.

(** [resize_grid] leaves every row past the weights as it was. *)
Lemma resize_grid_rows_kept grid old_weights subintegrals alpha g' w' :
  resize_grid grid old_weights subintegrals alpha = Ok (g', w') ->
  forall d i, (length (nth d w' []) <= i)%nat -> at2 g' i d = at2 grid i d.
Proof.
  intros H d i Hi. destruct (resize_grid_weights _ _ _ _ _ _ H) as [_ Hc].
  destruct (resize_columns_nth grid w' g' Hc) as [Hl Hd]. unfold at2.
  destruct (Nat.lt_ge_cases d (length grid)) as [Hlt|Hge].
  - destruct (Hd d Hlt) as [E Hle]. rewrite E.
    apply (proj2 (proj2 (resize_bins_spec _ _ Hle))). exact Hi.
  - rewrite !(nth_overflow _ []) by lia. reflexivity.
Qed.

(** ** The trained grid *)

(** The trained grid in exact arithmetic.  After a completed
    [prepare_grid] the object holds [bin_num >= 1] and a grid with one
    column per dimension; in every column the edges
    [bins[0], ..., bins[bin_num - 1]] are non-decreasing, each lies in
    [(0, 1]], and the last one equals 1.  The code agrees with this for as
    long as no weight overflows or underflows; the section on overflow and
    underflow below has a training that runs past that point. *)
Lemma trained_edges_exact func rand_rand self n epochs cpe alpha :
  fst (prepare_grid func rand_rand self n epochs cpe alpha) = Ok tt ->
  exists b,
    bins (snd (prepare_grid func rand_rand self n epochs cpe alpha)) = Some b
    /\ bin_num (snd (prepare_grid func rand_rand self n epochs cpe alpha)) = Some n
    /\ (1 <= n)%Z
    /\ length b = length (region self)
    /\ forall d, (d < length (region self))%nat ->
         edges_monotone (Z.to_nat n) (nth d b [])
         /\ (forall i, (i < Z.to_nat n)%nat -> 0 < at2 b i d <= 1)
         /\ at2 b (Z.to_nat n - 1) d == 1.
Proof.
  intros Hok.
  destruct (prepare_grid_commits _ _ _ _ _ _ _ Hok) as [Hn [b [pos [Hs [Hl Hb]]]]].
  exists b. rewrite Hs. cbn [bins bin_num].
  split; [ reflexivity | ]. split; [ reflexivity | ]. split; [ exact Hn | ].
  split; [ exact Hl | ].
  intros d Hd.
  assert (column_inv (Z.to_nat n) (nth d b [])) as [_ [_ [Hm [Hu Hlast]]]].
  { apply (proj1 (Forall_forall _ _) Hb). apply nth_In. lia. }
  split; [ exact Hm | ]. split; [ exact Hu | exact Hlast ].
Qed.

(** C10.  The extra last row of the edge table is never written:
    [resize_grid] leaves every row from [len(combined_weights)] on as it was,
    and after a completed [prepare_grid], whatever the number of epochs, row
    [bin_num] is 0 in every dimension, so that the lower bound the region
    mapper reads there for bin 0 is the region's lower bound plus 0 times
    its extent. *)
Theorem sentinel_row_stays_zero func rand_rand :
  (forall grid old_weights subintegrals alpha g' w',
      resize_grid grid old_weights subintegrals alpha = Ok (g', w') ->
      forall d i, (length (nth d w' []) <= i)%nat -> at2 g' i d = at2 grid i d)
  /\ (forall self n epochs cpe alpha,
        fst (prepare_grid func rand_rand self n epochs cpe alpha) = Ok tt ->
        let self' := snd (prepare_grid func rand_rand self n epochs cpe alpha) in
        exists b,
          bins self' = Some b
          /\ forall d, (d < length (region self))%nat ->
               length (nth d b []) = S (Z.to_nat n)
               /\ at2 b (Z.to_nat n) d = 0
               /\ forall indices,
                    valid_index n (length (region self)) indices ->
                    nth d indices 0%Z = 0%Z ->
                    let r := nth d (region self) (0, 0) in
                    fst (nth d (get_selected_subregion self' b indices) (0, 0))
                    = fst r + 0 * (snd r - fst r)).
Proof.
  split; [ exact resize_grid_rows_kept | ].
  intros self n epochs cpe alpha Hok self'.
  destruct (prepare_grid_commits _ _ _ _ _ _ _ Hok) as [Hn [b [pos [Hs [Hl Hb]]]]].
  exists b. unfold self'. rewrite Hs. cbn [bins].
  split; [ reflexivity | ].
  intros d Hd.
  assert (forall k, (k < length (region self))%nat ->
            column_inv (Z.to_nat n) (nth k b [])) as Hcol.
  { intros k Hk. apply (proj1 (Forall_forall _ _) Hb). apply nth_In. lia. }
  destruct (Hcol d Hd) as [Hlen [Hsent _]].
  split; [ exact Hlen | ]. split; [ exact Hsent | ].
  intros indices Hv H0. cbv zeta.
  unfold get_selected_subregion, cython_get_selected_region. cbn [region].
  rewrite (selected_region_dim (region self) b indices (Z.to_nat n) d).
  - rewrite H0. cbn [Z.to_nat fst]. rewrite Hsent. reflexivity.
  - destruct Hv. lia.
  - unfold shape0. destruct b as [|g rest]; [ simpl in Hl; lia | ].
    exact (proj1 (Hcol 0%nat ltac:(lia))).
  - exact Hlen.
  - rewrite H0. lia.
Qed.

Lemma sentinel_row_stays_zero_witness :
  exists b,
    bins (snd (prepare_grid grow centre_rand model1 2 1 8 1)) = Some b
    /\ at2 b 2 0 = 0.
Proof.
  destruct (proj2 (sentinel_row_stays_zero grow centre_rand) model1 2%Z 1%Z 8%Z 1)
    as [b [Hb H]].
  - vm_compute. reflexivity.
  - exists b. split; [ exact Hb | ].
    exact (proj1 (proj2 (H 0%nat ltac:(simpl; lia)))).
Defined.

(** ** The start of training in binary64 *)

(** C9 at 49 bins.  [np.arange(1/49, 1 + 1/49, 1/49)] has 50 entries in
    binary64, so [vals] has 51 and the assignment to a column of 50 rows
    raises: [prepare_grid] with 49 bins per dimension commits no grid, for
    any number of epochs. *)
Theorem uniform_start_fails_at_49_bins func rand_rand epochs cpe :
  Binary64.uniform_edges_length 49 = Some 50%Z
  /\ prepare_grid func rand_rand model2 49 epochs cpe 1 = (Raise ValueError, model2).
Proof.
  split; [ vm_compute; reflexivity | ].
  unfold prepare_grid.
  replace (Qle_bool 1 eps) with false by (vm_compute; reflexivity).
  replace (49 <? 0)%Z with false by reflexivity.
  replace (2 ^ 53 <=? 49)%Z with false by reflexivity.
  replace (49 =? 0)%Z with false by reflexivity.
  replace (initial_tables 49 (length (region model2))) with (@Raise (table * table) ValueError)
    by (vm_compute; reflexivity).
  reflexivity.
Qed.

(** ** Overflow and underflow in the grid computation *)

(** C2 in binary64.  With the old weights [[0.5, 0.5]] (positive, summing
    to 1 exactly) and non-negative subintegrals, [resize_grid] returns
    weights that are nan, so that the column sums to 1 within no tolerance,
    and writes nan edges from them:
    - for the subintegrals [[2.0**-1020, 0.0]] and [alpha = 2.0**-10], the
      mean is not 0 and is kept; [alpha*mean] is the subnormal
      [2.0**-1031], whose reciprocal overflows to inf, so the column sum of
      [rel_weights] is inf and inf/inf is nan;
    - for the subintegrals [[2.0**1023, 2.0**1023]] and [alpha = 1], the
      column sum overflows, the mean is inf, every raw weight is
      [1/inf = 0], and their sum, which they are divided by, is 0. *)
Theorem resize_grid_nan_weights :
  let half := Float64.of_pow2 1 (-1) in
  let tiny := Float64.of_pow2 1 (-1020) in
  let huge := Float64.of_pow2 1 1023 in
  let grid := [[half; Float64.one; Float64.zero]] in
  let nan_tables :=
    ([[Float64.nan; Float64.nan; Float64.zero]], [[Float64.nan; Float64.nan]]) in
  Float64.sums_to_one Float64.zero [half; half] = true
  /\ Float64.eqb (Float64.np_mean [tiny; Float64.zero]) Float64.zero = false
  /\ nth 1 (Float64.rel_weights_raw (Float64.of_pow2 1 (-10)) [tiny; Float64.zero])
         Float64.zero
     = S754_infinity false
  /\ Float64.resize_grid grid [[half; half]] [[tiny; Float64.zero]]
       (Float64.of_pow2 1 (-10))
     = Ok nan_tables
  /\ Float64.np_sum (Float64.rel_weights_raw Float64.one [huge; huge]) = Float64.zero
  /\ Float64.resize_grid grid [[half; half]] [[huge; huge]] Float64.one = Ok nan_tables
  /\ forall tol, Float64.sums_to_one tol [Float64.nan; Float64.nan] = false.
Proof.
  cbv zeta. repeat (split; [ vm_compute; reflexivity | ]).
  intros tol. reflexivity.
Qed.

(** C1 in binary64.  On the region [[0, 2]] with two bins, the integrand
    [1.0 if v[0] < 1 else 0.0], a generator that always returns 0.5, four
    calls per epoch and [alpha = 0.001], every epoch finds all the
    importance in bin 0 and divides its weight by about 2000.  After 93
    epochs the first edge is near [9.6e-308]; in epoch 94 [alpha*mean]
    underflows as above, the weights come out nan, and the call goes on:
    with 100 epochs, the default, [prepare_grid] completes and commits
    edges that are nan, which are neither ordered nor in [(0, 1]], and the
    last of which is not 1, within any tolerance. *)
Theorem prepare_grid_commits_nan_edges :
  let alpha := Float64.div (Float64.of_int 1) (Float64.of_int 1000) in
  let region := [(Float64.zero, Float64.of_int 2)] in
  Float64.prepare_grid Float64.step_integrand Float64.centre_rand region 0 2 93 4 alpha
  = (Ok [[Float64.of_pow2 4877262254731518 (-1072); Float64.one; Float64.zero]],
     372%nat)
  /\ Float64.prepare_grid Float64.step_integrand Float64.centre_rand region 0 2 100 4 alpha
     = (Ok [[Float64.nan; Float64.nan; Float64.zero]], 400%nat)
  /\ forall tol,
       Float64.edges_ok tol 2 [Float64.nan; Float64.nan; Float64.zero] = false.
Proof.
  cbv zeta. split; [ vm_compute; reflexivity | ].
  split; [ vm_compute; reflexivity | ].
  intros tol. reflexivity.
Qed.

(** ** The estimate of [integrate] *)

Section Estimate.

Variable func : list Q -> Q.
Variable rand_rand : nat -> nat -> list Q.

Lemma sample_loop_sum post dims zone vol cpb steps :
  forall acc pos,
    fst (sample_loop func rand_rand post dims zone vol cpb steps acc pos)
    == acc + np_sum (map (fun s =>
                            vol * post (func (sample_point zone
                                                (rand_rand (pos + s)%nat dims)))
                            / inject_Z cpb)
                         (seq 0 steps)).
Proof.
  induction steps as [|k IH]; intros acc pos.
  - simpl. unfold np_sum. simpl. ring.
  - cbn [sample_loop]. rewrite IH.
    change (seq 0 (S k)) with (0%nat :: seq 1 k).
    rewrite <- seq_shift. cbn [map]. rewrite map_map, np_sum_cons.
    rewrite Nat.add_0_r.
    rewrite (map_ext (fun x => vol * post (func (sample_point zone
                                                   (rand_rand (pos + S x)%nat dims)))
                               / inject_Z cpb)
                     (fun s => vol * post (func (sample_point zone
                                                   (rand_rand (S pos + s)%nat dims)))
                               / inject_Z cpb)).
    + ring.
    + intros a. replace (pos + S a)%nat with (S pos + a)%nat by lia. reflexivity.
Qed.

Variable self : Vegas.
Variable bins_ : table.
Variable bin_num_ : Z.
Variable dims : nat.
Variable cpb : Z.

Lemma integrate_bin_loop k pos :
  snd (fst (Nat.iter k (integrate_bin func rand_rand self bins_ bin_num_ dims cpb)
              (0, np_zeros_int dims, pos)))
  = advance bin_num_ k (np_zeros_int dims)
  /\ snd (Nat.iter k (integrate_bin func rand_rand self bins_ bin_num_ dims cpb)
            (0, np_zeros_int dims, pos))
     = (pos + k * Z.to_nat cpb)%nat
  /\ fst (fst (Nat.iter k (integrate_bin func rand_rand self bins_ bin_num_ dims cpb)
                 (0, np_zeros_int dims, pos)))
     == np_sum (map (fun j =>
                       bin_estimate func rand_rand self bins_ dims cpb
                         (advance bin_num_ j (np_zeros_int dims))
                         (pos + j * Z.to_nat cpb)%nat)
                    (seq 0 k)).
Proof.
  induction k as [|k [IHi [IHp IHs]]].
  - simpl. split; [ reflexivity | ]. split; [ lia | reflexivity ].
  - set (f := integrate_bin func rand_rand self bins_ bin_num_ dims cpb) in *.
    change (Nat.iter (S k) f (0, np_zeros_int dims, pos))
      with (f (Nat.iter k f (0, np_zeros_int dims, pos))).
    destruct (Nat.iter k f (0, np_zeros_int dims, pos)) as [[integral selected] p].
    cbn [fst snd] in *. subst selected p. unfold f, integrate_bin.
    match goal with
    | |- context [sample_loop ?f ?r ?p ?d ?z ?v ?c ?s ?a ?q] =>
        pose proof (sample_loop_sum p d z v c s a q) as Hsum;
        pose proof (sample_loop_pos f r p d z v c s a q) as Hpos;
        destruct (sample_loop f r p d z v c s a q) as [li p']
    end.
    cbn [fst snd] in *. split; [ reflexivity | ]. split; [ lia | ].
    rewrite seq_S, map_app, np_sum_app. cbn [map]. rewrite np_sum_singleton.
    rewrite IHs, Hsum. unfold bin_estimate. cbn [Nat.add]. ring.
Qed.

Lemma evaluation_is_sum total_bins pos :
  fst (evaluation func rand_rand self bins_ bin_num_ dims cpb total_bins pos)
  == evaluation_sum func rand_rand self bins_ bin_num_ dims cpb total_bins pos.
Proof.
  unfold evaluation, evaluation_sum.
  pose proof (integrate_bin_loop (Z.to_nat total_bins) pos) as [_ [_ H]].
  destruct (Nat.iter _ _ _) as [[integral selected] p]. exact H.
Qed.

Lemma evaluations_loop_sums total_bins times :
  forall evaluations pos,
  exists new,
    fst (evaluations_loop func rand_rand self bins_ bin_num_ dims cpb total_bins
           times evaluations pos) = evaluations ++ new
    /\ Forall2 Qeq new
         (map (fun j =>
                 evaluation_sum func rand_rand self bins_ bin_num_ dims cpb total_bins
                   (pos + j * (Z.to_nat total_bins * Z.to_nat cpb))%nat)
              (seq 0 times)).
Proof.
  induction times as [|k IH]; intros evaluations pos.
  - exists []. simpl. rewrite app_nil_r. split; [ reflexivity | constructor ].
  - cbn [evaluations_loop].
    pose proof (evaluation_is_sum total_bins pos) as He.
    pose proof (evaluation_pos func rand_rand self bins_ bin_num_ dims cpb
                  total_bins pos) as Hp.
    destruct (evaluation _ _ _ _ _ _ _ _ _) as [integral p]. cbn [fst snd] in *.
    destruct (IH (evaluations ++ [integral]) p) as [new [E F]].
    exists (integral :: new). split.
    + rewrite E, <- app_assoc. reflexivity.
    + change (seq 0 (S k)) with (0%nat :: seq 1 k).
      rewrite <- seq_shift. cbn [map]. rewrite map_map. constructor.
      * rewrite Nat.mul_0_l, Nat.add_0_r. exact He.
      * rewrite (map_ext _ (fun j =>
           evaluation_sum func rand_rand self bins_ bin_num_ dims cpb total_bins
             (p + j * (Z.to_nat total_bins * Z.to_nat cpb))%nat)); [ exact F | ].
        intros j. f_equal. subst p. lia.
Qed.

End Estimate.



(** ** When training completes, and what a failed call leaves *)

Lemma eps_nonneg : 0 <= eps.
Proof. unfold Qle. vm_compute. discriminate. Qed.

Lemma initial_tables_ok n dims :
  (1 <= n)%Z ->
  (exists len, Binary64.uniform_edges_length n = Some len /\ Z.to_nat len = Z.to_nat n) ->
  exists b0 w0, initial_tables n dims = Ok (b0, w0).
Proof.
  intros Hn [len [E Hlen]]. unfold initial_tables, uniform_edges. rewrite E.
  match goal with
  | |- context [if ?c then _ else _] => replace c with false
  end.
  - eexists. eexists. reflexivity.
  - symmetry. apply andb_false_iff. right. apply negb_false_iff, Nat.eqb_eq.
    rewrite length_app, length_map, length_seq. simpl. lia.
Qed.

Lemma prepare_grid_completes_iff_aux func rand_rand self n epochs cpe alpha :
  (0 < length (region self))%nat ->
  fst (prepare_grid func rand_rand self n epochs cpe alpha) = Ok tt
  <-> eps < alpha /\ (1 <= n < 2 ^ 53)%Z
      /\ exists len, Binary64.uniform_edges_length n = Some len
                     /\ Z.to_nat len = Z.to_nat n.
Proof.
  intros Hdims. split.
  - intros Hok.
    destruct (prepare_grid_ok_inv _ _ _ _ _ _ _ Hok)
      as [Ha [Hn [b0 [w0 [b [w [pos [Hi _]]]]]]]].
    split; [ exact Ha | ]. split; [ exact Hn | ].
    unfold initial_tables, uniform_edges in Hi.
    destruct (Binary64.uniform_edges_length n) as [len|]; [ | discriminate ].
    exists len. split; [ reflexivity | ].
    match type of Hi with
    | context [if ?c then _ else _] => destruct c eqn:E; [ discriminate | ]
    end.
    apply andb_false_iff in E. destruct E as [E|E].
    + apply Nat.ltb_ge in E. lia.
    + apply negb_false_iff, Nat.eqb_eq in E.
      rewrite length_app, length_map, length_seq in E. simpl in E. lia.
  - intros [Ha [Hn Hlen]].
    destruct (initial_tables_ok n (length (region self)) ltac:(lia) Hlen)
      as [b0 [w0 Hi]].
    destruct (initial_tables_inv n _ b0 w0 ltac:(lia) Hi) as [Hinv0 _].
    assert (0 < alpha) as Hpos by (pose proof eps_nonneg; lra).
    destruct (train_epochs_inv func rand_rand self n
                (n ^ Z.of_nat (length (region self)))
                (train_calls_per_bin cpe (n ^ Z.of_nat (length (region self))))
                alpha (Z.to_nat epochs) Hpos ltac:(lia) b0 w0 (rand self) Hinv0)
      as [b [w [pos [Ht _]]]].
    unfold prepare_grid.
    replace (Qle_bool alpha eps) with false.
    + replace (n <? 0)%Z with false by (symmetry; apply Z.ltb_ge; lia).
      replace (2 ^ 53 <=? n)%Z with false by (symmetry; apply Z.leb_gt; lia).
      replace (n =? 0)%Z with false by (symmetry; apply Z.eqb_neq; lia).
      rewrite Hi, Ht. reflexivity.
    + symmetry. destruct (Qle_bool alpha eps) eqn:E; [ | reflexivity ].
      apply Qle_bool_iff in E. lra.
Qed.

(** X1.  For an object with at least one dimension, [prepare_grid]
    completes exactly when [alpha] exceeds the machine epsilon,
    [1 <= bins_per_dimension < 2^53] and the binary64 length of the
    [np.arange] of the start equals [bins_per_dimension]: once the tables of
    the start exist, no epoch raises, whatever the integrand returns and
    whatever the numbers of epochs and calls are. *)
Theorem prepare_grid_completes_iff func rand_rand self n epochs cpe alpha :
  (0 < length (region self))%nat ->
  fst (prepare_grid func rand_rand self n epochs cpe alpha) = Ok tt
  <-> eps < alpha /\ (1 <= n < 2 ^ 53)%Z
      /\ exists len, Binary64.uniform_edges_length n = Some len
                     /\ Z.to_nat len = Z.to_nat n.
Proof.
  apply prepare_grid_completes_iff_aux.
Qed.

Lemma prepare_grid_completes_iff_witness :
  fst (prepare_grid grow centre_rand model2 50 100 2500 1) = Ok tt.
Proof.
  apply (proj2 (prepare_grid_completes_iff grow centre_rand model2 50 100 2500 1
                  ltac:(simpl; lia))).
  split; [ unfold Qlt; vm_compute; reflexivity | ].
  split; [ lia | ].
  exists 50%Z. split; [ vm_compute; reflexivity | reflexivity ].
Defined.

(** X2.  With an accepted [alpha], [prepare_grid] raises ZeroDivisionError
    for 0 bins per dimension (at [1/bin_num]) and ValueError for a negative
    number (at [np.empty]); the object is left as it was. *)
Theorem prepare_grid_rejects_bad_bin_count func rand_rand self n epochs cpe alpha :
  eps < alpha ->
  (n = 0%Z ->
   prepare_grid func rand_rand self n epochs cpe alpha = (Raise ZeroDivisionError, self))
  /\ ((n < 0)%Z ->
      prepare_grid func rand_rand self n epochs cpe alpha = (Raise ValueError, self)).
Proof.
  intros Ha.
  assert (Qle_bool alpha eps = false) as Ea.
  { destruct (Qle_bool alpha eps) eqn:E; [ | reflexivity ].
    apply Qle_bool_iff in E. lra. }
  unfold prepare_grid. rewrite Ea. split.
  - intros ->. reflexivity.
  - intros Hn. replace (n <? 0)%Z with true by (symmetry; apply Z.ltb_lt; lia).
    reflexivity.
Qed.

Lemma prepare_grid_rejects_bad_bin_count_witness :
  prepare_grid grow centre_rand model2 0 100 2500 1 = (Raise ZeroDivisionError, model2).
Proof.
  apply (proj1 (prepare_grid_rejects_bad_bin_count grow centre_rand model2 0 100 2500 1
                  ltac:(unfold Qlt; vm_compute; reflexivity))).
  reflexivity.
Defined.

(** X3.  A call of [prepare_grid] that raises leaves the whole object as it
    was: no grid is committed, and no vector has been drawn. *)
Theorem prepare_grid_all_or_nothing func rand_rand self n epochs cpe alpha e :
  fst (prepare_grid func rand_rand self n epochs cpe alpha) = Raise e ->
  snd (prepare_grid func rand_rand self n epochs cpe alpha) = self.
Proof.
  unfold prepare_grid.
  destruct (Qle_bool alpha eps) eqn:Ea; [ reflexivity | ].
  destruct (n <? 0)%Z eqn:En; [ reflexivity | ].
  destruct (2 ^ 53 <=? n)%Z eqn:Em; [ reflexivity | ].
  destruct (n =? 0)%Z eqn:Ez; [ reflexivity | ].
  destruct (initial_tables n (length (region self))) as [[b0 w0]|e0] eqn:Ei;
    [ | reflexivity ].
  assert (1 <= n)%Z as Hn by lia.
  assert (0 < alpha) as Hpos.
  { pose proof eps_nonneg. apply Qnot_le_lt. intros Hle.
    assert (alpha <= eps) as H' by lra. apply Qle_bool_iff in H'. congruence. }
  destruct (initial_tables_inv n _ b0 w0 Hn Ei) as [Hinv0 _].
  destruct (train_epochs_inv func rand_rand self n
              (n ^ Z.of_nat (length (region self)))
              (train_calls_per_bin cpe (n ^ Z.of_nat (length (region self))))
              alpha (Z.to_nat epochs) Hpos Hn b0 w0 (rand self) Hinv0)
    as [b [w [pos [Ht _]]]].
  rewrite Ht. discriminate.
Qed.

Lemma prepare_grid_all_or_nothing_witness :
  snd (prepare_grid grow centre_rand trained1 49 100 2500 1) = trained1.
Proof.
  apply (prepare_grid_all_or_nothing grow centre_rand trained1 49 100 2500 1 ValueError).
  unfold prepare_grid.
  replace (Qle_bool 1 eps) with false by (vm_compute; reflexivity).
  replace (initial_tables 49 (length (region trained1)))
    with (@Raise (table * table) ValueError) by (vm_compute; reflexivity).
  reflexivity.
Defined.

(** ** How the two phases compose *)

Lemma integrate_keeps_grid_aux func rand_rand pow_half self times num :
  region (snd (integrate func rand_rand pow_half self times num)) = region self
  /\ dimensions (snd (integrate func rand_rand pow_half self times num)) = dimensions self
  /\ bin_num (snd (integrate func rand_rand pow_half self times num)) = bin_num self
  /\ bins (snd (integrate func rand_rand pow_half self times num)) = bins self
  /\ (rand self <= rand (snd (integrate func rand_rand pow_half self times num)))%nat.
Proof.
  unfold integrate.
  destruct ((times <=? 0)%Z || (num <=? 0)%Z); [ simpl; repeat split; lia | ].
  destruct (bins self) as [b|] eqn:Eb; [ | simpl; repeat split; auto; lia ].
  destruct (bin_num self) as [bn|] eqn:En; [ | simpl; repeat split; auto; lia ].
  destruct (bn ^ Z.of_nat (dimensions self) =? 0)%Z;
    [ simpl; repeat split; auto; lia | ].
  match goal with
  | |- context [evaluations_loop ?f ?r ?s ?b ?n ?d ?c ?t ?k ?e ?p] =>
      destruct (evaluations_loop_spec f r s b n d c t k e p) as [_ Hp];
      destruct (evaluations_loop f r s b n d c t k e p) as [evaluations pos]
  end.
  simpl in *. repeat split; auto. lia.
Qed.

(** X4.  [integrate] never touches the trained state: whatever the call
    returns, region, dimensions, [bin_num] and [bins] are as before, and the
    position in the random sequence has not moved back. *)
Theorem integrate_keeps_grid func rand_rand pow_half self times num :
  let self' := snd (integrate func rand_rand pow_half self times num) in
  region self' = region self /\ dimensions self' = dimensions self
  /\ bin_num self' = bin_num self /\ bins self' = bins self
  /\ (rand self <= rand self')%nat.
Proof.
  intros self'. apply integrate_keeps_grid_aux.
Qed.

(** X5.  After a completed [prepare_grid], [integrate] with positive
    parameters returns a result, and so does every later call of it. *)
Theorem integrate_after_training func rand_rand pow_half self n epochs cpe alpha :
  fst (prepare_grid func rand_rand self n epochs cpe alpha) = Ok tt ->
  forall times num, (0 < times)%Z -> (0 < num)%Z ->
    let trained := snd (prepare_grid func rand_rand self n epochs cpe alpha) in
    (exists r, fst (integrate func rand_rand pow_half trained times num) = Ok r)
    /\ forall times' num', (0 < times')%Z -> (0 < num')%Z ->
         exists r',
           fst (integrate func rand_rand pow_half
                  (snd (integrate func rand_rand pow_half trained times num))
                  times' num') = Ok r'.
Proof.
  intros Hok times num Ht Hnum trained.
  destruct (prepare_grid_commits _ _ _ _ _ _ _ Hok) as [Hn [b [pos [Hs _]]]].
  assert (forall m t c, (0 < t)%Z -> (0 < c)%Z ->
            bins m = Some b -> bin_num m = Some n ->
            dimensions m = length (region self) ->
            exists r, fst (integrate func rand_rand pow_half m t c) = Ok r) as Hrun.
  { intros m t c Ht' Hc Hb Hbn Hd. unfold integrate.
    replace ((t <=? 0)%Z || (c <=? 0)%Z) with false
      by (symmetry; apply orb_false_iff; split; apply Z.leb_gt; lia).
    rewrite Hb, Hbn, Hd.
    assert (0 < n ^ Z.of_nat (length (region self)))%Z as Hp
        by (apply Z.pow_pos_nonneg; lia).
    replace (n ^ Z.of_nat (length (region self)) =? 0)%Z with false
      by (symmetry; apply Z.eqb_neq; lia).
    destruct (evaluations_loop _ _ _ _ _ _ _ _ _ _ _) as [evaluations p].
    eexists. reflexivity. }
  split.
  - apply Hrun; auto; unfold trained; rewrite Hs; reflexivity.
  - intros times' num' Ht' Hnum'.
    destruct (integrate_keeps_grid_aux func rand_rand pow_half trained times num)
      as [_ [Hd [Hbn [Hb _]]]].
    apply Hrun; auto.
    + rewrite Hb. unfold trained. rewrite Hs. reflexivity.
    + rewrite Hbn. unfold trained. rewrite Hs. reflexivity.
    + rewrite Hd. unfold trained. rewrite Hs. reflexivity.
Qed.

Lemma integrate_after_training_witness :
  exists r,
    fst (integrate grow centre_rand heron
           (snd (prepare_grid grow centre_rand model1 2 1 8 1)) 1 4) = Ok r.
Proof.
  refine (proj1 (integrate_after_training grow centre_rand heron model1 2%Z 1%Z 8%Z 1
                   _ 1%Z 4%Z _ _)).
  - vm_compute. reflexivity.
  - lia.
  - lia.
Defined.

(** ** More on the enumerator *)

Open Scope Z_scope.

(** X6.  For [limit >= 1], [get_next_index] is a bijection of the index
    vectors of [[0, limit)^dims]: it keeps a valid vector valid, sends
    different valid vectors to different ones, and reaches every valid
    vector. *)
Theorem get_next_index_bijective limit dims :
  1 <= limit ->
  (forall v, valid_index limit dims v -> valid_index limit dims (get_next_index v limit))
  /\ (forall v w, valid_index limit dims v -> valid_index limit dims w ->
        get_next_index v limit = get_next_index w limit -> v = w)
  /\ (forall w, valid_index limit dims w ->
        exists v, valid_index limit dims v /\ get_next_index v limit = w).
Proof.
  intros Hl.
  assert (0 < limit ^ Z.of_nat dims) as Hp by (apply Z.pow_pos_nonneg; lia).
  split; [ intros v; apply get_next_index_valid; exact Hl | ]. split.
  - intros v w Hv Hw E.
    apply (f_equal (index_value limit)) in E.
    rewrite !(get_next_index_value limit Hl dims) in E by assumption.
    pose proof (index_value_bound limit Hl dims v Hv) as Bv.
    pose proof (index_value_bound limit Hl dims w Hw) as Bw.
    apply (index_value_inj limit Hl dims); auto.
    destruct (Z.eq_dec (index_value limit v + 1) (limit ^ Z.of_nat dims)) as [Ev|Nv];
      destruct (Z.eq_dec (index_value limit w + 1) (limit ^ Z.of_nat dims)) as [Ew|Nw].
    + lia.
    + rewrite Ev, Z.mod_same in E by lia. rewrite Z.mod_small in E by lia. lia.
    + rewrite Ew, Z.mod_same in E by lia. rewrite Z.mod_small in E by lia. lia.
    + rewrite !Z.mod_small in E by lia. lia.
  - intros w Hw.
    pose proof (index_value_bound limit Hl dims w Hw) as Bw.
    set (total := Z.to_nat (limit ^ Z.of_nat dims)).
    set (k := Z.to_nat ((index_value limit w - 1) mod limit ^ Z.of_nat dims)).
    pose proof (Z.mod_pos_bound (index_value limit w - 1) (limit ^ Z.of_nat dims) Hp) as Bk.
    exists (advance limit k (np_zeros_int dims)). split.
    + apply advance_valid. exact Hl.
    + apply (index_value_inj limit Hl dims); auto.
      * apply get_next_index_valid; [ exact Hl | apply advance_valid; exact Hl ].
      * rewrite (get_next_index_value limit Hl dims) by (apply advance_valid; exact Hl).
        rewrite advance_value by exact Hl. unfold k. rewrite Z2Nat.id by lia.
        rewrite Z.mod_mod by lia. rewrite Z.add_mod_idemp_l by lia.
        replace (index_value limit w - 1 + 1) with (index_value limit w) by lia.
        apply Z.mod_small. lia.
Qed.

Lemma get_next_index_bijective_witness :
  valid_index 3 2 (get_next_index [2; 1] 3).
Proof.
  apply (proj1 (get_next_index_bijective 3 2 ltac:(lia))).
  split; [ reflexivity | ]. repeat constructor; lia.
Defined.

Open Scope Q_scope.

(** ** More on [resize_grid] *)

Lemma resize_grid_running_sums grid old_weights subintegrals alpha g' w' :
  resize_grid grid old_weights subintegrals alpha = Ok (g', w') ->
  length g' = length grid
  /\ forall d, (d < length grid)%nat ->
       length (nth d g' []) = length (nth d grid [])
       /\ (forall k, (k < length (nth d w' []))%nat ->
             at2 g' k d
             == at2 grid (length (nth d grid []) - 1) d
                + np_sum (firstn (S k) (nth d w' []))).
Proof.
  intros H. destruct (resize_grid_weights _ _ _ _ _ _ H) as [_ Hc].
  destruct (resize_columns_nth grid w' g' Hc) as [Hl Hd].
  split; [ exact Hl | ]. intros d Hlt.
  destruct (Hd d Hlt) as [E Hle]. unfold at2. rewrite E.
  destruct (resize_bins_spec _ _ Hle) as [Hlen [Hk _]].
  split; [ exact Hlen | exact Hk ].
Qed.

(** X7.  A call of [resize_grid] that returns keeps the shape of the grid,
    and in every dimension the new edges are the running sums of the
    returned weights on top of the old last row: the first write reads row
    [-1], every later one the edge written just before, so that edge [k] is
    the old last row plus the first [k + 1] weights (up to rounding). *)
Theorem resize_grid_edges_are_running_sums grid old_weights subintegrals alpha g' w' :
  resize_grid grid old_weights subintegrals alpha = Ok (g', w') ->
  length g' = length grid
  /\ forall d, (d < length grid)%nat ->
       length (nth d g' []) = length (nth d grid [])
       /\ (forall k, (k < length (nth d w' []))%nat ->
             at2 g' k d
             == at2 grid (length (nth d grid []) - 1) d
                + np_sum (firstn (S k) (nth d w' []))).
Proof.
  apply resize_grid_running_sums.
Qed.

Lemma resize_grid_edges_are_running_sums_witness :
  exists g' w',
    resize_grid [[1 # 2; 1; 0]] [[1 # 2; 1 # 2]] [[3 # 2; 5 # 2]] 1 = Ok (g', w')
    /\ length g' = 1%nat.
Proof.
  eexists. eexists. split; [ vm_compute; reflexivity | ].
  refine (proj1 (resize_grid_edges_are_running_sums
                   [[1 # 2; 1; 0]] [[1 # 2; 1 # 2]] [[3 # 2; 5 # 2]] 1 _ _ _)).
  vm_compute. reflexivity.
Defined.

(** X8.  [resize_grid] raises IndexError when the weights have more rows
    than the grid: the write [grid[i, dim]] then leaves the array. *)
Theorem resize_grid_short_grid_raises g grid w old_weights s subintegrals alpha :
  length w = length s -> (length g < length w)%nat ->
  resize_grid (g :: grid) (w :: old_weights) (s :: subintegrals) alpha
  = Raise IndexError.
Proof.
  intros Hws Hlt. unfold resize_grid.
  destruct ((0 <? length (g :: grid))%nat && (shape0 (g :: grid) =? 0)%nat);
    [ reflexivity | ].
  cbn [map2 resize_columns].
  assert (length (combined_weights alpha w s) = length w) as Hl.
  { unfold combined_weights, combined_weights_raw. rewrite length_map, length_map2.
    - reflexivity.
    - unfold rel_weights, rel_weights_raw. rewrite !length_map. exact Hws. }
  rewrite Hl.
  replace (length w <=? length g)%nat with false by (symmetry; apply Nat.leb_gt; lia).
  reflexivity.
Qed.

Lemma resize_grid_short_grid_raises_witness :
  resize_grid [[1]] [[1 # 2; 1 # 2]] [[0; 0]] 1 = Raise IndexError.
Proof.
  apply resize_grid_short_grid_raises; [ reflexivity | simpl; lia ].
Defined.

(** ** Sampling *)

(** X9.  A point drawn for a box with [lower <= upper] from a vector of
    numbers in [[0, 1)] lies in the box, coordinate by coordinate. *)
Theorem sample_point_in_zone zone :
  forall rand_point,
    length rand_point = length zone ->
    Forall (fun z => fst z <= snd z) zone ->
    Forall (fun r => 0 <= r /\ r < 1) rand_point ->
    length (sample_point zone rand_point) = length zone
    /\ forall d, (d < length zone)%nat ->
         fst (nth d zone (0, 0)) <= nth d (sample_point zone rand_point) 0
         /\ nth d (sample_point zone rand_point) 0 <= snd (nth d zone (0, 0)).
Proof.
  induction zone as [|z zone IH]; intros rand_point Hl Hz Hr.
  - split; [ reflexivity | intros d Hd; simpl in Hd; lia ].
  - destruct rand_point as [|r rest]; [ discriminate | ].
    inversion Hz as [|? ? Hz1 Hz']; subst. inversion Hr as [|? ? [Hr0 Hr1] Hr']; subst.
    destruct (IH rest ltac:(simpl in Hl; lia) Hz' Hr') as [IHl IHd].
    unfold sample_point in *. cbn [map2]. split; [ simpl; lia | ].
    intros d Hd. destruct d as [|d].
    + cbn [nth].
      assert (0 <= r * (snd z - fst z)) by (apply Qmult_le_0_compat; lra).
      assert (r * (snd z - fst z) <= 1 * (snd z - fst z))
        by (apply Qmult_le_compat_r; lra).
      split; lra.
    + cbn [nth]. apply IHd. simpl in Hd. lia.
Qed.

Lemma sample_point_in_zone_witness :
  length (sample_point [(0, 2)] [1 # 2]) = 1%nat.
Proof.
  refine (proj1 (sample_point_in_zone [(0, 2)] [1 # 2] _ _ _)).
  - reflexivity.
  - repeat constructor. simpl. unfold Qle. simpl. lia.
  - constructor; [ | constructor ].
    split; [ unfold Qle | unfold Qlt ]; simpl; lia.
Defined.

(** ** Bin counts up to 300 *)

Lemma start_length_table :
  forallb (fun n => Bool.eqb (start_length_ok n)
                      (negb (existsb (Z.eqb n) short_of_300)))
          (map Z.of_nat (seq 1 300)) = true.
Proof. vm_compute. reflexivity. Qed.

(** X10.  Between 1 and 300 bins per dimension, the binary64 length of the
    start's [np.arange] is the bin count except for 49, 103, 196, 206, 214,
    237, 239, 249 and 253, where the column assignment of [prepare_grid]
    cannot succeed. *)
Theorem start_length_up_to_300 n :
  (1 <= n <= 300)%Z ->
  start_length_ok n = true <-> ~ In n short_of_300.
Proof.
  intros Hn.
  pose proof (proj1 (forallb_forall _ _) start_length_table n) as H.
  assert (In n (map Z.of_nat (seq 1 300))) as Hin.
  { apply in_map_iff. exists (Z.to_nat n). split; [ lia | apply in_seq; lia ]. }
  specialize (H Hin). apply eqb_prop in H. rewrite H. split.
  - intros E Hbad. apply negb_true_iff in E.
    assert (existsb (Z.eqb n) short_of_300 = true) as E'.
    { apply existsb_exists. exists n. split; [ exact Hbad | apply Z.eqb_refl ]. }
    congruence.
  - intros Hgood. apply negb_true_iff.
    destruct (existsb (Z.eqb n) short_of_300) eqn:E; [ | reflexivity ].
    apply existsb_exists in E. destruct E as [x [Hx Ex]].
    apply Z.eqb_eq in Ex. subst x. contradiction.
Qed.

Lemma start_length_up_to_300_witness : start_length_ok 50 = true.
Proof.
  apply (proj2 (start_length_up_to_300 50 ltac:(lia))).
  intros H. simpl in H. repeat (destruct H as [H|H]; [ discriminate | ]). exact H.
Defined.

(** ** Training that draws nothing *)

Lemma np_sum_const c l :
  Forall (fun x => x == c) l -> np_sum l == inject_Z (Z.of_nat (length l)) * c.
Proof.
  intros H. induction H as [|x l Hx H IH].
  - change (np_sum []) with 0. change (inject_Z (Z.of_nat (length (@nil Q)))) with 0. ring.
  - change (x == c) in Hx. cbn [length]. rewrite np_sum_cons, IH, Hx.
    rewrite Nat2Z.inj_succ. unfold Z.succ. rewrite inject_Z_plus.
    change (inject_Z 1) with 1. ring.
Qed.

Lemma Forall_firstn {A : Type} (P : A -> Prop) l :
  Forall P l -> forall k, Forall P (firstn k l).
Proof.
  intros H. induction H as [|x l Hx H IH]; intros k.
  - rewrite firstn_nil. constructor.
  - destruct k as [|k]; cbn [firstn]; constructor; auto.
Qed.

Lemma Forall_map2 {A B C : Type} (P : A -> Prop) (R : B -> Prop) (S : C -> Prop)
    (f : A -> B -> C) :
  (forall a b, P a -> R b -> S (f a b)) ->
  forall l1 l2, Forall P l1 -> Forall R l2 -> Forall S (map2 f l1 l2).
Proof.
  intros Hf l1. induction l1 as [|a l1 IH]; intros l2 H1 H2; simpl.
  - constructor.
  - destruct l2 as [|b l2]; [ constructor | ].
    inversion H1; inversion H2; subst. constructor; auto.
Qed.

Lemma length_pos_inject (l : list Q) : l <> [] -> 0 < inject_Z (Z.of_nat (length l)).
Proof.
  intros H. apply inject_Z_pos. destruct l; [ congruence | simpl; lia ].
Qed.

(** With no importance at all, the relative weights are uniform. *)
Lemma rel_weights_of_zeros alpha s :
  0 < alpha -> s <> [] -> Forall (fun x => x == 0) s ->
  Forall (fun x => x == 1 / inject_Z (Z.of_nat (length s))) (rel_weights alpha s).
Proof.
  intros Ha Hne Hz. pose proof (length_pos_inject s Hne) as Hn.
  assert (np_mean s == 0) as Hm.
  { unfold np_mean. rewrite (np_sum_const 0 s Hz). field. apply Qpos_nonzero; exact Hn. }
  assert (guard_mean (np_mean s) = 1) as Hg.
  { destruct (guard_mean_cases (np_mean s)) as [[_ E]|[N _]]; [ exact E | contradiction ]. }
  assert (Forall (fun x => x == / alpha) (rel_weights_raw alpha s)) as Hraw.
  { unfold rel_weights_raw. rewrite Hg. apply Forall_forall. intros y Hy.
    apply in_map_iff in Hy. destruct Hy as [x [E Hx]]. subst y.
    pose proof (proj1 (Forall_forall _ _) Hz x Hx) as Hx0. change (x == 0) in Hx0.
    unfold rel_divisor. rewrite Hx0. field. lra. }
  pose proof (np_sum_const _ _ Hraw) as Hsum.
  assert (length (rel_weights_raw alpha s) = length s) as Hl
      by (unfold rel_weights_raw; apply length_map).
  rewrite Hl in Hsum.
  unfold rel_weights. apply Forall_forall. intros y Hy.
  apply in_map_iff in Hy. destruct Hy as [x [E Hx]]. subst y.
  pose proof (proj1 (Forall_forall _ _) Hraw x Hx) as Hx0. change (x == / alpha) in Hx0.
  rewrite Hsum, Hx0. field. split; apply Qpos_nonzero; assumption.
Qed.

Lemma map2_mult_const k :
  forall w rel,
    length w = length rel -> Forall (fun x => x == k) rel ->
    np_sum (map2 Qmult w rel) == np_sum w * k
    /\ Forall2 (fun x wi => x == wi * k) (map2 Qmult w rel) w.
Proof.
  induction w as [|a w IH]; intros rel Hl Hk.
  - simpl. split; [ unfold np_sum; simpl; ring | constructor ].
  - destruct rel as [|r rel]; [ discriminate | ].
    inversion Hk as [|? ? Hr Hk']; subst. change (r == k) in Hr.
    destruct (IH rel ltac:(simpl in Hl; lia) Hk') as [IHs IHf].
    cbn [map2]. split.
    + rewrite !np_sum_cons, IHs, Hr. ring.
    + constructor; [ rewrite Hr; reflexivity | exact IHf ].
Qed.

Lemma divide_back k total raw w :
  total == k -> ~ k == 0 ->
  Forall2 (fun x wi => x == wi * k) raw w ->
  Forall2 Qeq (map (fun c => c / total) raw) w.
Proof.
  intros Ht Hk Hf. induction Hf as [|x wi raw w Hx Hf IH]; cbn [map]; constructor.
  - rewrite Ht, Hx. field. exact Hk.
  - exact IH.
Qed.

(** With no importance at all, [resize_grid] hands the old weights back. *)
Lemma combined_weights_of_zeros alpha w s :
  0 < alpha -> s <> [] -> length w = length s -> np_sum w == 1 ->
  Forall (fun x => x == 0) s ->
  Forall2 Qeq (combined_weights alpha w s) w.
Proof.
  intros Ha Hne Hl Hsum Hz. pose proof (length_pos_inject s Hne) as Hn.
  pose proof (rel_weights_of_zeros alpha s Ha Hne Hz) as Hrel.
  assert (length w = length (rel_weights alpha s)) as Hl'.
  { unfold rel_weights, rel_weights_raw. rewrite !length_map. exact Hl. }
  destruct (map2_mult_const _ w (rel_weights alpha s) Hl' Hrel) as [Hs Hf].
  unfold combined_weights. fold (combined_weights_raw alpha w s) in Hs, Hf |- *.
  rewrite Hsum, Qmult_1_l in Hs.
  apply (divide_back (1 / inject_Z (Z.of_nat (length s)))); auto.
  apply Qpos_nonzero. apply Qdiv_pos; [ reflexivity | exact Hn ].
Qed.

Lemma Forall2_Qeq_const c l l' :
  Forall2 Qeq l l' -> Forall (fun x => x == c) l' -> Forall (fun x => x == c) l.
Proof.
  intros H. induction H as [|x y l l' Hxy H IH]; intros Hc; constructor.
  - inversion Hc as [|? ? Hy _]; subst. change (y == c) in Hy.
    change (x == c). rewrite Hxy. exact Hy.
  - apply IH. inversion Hc; assumption.
Qed.

Lemma add_importance_pres (P : Q -> Prop) n mi :
  P 0 -> (forall x y, P x -> P y -> P (x + y)) -> P mi ->
  forall distrib selected,
    Forall (fun column => length column = n /\ Forall P column) distrib ->
    length (add_importance distrib selected mi) = length distrib
    /\ Forall (fun column => length column = n /\ Forall P column)
              (add_importance distrib selected mi).
Proof.
  intros P0 Padd Hmi distrib.
  induction distrib as [|column distrib IH]; intros selected H.
  - simpl. split; [ reflexivity | constructor ].
  - destruct selected as [|i rest]; [ simpl; auto | ].
    inversion H as [|? ? [Hl Hc] H']; subst. cbn [add_importance].
    destruct (IH rest H') as [IHl IHf].
    split; [ simpl; lia | ]. constructor; [ | exact IHf ].
    unfold py_set, py_get. split; [ rewrite length_list_set; reflexivity | ].
    apply Forall_list_set; [ exact Hc | ]. apply Padd; [ | exact Hmi ].
    destruct (Nat.lt_ge_cases (py_index (length column) i) (length column)) as [Hk|Hk].
    + apply (proj1 (Forall_forall _ _) Hc). apply nth_In. exact Hk.
    + rewrite nth_overflow by exact Hk. exact P0.
Qed.

(** An epoch whose [calls_per_bin] is not positive gathers no importance. *)
Lemma train_loop_zero func rand_rand self bins bin_num dims cpb n k :
  (cpb <= 0)%Z ->
  forall st,
    Forall (fun column => length column = n /\ Forall (fun x => x == 0) column)
           (fst (fst st)) ->
    let st' := Nat.iter k (train_bin func rand_rand self bins bin_num dims cpb) st in
    length (fst (fst st')) = length (fst (fst st))
    /\ Forall (fun column => length column = n /\ Forall (fun x => x == 0) column)
              (fst (fst st')).
Proof.
  intros Hc st H0. induction k as [|k [IHl IHf]].
  - simpl. split; [ reflexivity | exact H0 ].
  - set (f := train_bin func rand_rand self bins bin_num dims cpb) in *.
    change (Nat.iter (S k) f st) with (f (Nat.iter k f st)). cbv zeta in *.
    destruct (Nat.iter k f st) as [[distrib selected] pos]. cbn [fst snd] in *.
    unfold f, train_bin. replace (Z.to_nat cpb) with 0%nat by lia.
    cbn [sample_loop fst snd].
    destruct (add_importance_pres (fun x => x == 0) n 0 ltac:(reflexivity)
                ltac:(intros x y Hx Hy; cbv beta in *; lra)
                ltac:(reflexivity) distrib selected IHf) as [Hl Hf].
    split; [ lia | exact Hf ].
Qed.

Lemma resize_grid_uniform bin_num dims alpha bins weights distrib :
  0 < alpha -> (1 <= bin_num)%Z ->
  uniform_tables bin_num dims bins weights ->
  length distrib = dims ->
  Forall (fun s => length s = Z.to_nat bin_num /\ Forall (fun x => x == 0) s) distrib ->
  exists bins' weights',
    resize_grid bins weights distrib alpha = Ok (bins', weights')
    /\ uniform_tables bin_num dims bins' weights'.
Proof.
  intros Ha Hn [Hinv [Hw Hb]] Hld Hd.
  set (n := Z.to_nat bin_num) in *.
  pose proof (inject_Z_pos bin_num Hn) as Hq.
  assert (Forall (fun s => length s = n
                           /\ (Forall (fun x => 0 <= x) s \/ Forall (fun x => x <= 0) s))
                 distrib) as Hsign.
  { apply Forall_forall. intros s Hs.
    destruct (proj1 (Forall_forall _ _) Hd s Hs) as [Hl Hz].
    split; [ exact Hl | left ]. apply Forall_forall. intros x Hx.
    pose proof (proj1 (Forall_forall _ _) Hz x Hx) as E. change (x == 0) in E.
    rewrite E. lra. }
  destruct (resize_grid_inv n dims alpha bins weights distrib Ha Hinv Hld Hsign)
    as [b' [w' [Hres Hinv']]].
  exists b', w'. split; [ exact Hres | ].
  destruct (resize_grid_weights _ _ _ _ _ _ Hres) as [Ew Hc].
  assert (Forall (Forall (fun x => x == 1 / inject_Z bin_num)) w') as Hw'.
  { rewrite Ew.
    apply (Forall_map2
             (fun w => weights_ok n w /\ Forall (fun x => x == 1 / inject_Z bin_num) w)
             (fun s => length s = n /\ Forall (fun x => x == 0) s)).
    - intros w s [[Hlw [_ Hsum]] Hu] [Hls Hz].
      apply (Forall2_Qeq_const _ _ w); [ | exact Hu ].
      apply combined_weights_of_zeros; auto; try congruence.
      intros E. subst s. simpl in Hls. unfold n in Hls. lia.
    - apply Forall_and; [ apply Hinv | exact Hw ].
    - exact Hd. }
  split; [ exact Hinv' | ]. split; [ exact Hw' | ].
  destruct (resize_columns_nth bins w' b' Hc) as [Hlb Hnth].
  destruct Hinv as [Hlbins [_ [Hbins _]]]. destruct Hinv' as [_ [Hlw' [_ Hwok']]].
  apply Forall_forall. intros column Hin k Hk.
  destruct (In_nth _ _ [] Hin) as [d [Hd' E]]. subst column.
  assert (d < length bins)%nat as Hdb by lia.
  destruct (Hnth d Hdb) as [E Hle]. rewrite E.
  assert (In (nth d w' []) w') as Hinw by (apply nth_In; lia).
  destruct (proj1 (Forall_forall _ _) Hwok' _ Hinw) as [Hlws _].
  pose proof (proj1 (Forall_forall _ _) Hw' _ Hinw) as Hu.
  assert (column_inv n (nth d bins [])) as [Hlg [Hsent _]]
      by (apply (proj1 (Forall_forall _ _) Hbins); apply nth_In; exact Hdb).
  rewrite (proj1 (proj2 (resize_bins_spec _ _ Hle))) by lia.
  rewrite Hlg. replace (S n - 1)%nat with n by lia. rewrite Hsent.
  rewrite (np_sum_const _ _ (Forall_firstn _ _ Hu (S k))).
  rewrite length_firstn, Nat.min_l by lia.
  replace (Z.of_nat (S k)) with (Z.of_nat k + 1)%Z by lia.
  field. apply Qpos_nonzero; exact Hq.
Qed.

Lemma initial_tables_uniform n dims b0 w0 :
  (1 <= n)%Z -> initial_tables n dims = Ok (b0, w0) -> uniform_tables n dims b0 w0.
Proof.
  intros Hn Hi. destruct (initial_tables_inv n dims b0 w0 Hn Hi) as [Hinv Hval].
  split; [ exact Hinv | ]. destruct Hinv as [Hlb [Hlw [_ Hw]]]. split.
  - apply Forall_forall. intros column Hin.
    destruct (In_nth _ _ [] Hin) as [d [Hd E]]. subst column.
    destruct (proj1 (Forall_forall _ _) Hw _ Hin) as [Hl _].
    apply Forall_forall. intros x Hx.
    destruct (In_nth _ _ 0 Hx) as [i [Hi' E]]. subst x.
    destruct (Hval d i ltac:(lia) ltac:(lia)) as [_ E]. unfold at2 in E.
    rewrite E. reflexivity.
  - apply Forall_forall. intros column Hin k Hk.
    destruct (In_nth _ _ [] Hin) as [d [Hd E]]. subst column.
    exact (proj1 (Hval d k ltac:(lia) Hk)).
Qed.

Lemma train_epochs_uniform func rand_rand self bin_num total_bins cpb alpha epochs :
  0 < alpha -> (1 <= bin_num)%Z -> (cpb <= 0)%Z ->
  forall bins weights pos,
    uniform_tables bin_num (length (region self)) bins weights ->
    exists bins' weights' pos',
      train_epochs func rand_rand self bin_num (length (region self)) total_bins cpb
        alpha epochs bins weights pos = (Ok (bins', weights'), pos')
      /\ uniform_tables bin_num (length (region self)) bins' weights'.
Proof.
  intros Ha Hn Hc. induction epochs as [|k IH]; intros bins weights pos Hu.
  - exists bins, weights, pos. split; [ reflexivity | exact Hu ].
  - cbn [train_epochs]. unfold train_epoch.
    set (st0 := (repeat (repeat 0 (Z.to_nat bin_num)) (length (region self)),
                 np_zeros_int (length (region self)), pos)).
    assert (Forall (fun column => length column = Z.to_nat bin_num
                                  /\ Forall (fun x => x == 0) column)
                   (fst (fst st0))) as H0.
    { unfold st0. cbn [fst]. apply Forall_forall. intros c Hin.
      apply repeat_spec in Hin. subst c. split; [ apply repeat_length | ].
      apply Forall_forall. intros x Hx. apply repeat_spec in Hx. subst x. reflexivity. }
    pose proof (train_loop_zero func rand_rand self bins bin_num (length (region self))
                  cpb (Z.to_nat bin_num) (Z.to_nat total_bins) Hc st0 H0) as [Hl Hf].
    unfold st0 in Hl at 2. cbn [fst] in Hl. rewrite repeat_length in Hl.
    match type of Hl with
    | context [Nat.iter ?j ?f ?s] => destruct (Nat.iter j f s) as [[distrib selected] pos']
    end.
    cbn [fst snd] in *.
    destruct (resize_grid_uniform bin_num (length (region self)) alpha bins weights
                distrib Ha Hn Hu Hl Hf) as [b [w [E Hu']]].
    rewrite E. apply IH. exact Hu'.
Qed.

(** The grid a completed [prepare_grid] commits when it ran no epoch or
    drew no point. *)
Lemma prepare_grid_uniform func rand_rand self n epochs cpe alpha :
  fst (prepare_grid func rand_rand self n epochs cpe alpha) = Ok tt ->
  (epochs <= 0 \/ cpe / n ^ Z.of_nat (length (region self)) <= 0)%Z ->
  rand (snd (prepare_grid func rand_rand self n epochs cpe alpha)) = rand self
  /\ exists b,
       bins (snd (prepare_grid func rand_rand self n epochs cpe alpha)) = Some b
       /\ forall d i, (d < length (region self))%nat -> (i < Z.to_nat n)%nat ->
            at2 b i d == inject_Z (Z.of_nat i + 1) / inject_Z n.
Proof.
  intros Hok Hcase.
  destruct (prepare_grid_ok_inv _ _ _ _ _ _ _ Hok)
    as [Ha [Hn [b0 [w0 [b [w [pos [Hi [Ht Hs]]]]]]]]].
  assert (0 < alpha) as Hpos by (pose proof eps_nonneg; lra).
  pose proof (initial_tables_uniform n _ b0 w0 ltac:(lia) Hi) as Hu0.
  pose proof (train_epochs_pos _ _ _ _ _ _ _ _ _ _ _ _ _ _ Ht) as Hp.
  assert (uniform_tables n (length (region self)) b w /\ pos = rand self) as [Hu Hpos'].
  { destruct Hcase as [He|Hc].
    - replace (Z.to_nat epochs) with 0%nat in * by lia. simpl in Ht.
      inversion Ht; subst. split; [ exact Hu0 | reflexivity ].
    - destruct (train_epochs_uniform func rand_rand self n
                  (n ^ Z.of_nat (length (region self)))
                  (train_calls_per_bin cpe (n ^ Z.of_nat (length (region self))))
                  alpha (Z.to_nat epochs) Hpos ltac:(lia)
                  ltac:(unfold train_calls_per_bin; lia) b0 w0 (rand self) Hu0)
        as [b' [w' [pos' [Ht' Hu']]]].
      rewrite Ht in Ht'. inversion Ht'; subst b' w' pos'.
      split; [ exact Hu' | ].
      unfold train_calls_per_bin in Hp.
      replace (Z.to_nat (Z.min (cpe / n ^ Z.of_nat (length (region self))) 2))
        with 0%nat in Hp by lia.
      lia. }
  rewrite Hs. cbn [rand bins]. split; [ exact Hpos' | ].
  exists b. split; [ reflexivity | ].
  intros d i Hd Hi'. destruct Hu as [[Hlb _] [_ Hb]]. unfold at2.
  apply (proj1 (Forall_forall _ _) Hb); [ apply nth_In; lia | exact Hi' ].
Qed.

(** X11.  A completed [prepare_grid] with [epochs <= 0] draws nothing and
    commits the uniform grid: edge [i] of every dimension is
    [(i + 1) / bin_num]. *)
Theorem uniform_start_committed func rand_rand self n epochs cpe alpha :
  fst (prepare_grid func rand_rand self n epochs cpe alpha) = Ok tt ->
  (epochs <= 0)%Z ->
  rand (snd (prepare_grid func rand_rand self n epochs cpe alpha)) = rand self
  /\ exists b,
       bins (snd (prepare_grid func rand_rand self n epochs cpe alpha)) = Some b
       /\ forall d i, (d < length (region self))%nat -> (i < Z.to_nat n)%nat ->
            at2 b i d == inject_Z (Z.of_nat i + 1) / inject_Z n.
Proof.
  intros Hok He. apply prepare_grid_uniform; [ exact Hok | left; exact He ].
Qed.

Lemma uniform_start_committed_witness :
  rand (snd (prepare_grid grow centre_rand model1 2 0 8 1)) = rand model1.
Proof.
  refine (proj1 (uniform_start_committed grow centre_rand model1 2%Z 0%Z 8%Z 1 _ _)).
  - vm_compute. reflexivity.
  - lia.
Defined.

(** X12.  When [calls_per_epoch // total_bins <= 0], a completed
    [prepare_grid] adapts nothing, however many epochs it runs: it draws no
    vector, every epoch hands the weights back, and the committed grid is
    the uniform one.  The notebook's three-dimensional run is such a call
    (50 bins in 3 dimensions, 2500 calls an epoch). *)
Theorem training_without_samples func rand_rand self n epochs cpe alpha :
  fst (prepare_grid func rand_rand self n epochs cpe alpha) = Ok tt ->
  (cpe / n ^ Z.of_nat (length (region self)) <= 0)%Z ->
  rand (snd (prepare_grid func rand_rand self n epochs cpe alpha)) = rand self
  /\ exists b,
       bins (snd (prepare_grid func rand_rand self n epochs cpe alpha)) = Some b
       /\ forall d i, (d < length (region self))%nat -> (i < Z.to_nat n)%nat ->
            at2 b i d == inject_Z (Z.of_nat i + 1) / inject_Z n.
Proof.
  intros Hok Hc. apply prepare_grid_uniform; [ exact Hok | right; exact Hc ].
Qed.

Lemma training_without_samples_witness :
  rand (snd (prepare_grid grow centre_rand (init [(0, 2); (0, 2); (0, 2)] 0)
               50 10 2500 1))
  = 0%nat.
Proof.
  refine (proj1 (training_without_samples grow centre_rand
                   (init [(0, 2); (0, 2); (0, 2)] 0) 50%Z 10%Z 2500%Z 1 _ _)).
  - apply (proj2 (prepare_grid_completes_iff_aux grow centre_rand
                    (init [(0, 2); (0, 2); (0, 2)] 0) 50 10 2500 1
                    ltac:(simpl; lia))).
    split; [ unfold Qlt; vm_compute; reflexivity | ].
    split; [ lia | ].
    exists 50%Z. split; [ vm_compute; reflexivity | reflexivity ].
  - vm_compute. discriminate.
Defined.

(** ** The boxes of all bins fill the region *)

Lemma np_sum_map_ext {A : Type} (f g : A -> Q) l :
  (forall x, In x l -> f x == g x) -> np_sum (map f l) == np_sum (map g l).
Proof.
  induction l as [|a l IH]; intros H; cbn [map].
  - reflexivity.
  - pose proof (IH (fun x Hx => H x (or_intror Hx))) as IH'.
    rewrite !np_sum_cons, IH', (H a (or_introl eq_refl)). reflexivity.
Qed.

Lemma np_prod_cons a l : np_prod (a :: l) = a * np_prod l.
Proof. reflexivity. Qed.

Lemma np_prod_map_ext {A : Type} (f g : A -> Q) l :
  (forall x, In x l -> f x == g x) -> np_prod (map f l) == np_prod (map g l).
Proof.
  induction l as [|a l IH]; intros H; cbn [map].
  - reflexivity.
  - pose proof (IH (fun x Hx => H x (or_intror Hx))) as IH'.
    rewrite !np_prod_cons, IH', (H a (or_introl eq_refl)). reflexivity.
Qed.

Lemma np_sum_map_scale_r {A : Type} (f : A -> Q) c l :
  np_sum (map (fun x => f x * c) l) == np_sum (map f l) * c.
Proof.
  induction l as [|a l IH]; cbn [map].
  - unfold np_sum. simpl. ring.
  - rewrite !np_sum_cons, IH. ring.
Qed.

Lemma np_sum_map_scale_l {A : Type} (f : A -> Q) c l :
  np_sum (map (fun x => c * f x) l) == c * np_sum (map f l).
Proof.
  induction l as [|a l IH]; cbn [map].
  - unfold np_sum. simpl. ring.
  - rewrite !np_sum_cons, IH. ring.
Qed.

Lemma map_seq_shift {A : Type} (f : nat -> A) start len :
  map f (seq start len) = map (fun x => f (x + start)%nat) (seq 0 len).
Proof.
  revert start. induction len as [|len IH]; intros start; simpl.
  - reflexivity.
  - f_equal. rewrite (IH (S start)), <- seq_shift, map_map.
    apply map_ext. intros a. f_equal. lia.
Qed.

(** A sum over [n * m] numbers, read as [m] blocks of [n]. *)
Lemma np_sum_blocks (f : nat -> Q) n m :
  np_sum (map f (seq 0 (n * m)))
  == np_sum (map (fun k' => np_sum (map (fun x => f (x + n * k')%nat) (seq 0 n)))
                 (seq 0 m)).
Proof.
  induction m as [|m IH].
  - rewrite Nat.mul_0_r. reflexivity.
  - replace (n * S m)%nat with (n * m + n)%nat by lia.
    rewrite seq_app, map_app, np_sum_app, IH.
    rewrite seq_S, map_app, np_sum_app. cbn [map]. rewrite np_sum_singleton.
    cbn [Nat.add]. rewrite (map_seq_shift f (n * m) n). reflexivity.
Qed.

Lemma advance_block limit dims x k' :
  (1 <= limit)%Z -> (Z.of_nat x < limit)%Z ->
  (Z.of_nat k' < limit ^ Z.of_nat dims)%Z ->
  advance limit (x + Z.to_nat limit * k') (np_zeros_int (S dims))
  = Z.of_nat x :: advance limit k' (np_zeros_int dims).
Proof.
  intros Hl Hx Hk.
  apply (index_value_inj limit Hl (S dims)).
  - apply advance_valid. exact Hl.
  - apply valid_index_cons. split; [ lia | apply advance_valid; exact Hl ].
  - rewrite advance_value by exact Hl. cbn [index_value].
    rewrite advance_value by exact Hl.
    rewrite Nat2Z.inj_succ, Z.pow_succ_r by lia.
    rewrite (Z.mod_small (Z.of_nat k')) by lia.
    rewrite Z.mod_small by nia. nia.
Qed.

(** The sum, over all index vectors in the order of the enumeration, of a
    product with one factor per dimension is the product of the sums. *)
Lemma sum_over_bins_factors n :
  (1 <= n)%nat ->
  forall dims (W : nat -> nat -> Q),
    np_sum (map (fun k =>
                   np_prod (map (fun d =>
                                   W d (Z.to_nat (nth d (advance (Z.of_nat n) k
                                                           (np_zeros_int dims)) 0%Z)))
                                (seq 0 dims)))
                (seq 0 (n ^ dims)))
    == np_prod (map (fun d => np_sum (map (W d) (seq 0 n))) (seq 0 dims)).
Proof.
  intros Hn dims. induction dims as [|dims IH]; intros W.
  - simpl. unfold np_sum, np_prod. simpl. ring.
  - rewrite Nat.pow_succ_r', np_sum_blocks.
    rewrite (np_sum_map_ext _
               (fun k' =>
                  np_sum (map (W 0%nat) (seq 0 n))
                  * np_prod (map (fun d =>
                                    W (S d) (Z.to_nat (nth d (advance (Z.of_nat n) k'
                                                               (np_zeros_int dims)) 0%Z)))
                                 (seq 0 dims)))).
    + rewrite np_sum_map_scale_l, (IH (fun d => W (S d))).
      change (seq 0 (S dims)) with (0%nat :: seq 1 dims).
      rewrite <- seq_shift. cbn [map]. rewrite map_map, np_prod_cons. reflexivity.
    + intros k' Hk'. apply in_seq in Hk'.
      rewrite <- np_sum_map_scale_r. apply np_sum_map_ext.
      intros x Hx. apply in_seq in Hx.
      replace (x + n * k')%nat with (x + Z.to_nat (Z.of_nat n) * k')%nat by lia.
      rewrite advance_block; [ | lia | lia | ].
      * change (seq 0 (S dims)) with (0%nat :: seq 1 dims).
        rewrite <- seq_shift. cbn [map]. rewrite map_map, np_prod_cons.
        cbn [nth]. rewrite Nat2Z.id. reflexivity.
      * rewrite <- Nat2Z.inj_pow. lia.
Qed.

Lemma edges_telescope column n m :
  (1 <= m <= n)%nat ->
  np_sum (map (fun i => nth i column 0
                        - nth (match i with O => n | S j => j end) column 0)
              (seq 0 m))
  == nth (m - 1) column 0 - nth n column 0.
Proof.
  intros Hm. induction m as [|m IH]; [ lia | ].
  destruct m as [|m'].
  - cbn [seq map]. rewrite np_sum_singleton. reflexivity.
  - rewrite seq_S, map_app, np_sum_app, IH by lia.
    cbn [map Nat.add]. rewrite np_sum_singleton.
    replace (S m' - 1)%nat with m' by lia.
    replace (S (S m') - 1)%nat with (S m') by lia. ring.
Qed.

Lemma map_nth_seq {A B : Type} (h : A -> B) (l : list A) def :
  map (fun d => h (nth d l def)) (seq 0 (length l)) = map h l.
Proof.
  induction l as [|a l IH]; [ reflexivity | ].
  cbn [length]. change (seq 0 (S (length l))) with (0%nat :: seq 1 (length l)).
  rewrite <- seq_shift. cbn [map nth]. rewrite map_map. f_equal. exact IH.
Qed.

Lemma zone_volume_factors self bins n indices :
  valid_index (Z.of_nat n) (length (region self)) indices ->
  length bins = length (region self) ->
  (forall d, (d < length (region self))%nat -> length (nth d bins []) = S n) ->
  zone_volume (get_selected_subregion self bins indices)
  == np_prod (map (fun d => bin_side self bins n d (Z.to_nat (nth d indices 0%Z)))
                  (seq 0 (length (region self)))).
Proof.
  intros Hv Hlb Hcol.
  unfold zone_volume, get_selected_subregion, cython_get_selected_region.
  assert (length indices = length (region self)) as Hli by apply Hv.
  rewrite <- (map_nth_seq (fun z : Q * Q => snd z - fst z)
                (_get_selected_region (region self) bins indices) (0, 0)).
  rewrite selected_region_length, Hli.
  apply np_prod_map_ext. intros d Hd. apply in_seq in Hd.
  rewrite (selected_region_dim (region self) bins indices n d).
  - cbn [fst snd]. unfold bin_side. ring.
  - lia.
  - unfold shape0. destruct bins as [|g rest]; [ simpl in Hlb; lia | ].
    exact (Hcol 0%nat ltac:(lia)).
  - apply Hcol. lia.
  - apply (valid_index_nth _ (length (region self))); [ exact Hv | lia ].
Qed.

Lemma bin_sides_sum self bins n d :
  (1 <= n)%nat -> edges_in_unit n (nth d bins []) ->
  np_sum (map (bin_side self bins n d) (seq 0 n))
  == snd (nth d (region self) (0, 0)) - fst (nth d (region self) (0, 0)).
Proof.
  intros Hn [[Hlen Hsent] [_ [_ Hlast]]]. unfold bin_side.
  rewrite np_sum_map_scale_r, (edges_telescope _ n n) by lia.
  unfold last_edge_one in Hlast. rewrite Hlast, Hsent. ring.
Qed.

Lemma bin_volumes_sum self bins n :
  (1 <= n)%nat -> length bins = length (region self) ->
  (forall d, (d < length (region self))%nat -> edges_in_unit n (nth d bins [])) ->
  np_sum (map (fun k =>
                 zone_volume
                   (get_selected_subregion self bins
                      (advance (Z.of_nat n) k (np_zeros_int (length (region self))))))
              (seq 0 (n ^ length (region self))))
  == zone_volume (region self).
Proof.
  intros Hn Hlb Hedges.
  rewrite (np_sum_map_ext _
             (fun k =>
                np_prod (map (fun d =>
                                bin_side self bins n d
                                  (Z.to_nat (nth d (advance (Z.of_nat n) k
                                                      (np_zeros_int (length (region self))))
                                                 0%Z)))
                             (seq 0 (length (region self)))))).
  - rewrite (sum_over_bins_factors n Hn).
    unfold zone_volume at 1.
    rewrite <- (map_nth_seq (fun z : Q * Q => snd z - fst z) (region self) (0, 0)).
    apply np_prod_map_ext. intros d Hd. apply in_seq in Hd.
    apply bin_sides_sum; [ exact Hn | apply Hedges; lia ].
  - intros k _. apply zone_volume_factors.
    + apply advance_valid. lia.
    + exact Hlb.
    + intros d Hd. apply (Hedges d Hd).
Qed.

(** X13.  On a grid whose columns end in 1 with the last row 0, the volumes
    of the boxes of all [bin_num ^ dims] index vectors, taken in the order
    of the enumeration, sum to the volume of the region. *)
Theorem bin_volumes_sum_to_region self bins n :
  (1 <= n)%nat -> length bins = length (region self) ->
  (forall d, (d < length (region self))%nat -> edges_in_unit n (nth d bins [])) ->
  np_sum (map (fun k =>
                 zone_volume
                   (get_selected_subregion self bins
                      (advance (Z.of_nat n) k (np_zeros_int (length (region self))))))
              (seq 0 (n ^ length (region self))))
  == zone_volume (region self).
Proof.
  apply bin_volumes_sum.
Qed.

Lemma bin_volumes_sum_to_region_witness :
  np_sum (map (fun k =>
                 zone_volume
                   (get_selected_subregion model1 [[1 # 2; 1; 0]]
                      (advance (Z.of_nat 2) k (np_zeros_int (length (region model1))))))
              (seq 0 (2 ^ length (region model1))))
  == zone_volume (region model1).
Proof.
  apply (bin_volumes_sum_to_region model1 [[1 # 2; 1; 0]] 2).
  - lia.
  - reflexivity.
  - intros d Hd. simpl in Hd. destruct d as [|d]; [ | lia ].
    exact edges_in_unit_example.
Defined.

(** ** A constant integrand *)

Lemma np_sum_map_const {A : Type} (k : Q) (l : list A) :
  np_sum (map (fun _ => k) l) == inject_Z (Z.of_nat (length l)) * k.
Proof.
  rewrite (np_sum_const k).
  - rewrite length_map. reflexivity.
  - apply Forall_forall. intros x Hx. apply in_map_iff in Hx.
    destruct Hx as [y [E _]]. subst x. reflexivity.
Qed.

Lemma bin_estimate_constant c rand_rand self bins dims cpb indices pos :
  (1 <= cpb)%Z ->
  bin_estimate (fun _ => c) rand_rand self bins dims cpb indices pos
  == zone_volume (get_selected_subregion self bins indices) * c.
Proof.
  intros Hc. unfold bin_estimate. cbv zeta.
  rewrite np_sum_map_const, length_seq, Z2Nat.id by lia.
  field. apply Qpos_nonzero. apply inject_Z_pos. exact Hc.
Qed.

Lemma evaluation_sum_constant c rand_rand self bins n cpb pos :
  (1 <= cpb)%Z -> (1 <= n)%nat -> length bins = length (region self) ->
  (forall d, (d < length (region self))%nat -> edges_in_unit n (nth d bins [])) ->
  evaluation_sum (fun _ => c) rand_rand self bins (Z.of_nat n) (length (region self))
    cpb (Z.of_nat n ^ Z.of_nat (length (region self))) pos
  == c * zone_volume (region self).
Proof.
  intros Hc Hn Hlb Hedges. unfold evaluation_sum.
  rewrite (np_sum_map_ext _
             (fun k =>
                zone_volume
                  (get_selected_subregion self bins
                     (advance (Z.of_nat n) k (np_zeros_int (length (region self)))))
                * c))
    by (intros k _; apply bin_estimate_constant; exact Hc).
  rewrite np_sum_map_scale_r.
  rewrite <- Nat2Z.inj_pow, Nat2Z.id.
  rewrite (bin_volumes_sum self bins n Hn Hlb Hedges). ring.
Qed.

Lemma integrate_constant_aux c rand_rand pow_half self b n times num r :
  bins self = Some b -> bin_num self = Some (Z.of_nat n) ->
  dimensions self = length (region self) ->
  (1 <= n)%nat -> length b = length (region self) ->
  (forall d, (d < length (region self))%nat -> edges_in_unit n (nth d b [])) ->
  fst (integrate (fun _ => c) rand_rand pow_half self times num) = Ok r ->
  fst r == c * zone_volume (region self)
  /\ exists v, snd r = pow_half v /\ v == 0.
Proof.
  intros Hb Hbn Hdims Hn Hlb Hedges Hok.
  destruct (integrate_ok_inv _ _ _ _ _ _ _ Hok)
    as [Ht [Hnum [b' [bn' [Hb' [Hbn' [Hz [Hr _]]]]]]]].
  rewrite Hb in Hb'. rewrite Hbn in Hbn'. inversion Hb'; inversion Hbn'; subst b' bn'.
  cbv zeta in Hr. unfold integrate_calls_per_bin in Hr. rewrite Hdims in Hr.
  set (total_bins := (Z.of_nat n ^ Z.of_nat (length (region self)))%Z) in *.
  set (cpb := Z.max (num / total_bins) 2) in *.
  destruct (evaluations_loop_sums (fun _ => c) rand_rand self b (Z.of_nat n)
              (length (region self)) cpb total_bins (Z.to_nat times) [] (rand self))
    as [evaluations [E F]].
  destruct (evaluations_loop_spec (fun _ => c) rand_rand self b (Z.of_nat n)
              (length (region self)) cpb total_bins (Z.to_nat times) [] (rand self))
    as [Hlen _].
  rewrite E in Hr, Hlen. cbn [app length Nat.add] in Hr, Hlen.
  set (target := c * zone_volume (region self)).
  assert (Forall (fun x => x == target) evaluations) as Hall.
  { apply (Forall2_Qeq_const _ _ _ F). apply Forall_forall. intros x Hx.
    apply in_map_iff in Hx. destruct Hx as [j [Ej _]]. subst x.
    apply evaluation_sum_constant; auto. unfold cpb. lia. }
  assert (0 < inject_Z (Z.of_nat (length evaluations))) as Hq
      by (apply inject_Z_pos; lia).
  assert (np_mean evaluations == target) as Hmean.
  { unfold np_mean. rewrite (np_sum_const _ _ Hall). field.
    apply Qpos_nonzero. exact Hq. }
  subst r. cbn [fst snd]. split; [ exact Hmean | ].
  exists (np_var evaluations). split; [ reflexivity | ].
  unfold np_var, np_var_ddof. rewrite map_map, Z.sub_0_r.
  rewrite (np_sum_const 0).
  - rewrite length_map. field. apply Qpos_nonzero. exact Hq.
  - apply Forall_forall. intros x Hx. apply in_map_iff in Hx.
    destruct Hx as [e [Ee He]]. subst x.
    pose proof (proj1 (Forall_forall _ _) Hall e He) as Hev. change (e == target) in Hev.
    rewrite Hev, Hmean. ring.
Qed.

(** X14.  On a grid whose columns end in 1 with the last row 0, a completed
    [integrate] of a constant integrand [c] returns exactly [c] times the
    volume of the region, and the number its deviation is the root of is 0,
    whatever points are drawn. *)
Theorem integrate_constant c rand_rand pow_half self b n times num r :
  bins self = Some b -> bin_num self = Some (Z.of_nat n) ->
  dimensions self = length (region self) ->
  (1 <= n)%nat -> length b = length (region self) ->
  (forall d, (d < length (region self))%nat -> edges_in_unit n (nth d b [])) ->
  fst (integrate (fun _ => c) rand_rand pow_half self times num) = Ok r ->
  fst r == c * zone_volume (region self)
  /\ exists v, snd r = pow_half v /\ v == 0.
Proof.
  apply integrate_constant_aux.
Qed.


Lemma integrate_constant_witness :
  exists r,
    fst (integrate (fun _ => 3) centre_rand heron trained1 2 4) = Ok r
    /\ fst r == 3 * zone_volume (region trained1).
Proof.
  set (r := match fst (integrate (fun _ => 3) centre_rand heron trained1 2 4) with
            | Ok r => r
            | Raise _ => (0, 0)
            end).
  assert (fst (integrate (fun _ => 3) centre_rand heron trained1 2 4) = Ok r) as H
      by (vm_compute; reflexivity).
  exists r. split; [ exact H | ].
  refine (proj1 (integrate_constant 3 centre_rand heron trained1 [[1 # 2; 1; 0]] 2 2 4 r
                   _ _ _ _ _ _ H)).
  - reflexivity.
  - reflexivity.
  - reflexivity.
  - lia.
  - reflexivity.
  - intros d Hd. simpl in Hd. destruct d as [|d]; [ | lia ].
    exact edges_in_unit_example.
Defined.


(** ** Training again *)

Lemma iter_ext {A : Type} (f g : A -> A) :
  (forall x, f x = g x) -> forall k x, Nat.iter k f x = Nat.iter k g x.
Proof.
  intros H k x. induction k as [|k IH]; simpl; [ reflexivity | ].
  rewrite IH. apply H.
Qed.

Lemma train_epochs_region func rand_rand self self' bin_num dims total_bins cpb alpha
    epochs :
  region self = region self' ->
  forall bins weights pos,
    train_epochs func rand_rand self bin_num dims total_bins cpb alpha epochs
      bins weights pos
    = train_epochs func rand_rand self' bin_num dims total_bins cpb alpha epochs
        bins weights pos.
Proof.
  intros Hr. induction epochs as [|k IH]; intros bins weights pos; [ reflexivity | ].
  cbn [train_epochs].
  assert (train_epoch func rand_rand self bin_num dims total_bins cpb alpha
            bins weights pos
          = train_epoch func rand_rand self' bin_num dims total_bins cpb alpha
              bins weights pos) as E.
  { unfold train_epoch. rewrite (iter_ext
      (train_bin func rand_rand self bins bin_num dims cpb)
      (train_bin func rand_rand self' bins bin_num dims cpb)); [ reflexivity | ].
    intros [[distrib selected] p]. unfold train_bin, get_selected_subregion.
    rewrite Hr. reflexivity. }
  rewrite E.
  destruct (train_epoch func rand_rand self' bin_num dims total_bins cpb alpha
              bins weights pos) as [[[b w]|e] p]; [ apply IH | reflexivity ].
Qed.

(** X16.  [prepare_grid] starts from the uniform grid every time: its
    outcome, and the whole object a completed call leaves, depend on the
    region and on the position in the random sequence only, not on a grid
    committed before. *)
Theorem retraining_ignores_previous_grid func rand_rand self self' n epochs cpe alpha :
  region self = region self' -> rand self = rand self' ->
  fst (prepare_grid func rand_rand self n epochs cpe alpha)
  = fst (prepare_grid func rand_rand self' n epochs cpe alpha)
  /\ (fst (prepare_grid func rand_rand self n epochs cpe alpha) = Ok tt ->
      snd (prepare_grid func rand_rand self n epochs cpe alpha)
      = snd (prepare_grid func rand_rand self' n epochs cpe alpha)).
Proof.
  intros Hr Hp. unfold prepare_grid. rewrite <- Hr, <- Hp.
  destruct (Qle_bool alpha eps); [ split; [ reflexivity | discriminate ] | ].
  destruct (n <? 0)%Z; [ split; [ reflexivity | discriminate ] | ].
  destruct (2 ^ 53 <=? n)%Z; [ split; [ reflexivity | discriminate ] | ].
  destruct (n =? 0)%Z; [ split; [ reflexivity | discriminate ] | ].
  destruct (initial_tables n (length (region self))) as [[b0 w0]|e];
    [ | split; [ reflexivity | discriminate ] ].
  rewrite (train_epochs_region func rand_rand self self' _ _ _ _ _ _ Hr).
  destruct (train_epochs _ _ self' _ _ _ _ _ _ _ _ _) as [[[b w]|e] pos];
    split; try reflexivity; try discriminate.
Qed.

Lemma retraining_ignores_previous_grid_witness :
  fst (prepare_grid grow centre_rand model1 2 1 8 1)
  = fst (prepare_grid grow centre_rand trained1 2 1 8 1).
Proof.
  refine (proj1 (retraining_ignores_previous_grid grow centre_rand model1 trained1
                   2 1 8 1 _ _)); reflexivity.
Defined.

(** ** The estimate as a function of the integrand *)

Lemma np_sum_Forall2 l l' : Forall2 Qeq l l' -> np_sum l == np_sum l'.
Proof.
  intros H. induction H as [|x y l l' Hxy H IH].
  - reflexivity.
  - rewrite !np_sum_cons, IH, Hxy. reflexivity.
Qed.

Lemma np_sum_map_linear {A : Type} (f g : A -> Q) a b l :
  np_sum (map (fun x => a * f x + b * g x) l)
  == a * np_sum (map f l) + b * np_sum (map g l).
Proof.
  induction l as [|x l IH]; cbn [map].
  - unfold np_sum. simpl. ring.
  - rewrite !np_sum_cons, IH. ring.
Qed.

Lemma evaluation_sum_linear f g a b rand_rand self bins bin_num dims cpb total_bins pos :
  evaluation_sum (fun x => a * f x + b * g x) rand_rand self bins bin_num dims cpb
    total_bins pos
  == a * evaluation_sum f rand_rand self bins bin_num dims cpb total_bins pos
     + b * evaluation_sum g rand_rand self bins bin_num dims cpb total_bins pos.
Proof.
  unfold evaluation_sum. rewrite <- np_sum_map_linear.
  apply np_sum_map_ext. intros k _. unfold bin_estimate. cbv zeta.
  rewrite <- np_sum_map_linear. apply np_sum_map_ext. intros s _.
  unfold Qdiv. ring.
Qed.

(** The mean a completed [integrate] returns, as the mean of the sums over
    the bins. *)
Lemma integrate_mean func rand_rand pow_half self times num r :
  fst (integrate func rand_rand pow_half self times num) = Ok r ->
  exists b bn,
    bins self = Some b /\ bin_num self = Some bn
    /\ fst r
       == np_sum (map (fun j =>
                         evaluation_sum func rand_rand self b bn (dimensions self)
                           (Z.max (num / bn ^ Z.of_nat (dimensions self)) 2)
                           (bn ^ Z.of_nat (dimensions self))
                           (rand self
                            + j * (Z.to_nat (bn ^ Z.of_nat (dimensions self))
                                   * Z.to_nat (Z.max (num / bn ^ Z.of_nat (dimensions self)) 2)))%nat)
                      (seq 0 (Z.to_nat times)))
          / inject_Z times.
Proof.
  intros Hok.
  destruct (integrate_ok_inv _ _ _ _ _ _ _ Hok)
    as [Ht [Hn [b [bn [Hb [Hbn [Hz [Hr _]]]]]]]].
  cbv zeta in Hr. unfold integrate_calls_per_bin in Hr.
  exists b, bn. split; [ exact Hb | ]. split; [ exact Hbn | ].
  match type of Hr with
  | context [evaluations_loop ?f ?rr ?s ?bb ?n ?d ?c ?t ?k ?e ?p] =>
      destruct (evaluations_loop_sums f rr s bb n d c t k e p) as [new [E F]];
      destruct (evaluations_loop_spec f rr s bb n d c t k e p) as [Hlen _]
  end.
  rewrite E in Hr, Hlen. cbn [app length Nat.add] in Hr, Hlen.
  subst r. cbn [fst]. unfold np_mean.
  rewrite Hlen, Z2Nat.id by lia. rewrite (np_sum_Forall2 _ _ F). reflexivity.
Qed.

(** X18.  On one object, the mean [integrate] returns is linear in the
    integrand: with the same grid and the same random sequence, the estimate
    of [a * f + b * g] is [a] times that of [f] plus [b] times that of
    [g]. *)
Theorem integrate_is_linear f g a b rand_rand pow_half self times num rf rg rh :
  fst (integrate f rand_rand pow_half self times num) = Ok rf ->
  fst (integrate g rand_rand pow_half self times num) = Ok rg ->
  fst (integrate (fun x => a * f x + b * g x) rand_rand pow_half self times num) = Ok rh ->
  fst rh == a * fst rf + b * fst rg.
Proof.
  intros Hf Hg Hh.
  destruct (integrate_mean _ _ _ _ _ _ _ Hf) as [b1 [n1 [Hb1 [Hn1 Ef]]]].
  destruct (integrate_mean _ _ _ _ _ _ _ Hg) as [b2 [n2 [Hb2 [Hn2 Eg]]]].
  destruct (integrate_mean _ _ _ _ _ _ _ Hh) as [b3 [n3 [Hb3 [Hn3 Eh]]]].
  rewrite Hb1 in Hb2, Hb3. rewrite Hn1 in Hn2, Hn3.
  inversion Hb2; inversion Hb3; inversion Hn2; inversion Hn3; subst b2 b3 n2 n3.
  rewrite Ef, Eg, Eh.
  rewrite (np_sum_map_ext _ _ _
             (fun j _ => evaluation_sum_linear f g a b rand_rand self b1 n1 _ _ _ _)).
  rewrite np_sum_map_linear. unfold Qdiv. ring.
Qed.

(** X19.  When the region has no volume (some dimension with
    [lower = upper]), [integrate] after a completed [prepare_grid] returns
    the mean 0. *)
Theorem integrate_degenerate_region func rand_rand pow_half self n epochs cpe alpha
    times num r :
  zone_volume (region self) == 0 ->
  fst (prepare_grid func rand_rand self n epochs cpe alpha) = Ok tt ->
  fst (integrate func rand_rand pow_half
         (snd (prepare_grid func rand_rand self n epochs cpe alpha)) times num) = Ok r ->
  fst r == 0.
Proof.
  intros Hvol Hok Hint.
  destruct (prepare_grid_commits _ _ _ _ _ _ _ Hok) as [Hn [b [pos [Hs [Hl Hb]]]]].
  rewrite Hs in Hint.
  destruct (integrate_mean _ _ _ _ _ _ _ Hint) as [b' [bn [Hb' [Hbn E]]]].
  cbn [bins bin_num dimensions rand] in *. inversion Hb'; inversion Hbn; subst b' bn.
  rewrite E.
  rewrite (np_sum_map_ext _ (fun _ => 0)).
  - rewrite np_sum_map_const. unfold Qdiv. ring.
  - intros j _. unfold evaluation_sum.
    rewrite (np_sum_map_ext _ (fun _ => 0)); [ rewrite np_sum_map_const; ring | ].
    intros k _. unfold bin_estimate. cbv zeta.
    rewrite (np_sum_map_ext _ (fun _ => 0)); [ rewrite np_sum_map_const; ring | ].
    intros s _.
    destruct (zone_volume_scaled
                (mkVegas (region self) (length (region self)) pos (Some n) (Some b))
                (Z.to_nat n) b Hb Hl
                (advance n k (np_zeros_int (length (region self)))))
      as [c [_ Ev]].
    + cbn [region]. rewrite Z2Nat.id by lia. apply advance_valid. lia.
    + cbn [region] in Ev. rewrite Ev, Hvol. unfold Qdiv. ring.
Qed.

Lemma integrate_is_linear_witness :
  exists rf rg rh : Q * Q,
    fst (integrate (fun x => 2 * grow x + 3 * 1) centre_rand heron trained1 1 4) = Ok rh
    /\ fst rh == 2 * fst rf + 3 * fst rg.
Proof.
  pose (rf := match fst (integrate grow centre_rand heron trained1 1 4) with
              | Ok r => r
              | Raise _ => (0, 0)
              end).
  pose (rg := match fst (integrate (fun _ => 1) centre_rand heron trained1 1 4) with
              | Ok r => r
              | Raise _ => (0, 0)
              end).
  pose (rh := match fst (integrate (fun x => 2 * grow x + 3 * 1) centre_rand heron
                           trained1 1 4) with
              | Ok r => r
              | Raise _ => (0, 0)
              end).
  assert (fst (integrate grow centre_rand heron trained1 1 4) = Ok rf) as Hf
      by (vm_compute; reflexivity).
  assert (fst (integrate (fun _ => 1) centre_rand heron trained1 1 4) = Ok rg) as Hg
      by (vm_compute; reflexivity).
  assert (fst (integrate (fun x => 2 * grow x + 3 * 1) centre_rand heron trained1 1 4)
          = Ok rh) as Hh by (vm_compute; reflexivity).
  exists rf, rg, rh. split; [ exact Hh | ].
  exact (integrate_is_linear grow (fun _ => 1) 2 3 centre_rand heron trained1 1 4
           rf rg rh Hf Hg Hh).
Defined.

Lemma integrate_degenerate_region_witness :
  exists r,
    fst (integrate grow centre_rand heron
           (snd (prepare_grid grow centre_rand (init [(1, 1)] 0) 2 0 8 1)) 1 4) = Ok r
    /\ fst r == 0.
Proof.
  pose (r := match fst (integrate grow centre_rand heron
                          (snd (prepare_grid grow centre_rand (init [(1, 1)] 0) 2 0 8 1))
                          1 4) with
             | Ok r => r
             | Raise _ => (0, 0)
             end).
  assert (fst (integrate grow centre_rand heron
                 (snd (prepare_grid grow centre_rand (init [(1, 1)] 0) 2 0 8 1)) 1 4)
          = Ok r) as H by (vm_compute; reflexivity).
  exists r. split; [ exact H | ].
  refine (integrate_degenerate_region grow centre_rand heron (init [(1, 1)] 0)
            2 0 8 1 1 4 r _ _ H).
  - vm_compute. reflexivity.
  - vm_compute. reflexivity.
Defined.

(** ** A bounded integrand *)

Lemma np_sum_map_le {A : Type} (f g : A -> Q) l :
  (forall x, In x l -> f x <= g x) -> np_sum (map f l) <= np_sum (map g l).
Proof.
  induction l as [|a l IH]; intros H; cbn [map].
  - apply Qle_refl.
  - pose proof (IH (fun x Hx => H x (or_intror Hx))) as IH'.
    pose proof (H a (or_introl eq_refl)) as Ha.
    rewrite !np_sum_cons. lra.
Qed.

Lemma np_prod_nonneg l : Forall (fun x => 0 <= x) l -> 0 <= np_prod l.
Proof.
  intros H. induction H as [|x l Hx H IH].
  - unfold np_prod. simpl. lra.
  - rewrite np_prod_cons. apply Qmult_le_0_compat; assumption.
Qed.

Lemma region_volume_nonneg self :
  Forall (fun z => fst z <= snd z) (region self) -> 0 <= zone_volume (region self).
Proof.
  intros H. unfold zone_volume. apply np_prod_nonneg.
  apply Forall_forall. intros x Hx. apply in_map_iff in Hx.
  destruct Hx as [z [E Hz]]. subst x.
  pose proof (proj1 (Forall_forall _ _) H z Hz) as Hle. simpl in Hle. lra.
Qed.

Section Bounded.

Variable func : list Q -> Q.
Variable rand_rand : nat -> nat -> list Q.
Variable self : Vegas.
Variable n : nat.
Variable bins_ : table.
Variable m M : Q.

Hypothesis func_bounds : forall x, m <= func x /\ func x <= M.
Hypothesis region_ordered : Forall (fun z => fst z <= snd z) (region self).
Hypothesis bins_columns : Forall (column_inv n) bins_.
Hypothesis bins_length : length bins_ = length (region self).
Hypothesis bins_exist : (1 <= n)%nat.

Lemma evaluation_sum_bounds cpb pos :
  (1 <= cpb)%Z ->
  m * zone_volume (region self)
  <= evaluation_sum func rand_rand self bins_ (Z.of_nat n) (length (region self)) cpb
       (Z.of_nat n ^ Z.of_nat (length (region self))) pos
  /\ evaluation_sum func rand_rand self bins_ (Z.of_nat n) (length (region self)) cpb
       (Z.of_nat n ^ Z.of_nat (length (region self))) pos
     <= M * zone_volume (region self).
Proof.
  intros Hc.
  assert (forall d, (d < length (region self))%nat -> edges_in_unit n (nth d bins_ []))
    as Hedges.
  { intros d Hd. apply column_inv_edges_in_unit.
    apply (proj1 (Forall_forall _ _) bins_columns). apply nth_In. lia. }
  pose proof (evaluation_sum_constant m rand_rand self bins_ n cpb pos Hc bins_exist
                bins_length Hedges) as Elo.
  pose proof (evaluation_sum_constant M rand_rand self bins_ n cpb pos Hc bins_exist
                bins_length Hedges) as Ehi.
  assert (0 < / inject_Z cpb) as Hinv
      by (apply Qinv_lt_0_compat, inject_Z_pos; exact Hc).
  assert (forall k s,
            let zone := get_selected_subregion self bins_
                          (advance (Z.of_nat n) k (np_zeros_int (length (region self)))) in
            let p := func (sample_point zone
                             (rand_rand (pos + k * Z.to_nat cpb + s)%nat
                                (length (region self)))) in
            zone_volume zone * m / inject_Z cpb <= zone_volume zone * p / inject_Z cpb
            /\ zone_volume zone * p / inject_Z cpb
               <= zone_volume zone * M / inject_Z cpb) as Hterm.
  { intros k s zone p.
    destruct (zone_volume_scaled self n bins_ bins_columns bins_length
                (advance (Z.of_nat n) k (np_zeros_int (length (region self))))
                ltac:(apply advance_valid; lia)) as [c [Hc0 Ev]].
    fold zone in Ev.
    assert (0 <= zone_volume zone) as Hv.
    { rewrite Ev. apply Qmult_le_0_compat;
        [ exact Hc0 | apply region_volume_nonneg; exact region_ordered ]. }
    destruct (func_bounds (sample_point zone
                             (rand_rand (pos + k * Z.to_nat cpb + s)%nat
                                (length (region self))))) as [Hlo Hhi].
    fold p in Hlo, Hhi. unfold Qdiv.
    assert (0 <= zone_volume zone * / inject_Z cpb) as Hw
        by (apply Qmult_le_0_compat; lra).
    assert (0 <= (p - m) * (zone_volume zone * / inject_Z cpb))
        by (apply Qmult_le_0_compat; lra).
    assert (0 <= (M - p) * (zone_volume zone * / inject_Z cpb))
        by (apply Qmult_le_0_compat; lra).
    split; lra. }
  split.
  - rewrite <- Elo. unfold evaluation_sum. apply np_sum_map_le. intros k _.
    unfold bin_estimate. cbv zeta. apply np_sum_map_le. intros s _.
    apply (proj1 (Hterm k s)).
  - rewrite <- Ehi. unfold evaluation_sum. apply np_sum_map_le. intros k _.
    unfold bin_estimate. cbv zeta. apply np_sum_map_le. intros s _.
    apply (proj2 (Hterm k s)).
Qed.

End Bounded.

Lemma integrate_bounded_grid func rand_rand pow_half self b n times num r m M :
  (forall x, m <= func x /\ func x <= M) ->
  Forall (fun z => fst z <= snd z) (region self) ->
  bins self = Some b -> bin_num self = Some (Z.of_nat n) ->
  dimensions self = length (region self) ->
  (1 <= n)%nat -> length b = length (region self) ->
  Forall (column_inv n) b ->
  fst (integrate func rand_rand pow_half self times num) = Ok r ->
  m * zone_volume (region self) <= fst r /\ fst r <= M * zone_volume (region self).
Proof.
  intros Hf Hreg Hb Hbn Hdims Hn Hl Hcols Hint.
  destruct (integrate_ok_inv _ _ _ _ _ _ _ Hint) as [Ht _].
  destruct (integrate_mean _ _ _ _ _ _ _ Hint) as [b' [bn [Hb' [Hbn' E]]]].
  rewrite Hb in Hb'. rewrite Hbn in Hbn'. inversion Hb'; inversion Hbn'; subst b' bn.
  rewrite Hdims in E.
  assert (0 < inject_Z times) as Hq by (apply inject_Z_pos; lia).
  set (dims := length (region self)) in *.
  set (total_bins := (Z.of_nat n ^ Z.of_nat dims)%Z) in *.
  set (cpb := Z.max (num / total_bins) 2) in *.
  assert (forall p,
            m * zone_volume (region self)
            <= evaluation_sum func rand_rand self b (Z.of_nat n) dims cpb total_bins p
            /\ evaluation_sum func rand_rand self b (Z.of_nat n) dims cpb total_bins p
               <= M * zone_volume (region self)) as Hev.
  { intros p.
    apply (evaluation_sum_bounds func rand_rand self n b m M Hf Hreg Hcols Hl Hn).
    unfold cpb. lia. }
  set (V := zone_volume (region self)) in *.
  set (sums := map (fun j =>
                      evaluation_sum func rand_rand self b (Z.of_nat n) dims cpb total_bins
                        (rand self + j * (Z.to_nat total_bins * Z.to_nat cpb))%nat)
                   (seq 0 (Z.to_nat times))) in *.
  assert (inject_Z times * (m * V) <= np_sum sums) as Hlo.
  { apply Qle_trans with (np_sum (map (fun _ : nat => m * V) (seq 0 (Z.to_nat times)))).
    - rewrite np_sum_map_const, length_seq, Z2Nat.id by lia. apply Qle_refl.
    - apply np_sum_map_le. intros j _. apply (proj1 (Hev _)). }
  assert (np_sum sums <= inject_Z times * (M * V)) as Hhi.
  { apply Qle_trans with (np_sum (map (fun _ : nat => M * V) (seq 0 (Z.to_nat times)))).
    - apply np_sum_map_le. intros j _. apply (proj2 (Hev _)).
    - rewrite np_sum_map_const, length_seq, Z2Nat.id by lia. apply Qle_refl. }
  rewrite E. split.
  - apply Qle_shift_div_l; [ exact Hq | ]. lra.
  - apply Qle_shift_div_r; [ exact Hq | ]. lra.
Qed.


(** X20.  On an object with a region of [lower <= upper] and a grid as
    training leaves it (in every column the last row 0 and the edges
    non-decreasing, in [(0, 1]] and ending in 1), the estimate of an
    integrand with values in [[m, M]] lies between [m] and [M] times the
    volume of the region, whatever points are drawn. *)
Theorem integrate_bounded func rand_rand pow_half self b n times num r m M :
  (forall x, m <= func x /\ func x <= M) ->
  Forall (fun z => fst z <= snd z) (region self) ->
  bins self = Some b -> bin_num self = Some (Z.of_nat n) ->
  dimensions self = length (region self) ->
  (1 <= n)%nat -> length b = length (region self) ->
  Forall (column_inv n) b ->
  fst (integrate func rand_rand pow_half self times num) = Ok r ->
  m * zone_volume (region self) <= fst r /\ fst r <= M * zone_volume (region self).
Proof.
  apply integrate_bounded_grid.
Qed.

Lemma rnd_bounds x : 0 <= rnd x /\ rnd x <= 1.
Proof.
  unfold rnd. destruct (Qle_bool 1 _); split; unfold Qle; simpl; lia.
Qed.


Lemma model1_region_ordered : Forall (fun z => fst z <= snd z) (region model1).
Proof. repeat constructor. simpl. unfold Qle. simpl. lia. Qed.

Lemma column_inv_example : column_inv 2 [1 # 2; 1; 0].
Proof.
  split; [ reflexivity | ]. split; [ reflexivity | ].
  destruct edges_in_unit_example as [_ [Hm [_ Hlast]]].
  split; [ exact Hm | ]. split; [ | exact Hlast ].
  intros i Hi. destruct i as [|[|i]]; [ | | lia ]; simpl; unfold Qlt, Qle; simpl; lia.
Qed.

Lemma integrate_bounded_witness :
  exists r : Q * Q,
    fst (integrate rnd centre_rand heron trained1 1 4) = Ok r
    /\ fst r <= 1 * zone_volume (region trained1).
Proof.
  pose (r := match fst (integrate rnd centre_rand heron trained1 1 4) with
             | Ok r => r
             | Raise _ => (0, 0)
             end).
  assert (fst (integrate rnd centre_rand heron trained1 1 4) = Ok r) as H
      by (vm_compute; reflexivity).
  exists r. split; [ exact H | ].
  refine (proj2 (integrate_bounded rnd centre_rand heron trained1 [[1 # 2; 1; 0]] 2 1 4 r
                   0 1 rnd_bounds model1_region_ordered _ _ _ _ _ _ H)).
  - reflexivity.
  - reflexivity.
  - reflexivity.
  - lia.
  - reflexivity.
  - constructor; [ exact column_inv_example | constructor ].
Defined.

